(** * Image_Transformer: a shallow embedding of [Image_Transformer.py]

    The development follows the pipeline of [Transformer.run]:
    [open_images], [classify_pixels], [get_random_pixel_mappings],
    [mutate] (iterated until convergence) and [generate_frames].

    - Python exceptions are a [result] type with an error constructor.
    - The global [random] module is an explicit generator state: an
      arbitrary tape of raw draws and a cursor.  Theorems quantify over
      the tape, so they cover every sequence of outcomes.
    - [self.pairings] is a list of references to two-element lists; the
      store of these inner lists is explicit, because [mutate] takes a
      shallow copy with [list(...)] and deep copies with [copy.deepcopy].
    - numpy's [float32]/[float64] arithmetic of [get_score] and
      [generate_frames] is the IEEE-754 specification of the standard
      library ([SpecFloat]). *)

From Stdlib Require Import ZArith Lia Bool String Ascii Decimal DecimalString.
From Stdlib Require DecimalZ.
From Stdlib Require Import SpecFloat.
From stdpp Require Import base list.

Local Open Scope Z_scope.

(** ** Exceptions and results *)

Inductive exn : Type :=
  | IndexError
  | ValueError
  | AssertionError.

Inductive result (A : Type) : Type :=
  | Ok (a : A)
  | Raise (e : exn).
Arguments Ok {A} a.
Arguments Raise {A} e.

#[global] Instance result_ret : MRet result := fun _ a => Ok a.
#[global] Instance result_bind : MBind result := fun _ _ k m =>
  match m with
  | Ok a => k a
  | Raise e => Raise e
  end.
#[global] Instance result_fmap : FMap result := fun _ _ f m =>
  match m with
  | Ok a => Ok (f a)
  | Raise e => Raise e
  end.

Definition is_ok {A : Type} (m : result A) : bool :=
  match m with Ok _ => true | Raise _ => false end.

(** ** The random number generator

    [tape] is the sequence of raw draws that the generator will deliver,
    [cursor] the number of draws consumed so far. *)

Record rng : Type := mkRng { tape : nat -> Z; cursor : nat }.

Definition draw (g : rng) : Z * rng :=
  (tape g (cursor g), mkRng (tape g) (S (cursor g))).

(** [random.randint(a, b)]: an integer of [a..b], both ends included;
    [ValueError] on an empty range. *)
Definition randint (a b : Z) (g : rng) : result (Z * rng) :=
  if b <? a then Raise ValueError
  else let '(r, g') := draw g in Ok (a + r mod (b - a + 1), g').

(** ** Python lists *)

Definition len {A : Type} (l : list A) : Z := Z.of_nat (length l).

(** The position that a Python index denotes: negative indices count
    from the end. *)
Definition py_index {A : Type} (l : list A) (i : Z) : option nat :=
  if (0 <=? i) && (i <? len l) then Some (Z.to_nat i)
  else if (- len l <=? i) && (i <? 0) then Some (Z.to_nat (i + len l))
  else None.

(** [l.pop(i)]: the element removed and the remaining list. *)
Definition pop {A : Type} (l : list A) (i : Z) : result (A * list A) :=
  match py_index l i with
  | Some n =>
      match l !! n with
      | Some x => Ok (x, delete n l)
      | None => Raise IndexError
      end
  | None => Raise IndexError
  end.

(** [l[i]] *)
Definition getitem {A : Type} (l : list A) (i : Z) : result A :=
  match py_index l i with
  | Some n => match l !! n with Some x => Ok x | None => Raise IndexError end
  | None => Raise IndexError
  end.

(** [for i in range(start, start + n): body], the state threaded through. *)
Fixpoint for_loop {S : Type} (body : Z -> S -> result S)
    (start : Z) (n : nat) (s : S) : result S :=
  match n with
  | O => Ok s
  | Datatypes.S n' => s' ← body start s; for_loop body (start + 1) n' s'
  end.

Definition for_range {S : Type} (lo hi : Z) (body : Z -> S -> result S)
    (s : S) : result S :=
  for_loop body lo (Z.to_nat (hi - lo)) s.

(** ** Data model *)

(** A pixel coordinate, [(row, column)], as [np.argwhere] yields it. *)
Abbreviation coord := (Z * Z)%type.

(** One inner list [[in_pix, out_pix]] of [self.pairings]. *)
Abbreviation entry := (coord * coord)%type.

Inductive relationship : Type :=
  | OneToOne
  | ManyToOne
  | OneToMany.

(** The comparison of [classify_pixels], lines 84-89. *)
Definition relationship_of (im1_count im2_count : Z) : relationship :=
  if im1_count =? im2_count then OneToOne
  else if im1_count >? im2_count then ManyToOne
  else OneToMany.

(** [//] and [%] on the [np.int64] counts that [np.sum] returns: floor
    division; a zero divisor gives 0 (with a warning), not an exception. *)
Definition np_floordiv (a b : Z) : Z := if b =? 0 then 0 else a / b.
Definition np_mod (a b : Z) : Z := if b =? 0 then 0 else a mod b.

(** ** Floating point

    Python's [float] and numpy's [float64] are IEEE-754 binary64, numpy's
    [float32] is binary32; every operation rounds to nearest, ties to
    even. *)

Module Float.

Abbreviation float := spec_float.

Definition of_Z (prec emax : Z) (z : Z) : float :=
  binary_normalize prec emax z 0 false.

Definition f64_of_Z : Z -> float := of_Z 53 1024.
Definition f64_add : float -> float -> float := SFadd 53 1024.
Definition f64_mul : float -> float -> float := SFmul 53 1024.
Definition f64_div : float -> float -> float := SFdiv 53 1024.

Definition f32_of_Z : Z -> float := of_Z 24 128.
Definition f32_add : float -> float -> float := SFadd 24 128.
Definition f32_sub : float -> float -> float := SFsub 24 128.
Definition f32_mul : float -> float -> float := SFmul 24 128.

(** The conversion of a binary64 scalar to binary32. *)
Definition f32_of_f64 (x : float) : float :=
  match x with
  | S754_finite s m e => binary_round 24 128 s m e
  | _ => x
  end.

(** [astype(np.int32)] on a finite value: the fraction is dropped. *)
Definition truncate (x : float) : Z :=
  match x with
  | S754_finite s m e => cond_Zopp s (Z.shiftl (Z.pos m) e)
  | _ => 0
  end.

Definition ltb : float -> float -> bool := SFltb.

End Float.

(** [random.random()]: a multiple of [2^-53] in [[0, 1)]. *)
Definition random (g : rng) : Float.float * rng :=
  let '(r, g') := draw g in
  (binary_normalize 53 1024 (r mod 2 ^ 53) (-53) false, g').

(** ** Images *)

Record rgb : Type := mkRgb { red : Z; green : Z; blue : Z }.

(** A decoded image: [array row column] is the pixel of [np_im] in row
    [row] and column [column], for [0 <= row < height] and
    [0 <= column < width]; PIL's [size] is [(width, height)]. *)
Record image : Type := mkImage {
  width : nat;
  height : nat;
  array : Z -> Z -> rgb
}.

Definition size (im : image) : nat * nat := (width im, height im).

(** numpy's index into an axis of length [n]: a negative index counts
    from the end of the axis; an index outside [-n .. n-1] is out of
    bounds. *)
Definition np_wrap (n : nat) (i : Z) : Z :=
  if i <? 0 then i + Z.of_nat n else i.

Definition np_valid (n : nat) (i : Z) : bool :=
  (- Z.of_nat n <=? i) && (i <? Z.of_nat n).

(** [np_im[row, column]], for an index pair that numpy accepts. *)
Definition pixel (im : image) (row column : Z) : rgb :=
  array im (np_wrap (height im) row) (np_wrap (width im) column).

(** [np.mean(np_im, axis=2) < white_threshold] at one pixel. *)
Definition wherecolored (white_threshold : Z) (im : image) (r c : Z) : bool :=
  Float.ltb
    (Float.f64_div (Float.f64_of_Z (red (pixel im r c) + green (pixel im r c)
                                    + blue (pixel im r c)))
                   (Float.f64_of_Z 3))
    (Float.f64_of_Z white_threshold).

(** The index pairs of a [height] x [width] array, in row-major order. *)
Definition cells (h w : nat) : list coord :=
  r ← seq 0 h; c ← seq 0 w; [(Z.of_nat r, Z.of_nat c)].

(** [np.sum] of a [height] x [width] mask. *)
Definition np_sum (h w : nat) (mask : Z -> Z -> bool) : Z :=
  foldr Z.add 0 ((λ rc, if mask (fst rc) (snd rc) then 1 else 0) <$> cells h w).

(** [np.argwhere] of the mask, as tuples: the index pairs of the true
    cells, in row-major order. *)
Definition argwhere (h w : nat) (mask : Z -> Z -> bool) : list coord :=
  filter (λ rc, mask (fst rc) (snd rc) = true) (cells h w).

(** ** open_images and classify_pixels *)

(** Line 75: the two decoded images must have the same size. *)
Definition open_images (im1 im2 : image) : result (image * image) :=
  if decide (size im1 = size im2) then Ok (im1, im2) else Raise AssertionError.

Record classification : Type := mkClassification {
  im1_wherecolored : Z -> Z -> bool;
  im2_wherecolored : Z -> Z -> bool;
  im1_colored_pixel_count : Z;
  im2_colored_pixel_count : Z;
  relationship_ : relationship
}.

(** Lines 77-91 (the prints left out). *)
Definition classify_pixels (white_threshold : Z) (im1 im2 : image)
    : classification :=
  let m1 := wherecolored white_threshold im1 in
  let m2 := wherecolored white_threshold im2 in
  let c1 := np_sum (height im1) (width im1) m1 in
  let c2 := np_sum (height im2) (width im2) m2 in
  mkClassification m1 m2 c1 c2 (relationship_of c1 c2).

(** ** get_random_pixel_mappings *)

Module Builder.

(** The local variables of [get_random_pixel_mappings] that the loops
    update. *)
Record st : Type := mkSt {
  in_pixels : list coord;
  out_pixels : list coord;
  pairings : list entry;
  higher_numbers_placed : Z;
  gen : rng
}.

(** Lines 100-103. *)
Definition one_to_one_body (i : Z) (s : st) : result st :=
  '(in_pix, ins) ← pop (in_pixels s) i;
  '(out_pix_index, g) ← randint 0 (len (out_pixels s) - 1) (gen s);
  '(out_pix, outs) ← pop (out_pixels s) out_pix_index;
  Ok (mkSt ins outs (pairings s ++ [(in_pix, out_pix)])
           (higher_numbers_placed s) g).

(** Lines 112-114 (and 118-120): draw a source pixel for [out_pix]. *)
Definition take_in (out_pix : coord) (_ : Z) (s : st) : result st :=
  '(in_pix_index, g) ← randint 0 (len (in_pixels s) - 1) (gen s);
  '(in_pix, ins) ← pop (in_pixels s) in_pix_index;
  Ok (mkSt ins (out_pixels s) (pairings s ++ [(in_pix, out_pix)])
           (higher_numbers_placed s) g).

(** Lines 129-131 (and 135-137): draw a target pixel for [in_pix]. *)
Definition take_out (in_pix : coord) (_ : Z) (s : st) : result st :=
  '(out_pix_outdex, g) ← randint 0 (len (out_pixels s) - 1) (gen s);
  '(out_pix, outs) ← pop (out_pixels s) out_pix_outdex;
  Ok (mkSt (in_pixels s) outs (pairings s ++ [(in_pix, out_pix)])
           (higher_numbers_placed s) g).

Definition bump (s : st) : st :=
  mkSt (in_pixels s) (out_pixels s) (pairings s)
       (higher_numbers_placed s + 1) (gen s).

(** Lines 109-120. *)
Definition many_to_one_body (higher_number higher_number_count : Z)
    (_ : Z) (s : st) : result st :=
  '(out_pix, outs) ← pop (out_pixels s) 0;
  let s := mkSt (in_pixels s) outs (pairings s)
                (higher_numbers_placed s) (gen s) in
  if higher_numbers_placed s <? higher_number_count then
    s ← for_range 0 higher_number (take_in out_pix) s;
    Ok (bump s)
  else
    for_range 0 (higher_number - 1) (take_in out_pix) s.

(** Lines 126-137. *)
Definition one_to_many_body (higher_number higher_number_count : Z)
    (_ : Z) (s : st) : result st :=
  '(in_pix, ins) ← pop (in_pixels s) 0;
  let s := mkSt ins (out_pixels s) (pairings s)
                (higher_numbers_placed s) (gen s) in
  if higher_numbers_placed s <? higher_number_count then
    s ← for_range 0 higher_number (take_out in_pix) s;
    Ok (bump s)
  else
    for_range 0 (higher_number - 1) (take_out in_pix) s.

(** Lines 92-137.  [in_pixels] and [out_pixels] are the coordinate
    lists of the two masks; the counts are those of [classify_pixels]. *)
Definition get_random_pixel_mappings (rel : relationship)
    (im1_count im2_count : Z) (ins outs : list coord) (g : rng)
    : result (list entry * rng) :=
  let s0 := mkSt ins outs [] 0 g in
  s ← match rel with
       | OneToOne =>
           for_range 0 (len ins) one_to_one_body s0
       | ManyToOne =>
           let higher_number := np_floordiv im1_count im2_count + 1 in
           let higher_number_count := np_mod im1_count im2_count in
           for_range 0 (len outs)
             (many_to_one_body higher_number higher_number_count) s0
       | OneToMany =>
           let higher_number := np_floordiv im2_count im1_count + 1 in
           let higher_number_count := np_mod im2_count im1_count in
           for_range 0 (len ins)
             (one_to_many_body higher_number higher_number_count) s0
       end;
  Ok (pairings s, gen s).

(** The builder on two coordinate lists, the relationship and the counts
    derived from them as [classify_pixels] does. *)
Definition build (ins outs : list coord) (g : rng)
    : result (list entry * rng) :=
  get_random_pixel_mappings (relationship_of (len ins) (len outs))
    (len ins) (len outs) ins outs g.

End Builder.

(** [run], lines 58-62: from the decoded images to the initial
    correspondence. *)
Definition run_to_mappings (white_threshold : Z) (im1 im2 : image) (g : rng)
    : result (list entry * rng) :=
  '(im1, im2) ← open_images im1 im2;
  let c := classify_pixels white_threshold im1 im2 in
  Builder.get_random_pixel_mappings (relationship_ c)
    (im1_colored_pixel_count c) (im2_colored_pixel_count c)
    (argwhere (height im1) (width im1) (im1_wherecolored c))
    (argwhere (height im2) (width im2) (im2_wherecolored c)) g.

(** ** The store of inner lists

    An element of [self.pairings] is a reference to a two-element list
    [[in_pix, out_pix]].  [list(l)] copies the outer list only, so its
    elements are the same references; [copy.deepcopy(l)] allocates new
    inner lists. *)

Abbreviation ref := nat.
Abbreviation store := (list entry).

(** The correspondence that a list of references denotes. *)
Definition deref (h : store) (l : list ref) : list entry :=
  (λ r, h !!! r) <$> l.

(** [copy.deepcopy(l)], for a list of pairwise distinct references. *)
Definition deepcopy (h : store) (l : list ref) : store * list ref :=
  (h ++ deref h l, seq (length h) (length l)).

(** [l[r][1] = v] and [l[r][0] = v] on the inner list at [r]. *)
Definition set_target (h : store) (r : ref) (v : coord) : store :=
  <[r := (fst (h !!! r), v)]> h.
Definition set_source (h : store) (r : ref) (v : coord) : store :=
  <[r := (v, snd (h !!! r))]> h.

(** Lines 157-159 and 161-163: the exchange between the inner lists at
    [tp] (the trade partner) and [me]. *)
Definition swap_targets (h : store) (tp me : ref) : store :=
  let temp := snd (h !!! tp) in
  let h := set_target h tp (snd (h !!! me)) in
  set_target h me temp.

Definition swap_sources (h : store) (tp me : ref) : store :=
  let temp := fst (h !!! tp) in
  let h := set_source h tp (fst (h !!! me)) in
  set_source h me temp.

Definition swap_movable (rel : relationship) (h : store) (tp me : ref) : store :=
  match rel with
  | OneToMany | OneToOne => swap_targets h tp me
  | ManyToOne => swap_sources h tp me
  end.

(** ** Python's [min] and [list.index] *)

Section MinIndex.
Context {A : Type}.
Variables ltb eqb : A -> A -> bool.

(** [min(l)]: the first of the smallest items. *)
Definition py_min (l : list A) : result A :=
  match l with
  | [] => Raise ValueError
  | x :: l' => Ok (foldl (λ m y, if ltb y m then y else m) x l')
  end.

(** [l.index(v)] *)
Fixpoint index (l : list A) (v : A) : result Z :=
  match l with
  | [] => Raise ValueError
  | x :: l' => if eqb x v then Ok 0 else Z.succ <$> index l' v
  end.
End MinIndex.

(** ** get_score and mutate

    The definitions are generic in the arithmetic of the scores:
    [score_add] is [+], [distance] is [x ** .5] on the integer
    [delta_x**2 + delta_y**2], [score_ltb] and [score_eqb] are [<] and
    [==].  The scores of the code, binary64, are the instance [Score]
    below. *)

Section Optimizer.
Context {score : Type}.
Variable score_zero : score.
Variable score_add : score -> score -> score.
Variable distance : Z -> score.
Variables score_ltb score_eqb : score -> score -> bool.

(** Lines 140-147. *)
Definition get_score (pairings : list entry) : score :=
  foldl (λ aggregate pair,
           let delta_x := fst (snd pair) - fst (fst pair) in
           let delta_y := snd (snd pair) - snd (fst pair) in
           score_add aggregate (distance (delta_x ^ 2 + delta_y ^ 2)))
        score_zero pairings.

(** The attributes of [self] that [mutate] reads or writes.  [pairings]
    holds the contents of [self.pairings]: between two calls its inner
    lists are fresh and pairwise distinct (line 103, 114, 120, 131, 137
    or the deep copy of line 168). *)
Record optimizer : Type := mkOptimizer {
  relationship_of_self : relationship;
  population_size : Z;
  mutation_rate : Float.float;
  convergence_threshold : Z;
  converged : bool;
  same_score_count : Z;
  generation_count : Z;
  pairings : list entry;
  best_score : score;
  last_best_score : score
}.

(** Lines 154-163: entry [i] of [new_pairings]. *)
Definition mutate_entry (rel : relationship) (rate : Float.float)
    (new_pairings : list ref) (i : Z) (hg : store * rng)
    : result (store * rng) :=
  let '(h, g) := hg in
  let '(u, g) := random g in
  if Float.ltb u rate then
    '(trade_partner, g) ← randint 0 (len new_pairings - 1) g;
    tp ← getitem new_pairings trade_partner;
    me ← getitem new_pairings i;
    Ok (swap_movable rel h tp me, g)
  else Ok (h, g).

(** Lines 152-164: one mutated clone.  [self_pairings] are the
    references held by [self.pairings]. *)
Definition clone_body (rel : relationship) (rate : Float.float)
    (self_pairings : list ref) (_ : Z)
    (s : store * list (list ref) * rng)
    : result (store * list (list ref) * rng) :=
  let '(h, population, g) := s in
  let new_pairings := self_pairings in
  '(h, g) ← for_range 0 (len new_pairings)
              (mutate_entry rel rate new_pairings) (h, g);
  let '(h, copy) := deepcopy h new_pairings in
  Ok (h, population ++ [copy], g).

(** Lines 150-164: the population of one generation, as correspondences,
    and what [self.pairings] denotes when the loop is left. *)
Definition build_population (rel : relationship) (rate : Float.float)
    (population_size : Z) (pairings : list entry) (g : rng)
    : result (list (list entry) * list entry * rng) :=
  let h : store := pairings in
  let self_pairings : list ref := seq 0 (length pairings) in
  let first := deepcopy h self_pairings in
  '(h, population, g) ← for_range 1 population_size
                          (clone_body rel rate self_pairings)
                          (fst first, [snd first], g);
  Ok (map (deref h) population, deref h self_pairings, g).

(** Lines 148-178. *)
Definition mutate (s : optimizer) (g : rng) : result (optimizer * rng) :=
  let generation_count := generation_count s + 1 in
  '(population, _, g) ← build_population (relationship_of_self s)
                          (mutation_rate s) (population_size s)
                          (pairings s) g;
  let scores := map get_score population in
  lowest ← py_min score_ltb scores;
  best_score_index ← index score_eqb scores lowest;
  pairings ← getitem population best_score_index;
  let best_score := lowest in
  let '(same_score_count, converged) :=
    if score_eqb best_score (last_best_score s) then
      let same_score_count := same_score_count s + 1 in
      (same_score_count,
       if same_score_count =? convergence_threshold s then true
       else converged s)
    else if score_ltb best_score (last_best_score s) then (0, converged s)
    else (same_score_count s, converged s) in
  let last_best_score := best_score in
  Ok (mkOptimizer (relationship_of_self s) (population_size s)
        (mutation_rate s) (convergence_threshold s) converged
        same_score_count generation_count pairings best_score
        last_best_score, g).

(** The attributes after [__init__] (lines 46-52) and
    [get_random_pixel_mappings] (lines 138-139). *)
Definition initial (rel : relationship) (pairings : list entry) : optimizer :=
  mkOptimizer rel 5 (Float.f64_div (Float.f64_of_Z 1) (Float.f64_of_Z 100))
    200 false 0 0 pairings (get_score pairings) (get_score pairings).

End Optimizer.

(** [run], lines 64-65: [while not self.converged: self.mutate()], cut off
    after [fuel] generations. *)
Fixpoint generations {score : Type} (score_zero : score)
    (score_add : score -> score -> score) (distance : Z -> score)
    (score_ltb score_eqb : score -> score -> bool)
    (fuel : nat) (s : optimizer) (g : rng) : result (optimizer * rng) :=
  match fuel with
  | O => Ok (s, g)
  | S fuel' =>
      if converged s then Ok (s, g)
      else
        '(s', g') ← mutate score_zero score_add distance score_ltb
                      score_eqb s g;
        generations score_zero score_add distance score_ltb score_eqb
          fuel' s' g'
  end.

(** [run], lines 58-65: the front end, then the search loop, cut off
    after [fuel] generations.  The settings and counters are those of
    [__init__]. *)
Definition run_to_convergence {score : Type} (score_zero : score)
    (score_add : score -> score -> score) (distance : Z -> score)
    (score_ltb score_eqb : score -> score -> bool)
    (white_threshold : Z) (fuel : nat) (im1 im2 : image) (g : rng)
    : result (optimizer * rng) :=
  '(pairings, g) ← run_to_mappings white_threshold im1 im2 g;
  generations score_zero score_add distance score_ltb score_eqb fuel
    (initial score_zero score_add distance
       (relationship_ (classify_pixels white_threshold im1 im2)) pairings) g.

(** ** The scores of the code

    [aggregate] starts as the integer 0 and becomes a [np.float64] with
    the first distance added; [+], [<] and [==] are those of binary64.
    [distance] is [(delta_x**2+delta_y**2)**.5] on the [np.int64] sum of
    squares: the power function of the C library, which is close to the
    square root but not correctly rounded for every argument.  It stays a
    parameter; [sqrt_distance], the correctly rounded square root, is one
    function it can be. *)

Module Score.

Definition zero : Float.float := S754_zero false.
Definition add : Float.float -> Float.float -> Float.float := Float.f64_add.
Definition ltb : Float.float -> Float.float -> bool := SFltb.
Definition eqb : Float.float -> Float.float -> bool := SFeqb.

Definition sqrt_distance (z : Z) : Float.float :=
  SFsqrt 53 1024 (Float.f64_of_Z z).

Definition get_score (distance : Z -> Float.float)
    : list entry -> Float.float :=
  get_score zero add distance.
Definition mutate (distance : Z -> Float.float)
    : optimizer -> rng -> result (optimizer * rng) :=
  mutate zero add distance ltb eqb.
Definition initial (distance : Z -> Float.float)
    : relationship -> list entry -> optimizer :=
  initial zero add distance.
Definition generations (distance : Z -> Float.float)
    : nat -> optimizer -> rng -> result (optimizer * rng) :=
  generations zero add distance ltb eqb.
Definition run_to_convergence (distance : Z -> Float.float)
    : Z -> nat -> image -> image -> rng -> result (optimizer * rng) :=
  run_to_convergence zero add distance ltb eqb.

End Score.

(** ** generate_frames *)

(** [str(z)] *)
Definition str (z : Z) : string := NilZero.string_of_int (Z.to_int z).

(** Lines 197-198 and 239-240: [while len(number_str) < max_number_len:
    number_str = "0" + number_str]; the loop runs [n] times. *)
Fixpoint zero_pad (n : nat) (number_str : string) : string :=
  match n with
  | O => number_str
  | S n' => zero_pad n' (String "0" number_str)
  end.

Definition pad_to (max_number_len : nat) (number_str : string) : string :=
  zero_pad (max_number_len - String.length number_str) number_str.

Definition frame_file (number_str : string) : string :=
  ("frames/frame_" ++ number_str ++ ".png")%string.

(** [range(lo, hi)] *)
Definition range (lo hi : Z) : list Z := seqZ lo (hi - lo).

(** A point handed to [draw.point]: [(x, y)] and the three colour
    channels that line 233 formats. *)
Abbreviation location := (Float.float * Float.float)%type.
Abbreviation colour := (Z * Z * Z)%type.

(** What [save] writes: an image as it was opened, or a white canvas of
    the given size with points drawn on it in turn. *)
Inductive picture : Type :=
  | Photo (im : image)
  | Canvas (size : nat * nat) (points : list (location * colour)).

(** Lines 214-215 and 219 on one coordinate (binary64). *)
Definition current_point (ratio : Float.float) (start_point end_point : Z)
    : Float.float :=
  Float.f64_add (Float.f64_of_Z start_point)
    (Float.f64_mul (Float.f64_of_Z (end_point - start_point)) ratio).

(** Lines 216-217, 220 and 230 on one channel (binary32, then [int32]). *)
Definition current_color (ratio : Float.float) (start_color end_color : Z) : Z :=
  Float.truncate
    (Float.f32_add (Float.f32_of_Z start_color)
       (Float.f32_mul
          (Float.f32_sub (Float.f32_of_Z end_color) (Float.f32_of_Z start_color))
          (Float.f32_of_f64 ratio))).

(** Lines 225-235 for one entry: the location with its two coordinates
    exchanged, and the colour. *)
Definition frame_point (ratio : Float.float) (im1 im2 : image) (pair : entry)
    : location * colour :=
  let start_point := fst pair in
  let end_point := snd pair in
  let start_color := pixel im1 (fst start_point) (snd start_point) in
  let end_color := pixel im2 (fst end_point) (snd end_point) in
  ((current_point ratio (snd start_point) (snd end_point),
    current_point ratio (fst start_point) (fst end_point)),
   (current_color ratio (red start_color) (red end_color),
    current_color ratio (green start_color) (green end_color),
    current_color ratio (blue start_color) (blue end_color))).

(** Lines 224-235: the points drawn on one frame. *)
Definition drawn_points (ratio : Float.float) (im1 im2 : image)
    (pairings : list entry) : list (location * colour) :=
  omap (λ j, frame_point ratio im1 im2 <$> pairings !! Z.to_nat j)
       (range 0 (len pairings - 1)).

(** Line 205: [ratio = i/self.number_of_frames]. *)
Definition frame_ratio (number_of_frames i : Z) : Float.float :=
  Float.f64_div (Float.f64_of_Z i) (Float.f64_of_Z number_of_frames).

(** Lines 207-212: [np_im[tuple(points.T.tolist())]], the colours at the
    given points.  An index out of bounds for its axis raises
    [IndexError]. *)
Definition getcolors (im : image) (points : list coord) : result (list rgb) :=
  if forallb (λ rc, np_valid (height im) (fst rc) && np_valid (width im) (snd rc))
             points
  then Ok (map (λ rc, pixel im (fst rc) (snd rc)) points)
  else Raise IndexError.

(** numpy can combine two axes of lengths [a] and [b] elementwise when
    they are equal or one of them is 1. *)
Definition broadcasts (a b : nat) : bool :=
  (a =? b)%nat || (a =? 1)%nat || (b =? 1)%nat.

(** Line 216: [end_colors - start_colors].  With entries the operands are
    two arrays of one colour per entry.  Without entries the index of
    lines 209 and 212 is the empty tuple, which selects the whole image:
    the operands are the two images, and the difference raises
    [ValueError] when their shapes cannot be combined. *)
Definition color_deltas (im1 im2 : image) (pairings : list entry)
    : result unit :=
  match pairings with
  | [] =>
      if broadcasts (height im1) (height im2)
         && broadcasts (width im1) (width im2)
      then Ok tt else Raise ValueError
  | _ :: _ => Ok tt
  end.

(** Lines 203-242: frame [i].  The colours of lines 209 and 212 are those
    that [frame_point] reads for each entry. *)
Definition intermediate_frame (number_of_frames : Z) (im1 im2 : image)
    (pairings : list entry) (i : Z) : result (string * picture) :=
  let ratio := frame_ratio number_of_frames i in
  _ ← getcolors im1 (map fst pairings);
  _ ← getcolors im2 (map snd pairings);
  _ ← color_deltas im1 im2 pairings;
  let max_number_len := String.length (str number_of_frames) in
  Ok (frame_file (pad_to max_number_len (str i)),
      Canvas (size im1) (drawn_points ratio im1 im2 pairings)).

(** Lines 203-242: the loop over the frame numbers.  A frame that raises
    ends the loop; the files saved before stay saved. *)
Fixpoint save_frames (frame : Z -> result (string * picture))
    (numbers : list Z) (saved : list (string * picture))
    : list (string * picture) * result unit :=
  match numbers with
  | [] => (saved, Ok tt)
  | i :: numbers' =>
      match frame i with
      | Ok file => save_frames frame numbers' (saved ++ [file])
      | Raise e => (saved, Raise e)
      end
  end.

(** Lines 192-246: the files saved, in order, and whether the function
    returns or raises. *)
Definition generate_frames (number_of_frames : Z) (im1 im2 : image)
    (pairings : list entry) : list (string * picture) * result unit :=
  let max_number_len := String.length (str number_of_frames) in
  let first := (frame_file (pad_to max_number_len "0"), Photo im1) in
  match save_frames (intermediate_frame number_of_frames im1 im2 pairings)
          (range 1 number_of_frames) [first] with
  | (saved, Ok _) =>
      (saved ++ [(frame_file (str number_of_frames), Photo im2)], Ok tt)
  | (saved, Raise e) => (saved, Raise e)
  end.

Definition const_rng (k : Z) : rng := mkRng (fun _ => k) 0.

(** * Specification vocabulary and example inputs *)

(** The number of entries of a column that hold coordinate [c]. *)
Definition occurrences (c : coord) (col : list coord) : nat :=
  length (filter (λ x, x = c) col).

(** The coordinates of [cs] that occur exactly [k] times in [col]. *)
Definition with_multiplicity (k : nat) (cs col : list coord) : list coord :=
  filter (λ c, occurrences c col = k) cs.

(** Entries given to the coordinate processed when
    [higher_numbers_placed = p], and the counter afterwards; [q] is
    [higher_number - 1], [r] is [higher_number_count]. *)
Definition share (q r p : Z) : Z := if p <? r then q + 1 else q.
Definition placed_after (r p : Z) : Z := if p <? r then p + 1 else p.

(** The shares of [t] coordinates processed in turn. *)
Fixpoint shares (q r p : Z) (t : nat) : list Z :=
  match t with
  | O => []
  | S t' => share q r p :: shares q r (placed_after r p) t'
  end.

Definition total (ks : list Z) : Z := foldr Z.add 0 ks.

(** The smaller-side column: each coordinate repeated by its share. *)
Fixpoint groups (ks : list Z) (cs : list coord) : list coord :=
  match ks, cs with
  | k :: ks', c :: cs' => replicate (Z.to_nat k) c ++ groups ks' cs'
  | _, _ => []
  end.

(** An entry turned round. *)
Definition swap_entry (e : entry) : entry := (snd e, fst e).

(** The builder's state with the roles of the two images exchanged. *)
Definition flip (s : Builder.st) : Builder.st :=
  Builder.mkSt (Builder.out_pixels s) (Builder.in_pixels s)
    (map swap_entry (Builder.pairings s))
    (Builder.higher_numbers_placed s) (Builder.gen s).

(** [lcol] is the column of the larger set, [scol] that of the smaller:
    every coordinate of the larger set occurs once, every coordinate of the
    smaller set [q] or [q + 1] times, and [r] of them [q + 1] times. *)
Definition distributed (larger smaller lcol scol : list coord) : Prop :=
  let q := len larger / len smaller in
  let r := len larger mod len smaller in
  len lcol = len larger /\
  (forall c, c ∈ larger -> occurrences c lcol = 1%nat) /\
  (forall c, c ∈ smaller ->
     Z.of_nat (occurrences c scol) = q \/ Z.of_nat (occurrences c scol) = q + 1) /\
  len (with_multiplicity (Z.to_nat (q + 1)) smaller scol) = r.

Definition cardinality_invariant (ins outs : list coord) (p : list entry) : Prop :=
  if len outs <=? len ins
  then distributed ins outs (map fst p) (map snd p)
  else distributed outs ins (map snd p) (map fst p).

(** The column whose coordinates a mutation moves, and the other one. *)
Definition movable_column (rel : relationship) (p : list entry) : list coord :=
  match rel with
  | OneToMany | OneToOne => map snd p
  | ManyToOne => map fst p
  end.

Definition fixed_column (rel : relationship) (p : list entry) : list coord :=
  match rel with
  | OneToMany | OneToOne => map fst p
  | ManyToOne => map snd p
  end.

(** What mutations do to a store whose first [n] inner lists are the
    correspondence: nothing is allocated, the other inner lists keep their
    contents, the fixed column is unchanged and the movable column is
    permuted. *)
Definition reshuffled (rel : relationship) (n : nat) (h h' : store) : Prop :=
  length h' = length h /\
  drop n h' = drop n h /\
  fixed_column rel (take n h') = fixed_column rel (take n h) /\
  movable_column rel (take n h') ≡ₚ movable_column rel (take n h).

(** [v] pairs the coordinates of [p] differently: same fixed column, the
    movable column permuted. *)
Definition variant (rel : relationship) (p v : list entry) : Prop :=
  fixed_column rel v = fixed_column rel p /\
  movable_column rel v ≡ₚ movable_column rel p.

(** References at or above [n] are out of the reach of mutations and of
    later allocations. *)
Definition above (n : nat) (h : store) (c : list ref) : Prop :=
  Forall (λ r, (n <= r < length h)%nat) c.

(** The name under which frame [k] of [number_of_frames] is saved. *)
Definition frame_name (number_of_frames k : Z) : string :=
  frame_file (pad_to (String.length (str number_of_frames)) (str k)).

(** Frame [i] when nothing raises, and the files of a run of
    [generate_frames] in which nothing raises. *)
Definition canvas_frame (number_of_frames : Z) (im1 im2 : image)
    (pairings : list entry) (i : Z) : string * picture :=
  (frame_name number_of_frames i,
   Canvas (size im1)
     (drawn_points (frame_ratio number_of_frames i) im1 im2 pairings)).

Definition all_frames (number_of_frames : Z) (im1 im2 : image)
    (pairings : list entry) : list (string * picture) :=
  [(frame_name number_of_frames 0, Photo im1)]
  ++ (canvas_frame number_of_frames im1 im2 pairings
        <$> range 1 number_of_frames)
  ++ [(frame_file (str number_of_frames), Photo im2)].

(** The decimal number that a string of digits spells. *)
Definition spelled (s : string) : option Z :=
  Z.of_uint <$> NilEmpty.uint_of_string s.

(** A coordinate inside an image, and one that numpy accepts as an index
    into it (negative indexes count from the end). *)
Definition inside (im : image) (rc : coord) : Prop :=
  0 <= fst rc < Z.of_nat (height im) /\ 0 <= snd rc < Z.of_nat (width im).

Definition indexable (im : image) (rc : coord) : Prop :=
  - Z.of_nat (height im) <= fst rc < Z.of_nat (height im) /\
  - Z.of_nat (width im) <= snd rc < Z.of_nat (width im).

Definition white : rgb := mkRgb 255 255 255.
Definition black : rgb := mkRgb 0 0 0.

(** A white image of the given size with black pixels at [dots]. *)
Definition dotted (w h : nat) (dots : list coord) : image :=
  mkImage w h (λ r c, if decide ((r, c) ∈ dots) then black else white).

(** Two 4 x 4 images with two foreground pixels each. *)
Definition two_dots_top : image := dotted 4 4 [(0, 0); (0, 1)].
Definition two_dots_bottom : image := dotted 4 4 [(3, 0); (3, 3)].

(** Scenario A of the specification: three foreground pixels against two. *)
Definition scenario_a_source : list coord := [(0, 0); (0, 1); (0, 2)].
Definition scenario_a_target : list coord := [(3, 0); (3, 3)].

Definition larger_set (ins outs : list coord) : list coord :=
  if len outs <=? len ins then ins else outs.
Definition smaller_set (ins outs : list coord) : list coord :=
  if len outs <=? len ins then outs else ins.
Definition larger_column (ins outs : list coord) (p : list entry) : list coord :=
  if len outs <=? len ins then map fst p else map snd p.
Definition smaller_column (ins outs : list coord) (p : list entry) : list coord :=
  if len outs <=? len ins then map snd p else map fst p.

(** A 1 x 1 image whose only pixel is white, and a 2 x 1 image. *)
Definition blank : image := dotted 1 1 [].
Definition wide : image := dotted 2 1 [(0, 0)].

(** The endpoint of an entry that a mutation moves under [rel], and the
    entry with this endpoint replaced. *)
Definition movable (rel : relationship) (e : entry) : coord :=
  match rel with
  | OneToMany | OneToOne => snd e
  | ManyToOne => fst e
  end.

Definition with_movable (rel : relationship) (e : entry) (c : coord) : entry :=
  match rel with
  | OneToMany | OneToOne => (fst e, c)
  | ManyToOne => (c, snd e)
  end.

Definition two_pairs : list entry := [((0, 0), (5, 5)); ((1, 1), (7, 7))].

(** A binary64 value that is neither a NaN nor negative (nor the
    negative zero): a zero, a finite value or an infinity of sign [+]. *)
Definition regular (x : Float.float) : bool :=
  match x with
  | S754_zero s | S754_infinity s | S754_finite s _ _ => negb s
  | S754_nan => false
  end.

(** Scenario B of the specification: a single entry, in the state in
    which [run] enters the search. *)
Definition scenario_b : optimizer :=
  Score.initial Score.sqrt_distance OneToOne [((0, 0), (5, 5))].

(** The correspondence that the builder returns for scenario A when every
    draw is 1, in the state in which [run] enters the search; and draws
    under which the first clone exchanges the sources of its entries 1 and
    2, which shortens the correspondence, and nothing else is mutated. *)
Definition three_to_two : list entry :=
  [((0, 1), (3, 0)); ((0, 2), (3, 0)); ((0, 0), (3, 3))].
Definition three_to_two_improved : list entry :=
  [((0, 1), (3, 0)); ((0, 0), (3, 0)); ((0, 2), (3, 3))].
Definition scenario_a : optimizer :=
  Score.initial Score.sqrt_distance ManyToOne three_to_two.
Definition improving_draws : rng :=
  mkRng (λ n, nth n [2 ^ 52; 0; 2] (2 ^ 52)) 0.

(** One clone as the specification words it: a copy of the current best
    with inner lists of its own, mutated, then stored. *)
Definition independent_clone_body (rel : relationship) (rate : Float.float)
    (self_pairings : list ref) (_ : Z)
    (s : store * list (list ref) * rng)
    : result (store * list (list ref) * rng) :=
  let '(h, population, g) := s in
  let '(h, new_pairings) := deepcopy h self_pairings in
  '(h, g) ← for_range 0 (len new_pairings)
              (mutate_entry rel rate new_pairings) (h, g);
  let '(h, copy) := deepcopy h new_pairings in
  Ok (h, population ++ [copy], g).

Definition independent_population (rel : relationship) (rate : Float.float)
    (population_size : Z) (pairings : list entry) (g : rng)
    : result (list (list entry) * list entry * rng) :=
  let h : store := pairings in
  let self_pairings : list ref := seq 0 (length pairings) in
  let first := deepcopy h self_pairings in
  '(h, population, g) ← for_range 1 population_size
                          (independent_clone_body rel rate self_pairings)
                          (fst first, [snd first], g);
  Ok (map (deref h) population, deref h self_pairings, g).

(** The draws: [random()] gives 0, [randint] then picks index 1, and every
    later [random()] gives 0.5. *)
Definition swap_once : rng := mkRng (λ n, nth n [0; 1] (2 ^ 52)) 0.

Definition default_rate : Float.float :=
  Float.f64_div (Float.f64_of_Z 1) (Float.f64_of_Z 100).

Definition two_pairs_swapped : list entry := [((0, 0), (7, 7)); ((1, 1), (5, 5))].

(** A correspondence between the foreground pixels of the two example
    images. *)
Definition dots_pairs : list entry := [((0, 0), (3, 0)); ((0, 1), (3, 3))].

(** [sourceColor + (i / number_of_frames) * (targetColor - sourceColor)]
    in exact arithmetic, truncated toward zero. *)
Definition exact_color (number_of_frames i start_color end_color : Z) : Z :=
  Z.quot (start_color * number_of_frames + (end_color - start_color) * i)
         number_of_frames.

(** A 2 x 1 source image, dark grey all over, and a 2 x 1 target image with
    one black pixel; both source pixels go to the black pixel. *)
Definition grey_pair : image := mkImage 2 1 (λ _ _, mkRgb 45 45 45).
Definition black_dot : image := dotted 2 1 [(0, 0)].
Definition grey_to_black : list entry := [((0, 0), (0, 0)); ((0, 1), (0, 0))].

(** Mutations that never change a correspondence of [n] entries under
    [rel] and [rate]: lines 154-163 leave the inner lists as they are,
    whatever the draws. *)
Definition inert (rel : relationship) (rate : Float.float) (n : nat) : Prop :=
  forall (i : Z) (h : store) (g : rng),
    0 <= i < Z.of_nat n ->
    exists g', mutate_entry rel rate (seq 0 n) i (h, g) = Ok (h, g').

(** * Properties *)

Ltac mstep := cbn [mbind result_bind mret result_ret fmap result_fmap].

(** ** Lists, indices and the generator *)

Lemma len_nonneg {A : Type} (l : list A) : 0 <= len l.
Proof. unfold len. lia. Qed.

Lemma randint_in_range (b : Z) (g : rng) :
  0 <= b ->
  exists r, randint 0 b g = Ok (r, snd (draw g)) /\ 0 <= r <= b.
Proof.
  intros Hb. unfold randint.
  destruct (b <? 0) eqn:E; [lia|].
  exists (0 + tape g (cursor g) mod (b - 0 + 1)). split; [reflexivity|].
  pose proof (Z.mod_pos_bound (tape g (cursor g)) (b - 0 + 1)). lia.
Qed.

Lemma pop_in_range {A : Type} (l : list A) (i : Z) :
  0 <= i < len l ->
  exists x, l !! Z.to_nat i = Some x /\ pop l i = Ok (x, delete (Z.to_nat i) l).
Proof.
  intros Hi. unfold pop, py_index.
  replace ((0 <=? i) && (i <? len l)) with true
    by (symmetry; apply andb_true_iff; lia).
  destruct (lookup_lt_is_Some_2 l (Z.to_nat i)) as [x Hx].
  { unfold len in Hi. lia. }
  exists x. rewrite Hx. auto.
Qed.

Lemma pop_past_end {A : Type} (l : list A) (i : Z) :
  len l <= i -> pop l i = Raise IndexError.
Proof.
  intros Hi. pose proof (len_nonneg l). unfold pop, py_index.
  replace ((0 <=? i) && (i <? len l)) with false
    by (symmetry; apply andb_false_iff; lia).
  replace ((- len l <=? i) && (i <? 0)) with false
    by (symmetry; apply andb_false_iff; lia).
  reflexivity.
Qed.

Lemma len_delete {A : Type} (l : list A) (n : nat) (x : A) :
  l !! n = Some x -> len (delete n l) = len l - 1.
Proof.
  intros Hx. unfold len. rewrite length_delete by eauto.
  apply lookup_lt_Some in Hx. lia.
Qed.

Lemma for_loop_app {S : Type} (body : Z -> S -> result S) (n m : nat) :
  forall (i : Z) (s : S),
    for_loop body i (n + m) s =
    s' ← for_loop body i n s; for_loop body (i + Z.of_nat n) m s'.
Proof.
  induction n as [|n IH]; intros i s; simpl.
  - f_equal. lia.
  - destruct (body i s) as [s1|e]; simpl; [|reflexivity].
    rewrite IH. replace (i + 1 + Z.of_nat n) with (i + Z.pos (Pos.of_succ_nat n)) by lia.
    reflexivity.
Qed.

(** ** The one-to-one branch *)

Module OneToOneFacts.
Import Builder.

Lemma body_past_end (i : Z) (s : st) :
  len (in_pixels s) <= i -> one_to_one_body i s = Raise IndexError.
Proof.
  intros Hi. unfold one_to_one_body. rewrite pop_past_end by lia. reflexivity.
Qed.

Lemma body_in_range (i : Z) (s : st) :
  0 <= i < len (in_pixels s) -> 0 < len (out_pixels s) ->
  exists s', one_to_one_body i s = Ok s' /\
    len (in_pixels s') = len (in_pixels s) - 1 /\
    len (out_pixels s') = len (out_pixels s) - 1.
Proof.
  intros Hi Ho. unfold one_to_one_body.
  destruct (pop_in_range (in_pixels s) i) as (x & Hx & ->); [lia|]. mstep.
  destruct (randint_in_range (len (out_pixels s) - 1) (gen s)) as (r & -> & Hr);
    [lia|]. mstep.
  destruct (pop_in_range (out_pixels s) r) as (y & Hy & ->); [lia|]. mstep.
  eexists; split; [reflexivity|]. simpl.
  split; eapply len_delete; eauto.
Qed.

(** From index [i], with [k] coordinates left in both pools and [k]
    iterations to go, line 100 pops past the end of [in_pixels] as soon
    as the index has overtaken the shrinking pool. *)
Lemma loop_index_error (k : nat) :
  forall (i : Z) (s : st),
    len (in_pixels s) = Z.of_nat k -> len (out_pixels s) = Z.of_nat k ->
    (1 <= k)%nat -> 0 <= i -> (0 < i \/ (2 <= k)%nat) ->
    for_loop one_to_one_body i k s = Raise IndexError.
Proof.
  induction k as [|k IH]; intros i s Hin Hout Hk Hi Hik; [lia|].
  cbn [for_loop].
  destruct (Z_lt_le_dec i (len (in_pixels s))) as [Hlt|Hge].
  - destruct (body_in_range i s) as (s' & -> & Hin' & Hout'); [lia..|].
    mstep. apply IH; lia.
  - rewrite body_past_end by lia. reflexivity.
Qed.

Lemma build_index_error (ins outs : list coord) (g : rng) :
  length ins = length outs -> (2 <= length ins)%nat ->
  build ins outs g = Raise IndexError.
Proof.
  intros Heq Hn. unfold build, get_random_pixel_mappings, relationship_of.
  replace (len ins =? len outs) with true
    by (symmetry; apply Z.eqb_eq; unfold len; lia).
  unfold for_range. rewrite Z.sub_0_r. unfold len at 1. rewrite Nat2Z.id.
  rewrite loop_index_error; simpl; unfold len; auto; lia.
Qed.

(** A single foreground pixel on each side is paired. *)
Lemma build_single (a b : coord) (g : rng) :
  build [a] [b] g = Ok ([(a, b)], snd (draw g)).
Proof.
  unfold build, get_random_pixel_mappings.
  change (relationship_of (len [a]) (len [b])) with OneToOne.
  unfold for_range. change (Z.to_nat (len [a] - 0)) with 1%nat.
  cbn [for_loop]. unfold one_to_one_body, randint, draw.
  change (pop [a] 0) with (Ok (a, @nil coord)). mstep.
  cbn [out_pixels pairings gen higher_numbers_placed app].
  change (len [b] - 1 <? 0) with false. cbv iota.
  change (len [b] - 1 - 0 + 1) with 1. rewrite Z.mod_1_r.
  reflexivity.
Qed.

End OneToOneFacts.

(** ** Counting coordinates *)

Lemma occurrences_app (c : coord) (l1 l2 : list coord) :
  occurrences c (l1 ++ l2) = (occurrences c l1 + occurrences c l2)%nat.
Proof. unfold occurrences. rewrite filter_app, length_app. reflexivity. Qed.

Lemma occurrences_absent (c : coord) (l : list coord) :
  c ∉ l -> occurrences c l = 0%nat.
Proof.
  unfold occurrences. induction l as [|x l IH]; intros Hc; [reflexivity|].
  apply not_elem_of_cons in Hc as [Hx Hl].
  rewrite filter_cons_False by congruence. auto.
Qed.

Lemma occurrences_replicate (c x : coord) (n : nat) :
  occurrences c (replicate n x) = if decide (x = c) then n else 0%nat.
Proof.
  unfold occurrences. induction n as [|n IH]; simpl.
  - destruct (decide (x = c)); reflexivity.
  - rewrite filter_cons. destruct (decide (x = c)); simpl; lia.
Qed.

Lemma occurrences_NoDup (c : coord) (l : list coord) :
  NoDup l -> c ∈ l -> occurrences c l = 1%nat.
Proof.
  induction 1 as [|x l Hx Hl IH]; intros Hc; [by apply elem_of_nil in Hc|].
  change (x :: l) with ([x] ++ l). rewrite occurrences_app.
  change [x] with (replicate 1 x). rewrite occurrences_replicate.
  apply elem_of_cons in Hc as [->|Hc].
  - rewrite decide_True by reflexivity. rewrite occurrences_absent; auto.
  - rewrite decide_False by (intros ->; contradiction). auto.
Qed.

Lemma occurrences_Permutation (c : coord) (l1 l2 : list coord) :
  l1 ≡ₚ l2 -> occurrences c l1 = occurrences c l2.
Proof. intros H. unfold occurrences. by rewrite H. Qed.

Lemma filter_all {A : Type} (P : A -> Prop) `{!∀ x, Decision (P x)} (l : list A) :
  (forall x, x ∈ l -> P x) -> filter P l = l.
Proof.
  induction l as [|x l IH]; intros Hall; [reflexivity|].
  rewrite filter_cons_True by (apply Hall; left).
  f_equal. apply IH. intros y Hy. apply Hall. by right.
Qed.

Lemma filter_none {A : Type} (P : A -> Prop) `{!∀ x, Decision (P x)} (l : list A) :
  (forall x, x ∈ l -> ¬ P x) -> filter P l = [].
Proof.
  induction l as [|x l IH]; intros Hall; [reflexivity|].
  rewrite filter_cons_False by (apply Hall; left).
  apply IH. intros y Hy. apply Hall. by right.
Qed.

(** ** The distribution of the unequal branches *)

Section Distribution.
(** [q] is [higher_number - 1], [r] is [higher_number_count]. *)
Variables q r : Z.

Lemma length_shares (p : Z) (t : nat) : length (shares q r p t) = t.
Proof. revert p. induction t; intros p; simpl; auto. Qed.

Lemma total_shares (t : nat) :
  forall p, 0 <= p ->
    total (shares q r p t) = Z.of_nat t * q + Z.max 0 (Z.min (r - p) (Z.of_nat t)).
Proof.
  induction t as [|t IH]; intros p Hp.
  - simpl. lia.
  - cbn [shares total foldr]. fold (total (shares q r (placed_after r p) t)).
    unfold share, placed_after. destruct (p <? r) eqn:E.
    + apply Z.ltb_lt in E. rewrite IH by lia. lia.
    + apply Z.ltb_ge in E. rewrite IH by lia. lia.
Qed.

Lemma shares_split (t : nat) :
  forall p, 0 <= p ->
    shares q r p t =
    replicate (Z.to_nat (Z.max 0 (Z.min (r - p) (Z.of_nat t)))) (q + 1) ++
    replicate (t - Z.to_nat (Z.max 0 (Z.min (r - p) (Z.of_nat t)))) q.
Proof.
  induction t as [|t IH]; intros p Hp.
  - simpl. replace (Z.to_nat _) with 0%nat by lia. reflexivity.
  - cbn [shares]. unfold share, placed_after. destruct (p <? r) eqn:E.
    + apply Z.ltb_lt in E. rewrite IH by lia.
      replace (Z.to_nat (Z.max 0 (Z.min (r - p) (Z.of_nat (S t)))))
        with (S (Z.to_nat (Z.max 0 (Z.min (r - (p + 1)) (Z.of_nat t))))) by lia.
      reflexivity.
    + apply Z.ltb_ge in E. rewrite IH by lia.
      replace (Z.to_nat (Z.max 0 (Z.min (r - p) (Z.of_nat (S t))))) with 0%nat by lia.
      replace (Z.to_nat (Z.max 0 (Z.min (r - p) (Z.of_nat t)))) with 0%nat by lia.
      simpl. rewrite Nat.sub_0_r. reflexivity.
Qed.

Lemma groups_absent (c : coord) (ks : list Z) (cs : list coord) :
  c ∉ cs -> c ∉ groups ks cs.
Proof.
  revert ks. induction cs as [|x cs IH]; intros ks Hc.
  - destruct ks; simpl; apply not_elem_of_nil.
  - destruct ks as [|k ks]; [apply not_elem_of_nil|]. simpl.
    apply not_elem_of_cons in Hc as [Hx Hcs].
    rewrite elem_of_app. intros [H|H].
    + apply elem_of_replicate_inv in H. congruence.
    + by apply (IH ks).
Qed.

(** In the column, a coordinate occurs as often as its share says. *)
Lemma occurrences_groups (cs : list coord) :
  NoDup cs ->
  forall (ks : list Z) (j : nat) (c : coord) (k : Z),
    cs !! j = Some c -> ks !! j = Some k ->
    occurrences c (groups ks cs) = Z.to_nat k.
Proof.
  induction 1 as [|x cs Hx Hcs IH]; intros ks j c k Hc Hk; [done|].
  destruct ks as [|k0 ks]; [done|]. cbn [groups].
  rewrite occurrences_app, occurrences_replicate.
  destruct j as [|j]; simpl in Hc, Hk.
  - injection Hc as ->. injection Hk as ->.
    rewrite decide_True by reflexivity.
    rewrite occurrences_absent by (by apply groups_absent). lia.
  - rewrite decide_False.
    + simpl. eapply IH; eauto.
    + intros ->. apply Hx. eapply list_elem_of_lookup_2; eauto.
Qed.

End Distribution.

(** ** The many-to-one branch *)

Module ManyToOneFacts.
Import Builder.

(** One draw of lines 112-114. *)
Lemma take_in_step (o : coord) (i : Z) (s : st) :
  0 < len (in_pixels s) ->
  exists (x : coord) (s' : st),
    take_in o i s = Ok s' /\
    in_pixels s ≡ₚ x :: in_pixels s' /\
    pairings s' = pairings s ++ [(x, o)] /\
    out_pixels s' = out_pixels s /\
    higher_numbers_placed s' = higher_numbers_placed s.
Proof.
  intros Hlen. unfold take_in.
  destruct (randint_in_range (len (in_pixels s) - 1) (gen s)) as (n & -> & Hn);
    [lia|]. mstep.
  destruct (pop_in_range (in_pixels s) n) as (x & Hx & ->); [lia|]. mstep.
  exists x. eexists. split; [reflexivity|]. simpl.
  split; [by apply delete_Permutation|]. auto.
Qed.

(** [k] draws take [k] distinct positions of the pool. *)
Lemma take_in_loop (o : coord) (k : nat) :
  forall (i : Z) (s : st),
    Z.of_nat k <= len (in_pixels s) ->
    exists (taken : list coord) (s' : st),
      for_loop (take_in o) i k s = Ok s' /\
      length taken = k /\
      in_pixels s ≡ₚ taken ++ in_pixels s' /\
      pairings s' = pairings s ++ map (λ x, (x, o)) taken /\
      out_pixels s' = out_pixels s /\
      higher_numbers_placed s' = higher_numbers_placed s.
Proof.
  induction k as [|k IH]; intros i s Hk.
  - exists [], s. simpl. rewrite app_nil_r. repeat split; auto.
  - cbn [for_loop].
    destruct (take_in_step o i s) as (x & s1 & -> & Hperm & Hp & Ho & Hc); [lia|].
    mstep.
    destruct (IH (i + 1) s1) as (taken & s' & -> & Hlen & Hperm' & Hp' & Ho' & Hc').
    { apply Permutation_length in Hperm. simpl in Hperm. unfold len in *. lia. }
    exists (x :: taken), s'. split; [reflexivity|].
    split; [simpl; lia|]. split.
    { rewrite Hperm, Hperm'. reflexivity. }
    split; [|split; congruence].
    rewrite Hp', Hp. simpl. rewrite <- app_assoc. reflexivity.
Qed.

(** One target coordinate: lines 109-120. *)
Lemma body_step (q r : Z) (o : coord) (rest : list coord) (i : Z) (s : st) :
  0 <= q ->
  out_pixels s = o :: rest ->
  share q r (higher_numbers_placed s) <= len (in_pixels s) ->
  exists (taken : list coord) (s' : st),
    many_to_one_body (q + 1) r i s = Ok s' /\
    length taken = Z.to_nat (share q r (higher_numbers_placed s)) /\
    in_pixels s ≡ₚ taken ++ in_pixels s' /\
    pairings s' = pairings s ++ map (λ x, (x, o)) taken /\
    out_pixels s' = rest /\
    higher_numbers_placed s' = placed_after r (higher_numbers_placed s).
Proof.
  intros Hq Hout Hshare. unfold many_to_one_body. rewrite Hout.
  change (pop (o :: rest) 0) with (Ok (o, rest)). mstep.
  cbn [higher_numbers_placed].
  unfold share, placed_after in *. unfold for_range.
  destruct (higher_numbers_placed s <? r).
  - destruct (take_in_loop o (Z.to_nat (q + 1 - 0)) 0
                (mkSt (in_pixels s) rest (pairings s)
                      (higher_numbers_placed s) (gen s)))
      as (taken & s' & -> & Hlen & Hperm & Hp & Ho & Hc); [simpl; lia|].
    mstep. exists taken, (bump s'). split; [reflexivity|].
    split; [rewrite Hlen; f_equal; lia|]. simpl in *.
    repeat split; auto. lia.
  - destruct (take_in_loop o (Z.to_nat (q + 1 - 1 - 0)) 0
                (mkSt (in_pixels s) rest (pairings s)
                      (higher_numbers_placed s) (gen s)))
      as (taken & s' & -> & Hlen & Hperm & Hp & Ho & Hc); [simpl; lia|].
    exists taken, s'. split; [reflexivity|].
    split; [rewrite Hlen; f_equal; lia|]. simpl in *.
    repeat split; auto.
Qed.

Lemma share_nonneg (q r p : Z) : 0 <= q -> 0 <= share q r p.
Proof. unfold share. destruct (p <? r); lia. Qed.

Lemma total_nonneg (q r : Z) (t : nat) :
  0 <= q -> forall p, 0 <= total (shares q r p t).
Proof.
  intros Hq. induction t as [|t IH]; intros p; simpl; [lia|].
  pose proof (share_nonneg q r p Hq). specialize (IH (placed_after r p)).
  lia.
Qed.

(** The loop of line 108 over the remaining target coordinates. *)
Lemma loop_steps (q r : Z) (rest : list coord) :
  0 <= q ->
  forall (i : Z) (s : st),
    out_pixels s = rest ->
    total (shares q r (higher_numbers_placed s) (length rest))
      <= len (in_pixels s) ->
    exists (new : list entry) (s' : st),
      for_loop (many_to_one_body (q + 1) r) i (length rest) s = Ok s' /\
      pairings s' = pairings s ++ new /\
      in_pixels s ≡ₚ map fst new ++ in_pixels s' /\
      map snd new =
        groups (shares q r (higher_numbers_placed s) (length rest)) rest.
Proof.
  intros Hq. induction rest as [|o rest IH]; intros i s Hout Htot.
  - exists [], s. simpl. rewrite app_nil_r. repeat split; auto.
  - cbn [length shares total foldr for_loop] in *.
    fold (total (shares q r (placed_after r (higher_numbers_placed s))
                   (length rest))) in Htot.
    pose proof (total_nonneg q r (length rest) Hq
                  (placed_after r (higher_numbers_placed s))) as Hnn.
    destruct (body_step q r o rest i s Hq Hout)
      as (taken & s1 & -> & Hlen & Hperm & Hp & Ho & Hc); [lia|].
    mstep.
    destruct (IH (i + 1) s1 Ho) as (new & s' & -> & Hp' & Hperm' & Hsnd).
    { rewrite Hc. apply Permutation_length in Hperm.
      rewrite length_app in Hperm. unfold len in *.
      pose proof (share_nonneg q r (higher_numbers_placed s) Hq). lia. }
    exists (map (λ x, (x, o)) taken ++ new), s'.
    split; [reflexivity|]. split.
    { rewrite Hp', Hp, <- app_assoc. reflexivity. }
    split.
    { rewrite map_app, map_map, map_id, <- app_assoc. simpl.
      rewrite Hperm, Hperm'. reflexivity. }
    rewrite map_app, map_map. simpl. rewrite Hsnd, Hc. f_equal.
    rewrite <- Hlen. clear. induction taken; simpl; congruence.
Qed.

End ManyToOneFacts.

(** ** The one-to-many branch, by symmetry *)

Module OneToManyFacts.
Import Builder.

Lemma swap_entry_involutive (l : list entry) :
  map swap_entry (map swap_entry l) = l.
Proof.
  rewrite map_map. rewrite <- (map_id l) at 2.
  apply map_ext. intros [a b]. reflexivity.
Qed.

Lemma flip_involutive (s : st) : flip (flip s) = s.
Proof.
  destruct s. unfold flip. simpl. rewrite swap_entry_involutive. reflexivity.
Qed.

Lemma for_loop_flip (b1 b2 : Z -> st -> result st) :
  (forall i s, b2 i s = flip <$> b1 i (flip s)) ->
  forall (k : nat) (i : Z) (s : st),
    for_loop b2 i k s = flip <$> for_loop b1 i k (flip s).
Proof.
  intros Hb. induction k as [|k IH]; intros i s; cbn [for_loop].
  - mstep. rewrite flip_involutive. reflexivity.
  - rewrite Hb. destruct (b1 i (flip s)) as [s1|e]; mstep; [|reflexivity].
    rewrite IH, flip_involutive. reflexivity.
Qed.

Lemma take_out_flip (c : coord) (i : Z) (s : st) :
  take_out c i s = flip <$> take_in c i (flip s).
Proof.
  unfold take_out, take_in. cbn [flip in_pixels out_pixels gen].
  destruct (randint 0 (len (out_pixels s) - 1) (gen s)) as [[n g]|e];
    mstep; [|reflexivity].
  destruct (pop (out_pixels s) n) as [[x l]|e]; mstep; [|reflexivity].
  unfold flip. simpl. rewrite map_app, swap_entry_involutive. reflexivity.
Qed.

Lemma body_flip (h c : Z) (i : Z) (s : st) :
  one_to_many_body h c i s = flip <$> many_to_one_body h c i (flip s).
Proof.
  unfold one_to_many_body, many_to_one_body.
  cbn [flip in_pixels out_pixels gen higher_numbers_placed pairings].
  destruct (pop (in_pixels s) 0) as [[x l]|e]; mstep; [|reflexivity].
  cbn [flip in_pixels out_pixels gen higher_numbers_placed pairings].
  unfold for_range.
  destruct (higher_numbers_placed s <? c).
  - rewrite (for_loop_flip (take_in x) (take_out x) (take_out_flip x)).
    unfold flip at 2. simpl.
    destruct (for_loop (take_in x) 0 (Z.to_nat (h - 0)) _) as [s1|e];
      mstep; reflexivity.
  - rewrite (for_loop_flip (take_in x) (take_out x) (take_out_flip x)).
    reflexivity.
Qed.

Lemma loop_flip (h c : Z) (k : nat) (i : Z) (s : st) :
  for_loop (one_to_many_body h c) i k s =
  flip <$> for_loop (many_to_one_body h c) i k (flip s).
Proof. apply for_loop_flip. intros. apply body_flip. Qed.

End OneToManyFacts.

(** ** The cardinality invariant of a correspondence *)

Lemma shares_lookup (q r : Z) (t j : nat) :
  0 <= r <= Z.of_nat t -> (j < t)%nat ->
  shares q r 0 t !! j = Some (if Z.of_nat j <? r then q + 1 else q).
Proof.
  intros Hr Hj. rewrite shares_split by lia.
  replace (Z.max 0 (Z.min (r - 0) (Z.of_nat t))) with r by lia.
  destruct (Z.of_nat j <? r) eqn:E.
  - apply Z.ltb_lt in E. rewrite lookup_app_l by (rewrite length_replicate; lia).
    apply lookup_replicate_2. lia.
  - apply Z.ltb_ge in E. rewrite lookup_app_r by (rewrite length_replicate; lia).
    apply lookup_replicate_2. rewrite length_replicate. lia.
Qed.

Lemma length_groups_shares (q r : Z) (cs : list coord) :
  0 <= q -> forall p,
    len (groups (shares q r p (length cs)) cs) = total (shares q r p (length cs)).
Proof.
  intros Hq. induction cs as [|c cs IH]; intros p; [reflexivity|].
  cbn [length shares groups total foldr].
  unfold len in *. rewrite length_app, length_replicate, Nat2Z.inj_add, IH.
  pose proof (ManyToOneFacts.share_nonneg q r p Hq). unfold total. lia.
Qed.

Lemma distributed_groups (larger smaller lcol : list coord) :
  NoDup larger -> NoDup smaller ->
  0 < len smaller <= len larger ->
  lcol ≡ₚ larger ->
  distributed larger smaller lcol
    (groups (shares (len larger / len smaller) (len larger mod len smaller)
               0 (length smaller)) smaller).
Proof.
  intros Hl Hs Hlen Hperm. unfold distributed.
  set (q := len larger / len smaller). set (r := len larger mod len smaller).
  assert (Hr : 0 <= r < len smaller) by (apply Z.mod_pos_bound; lia).
  assert (Hocc : forall j c, smaller !! j = Some c ->
            occurrences c (groups (shares q r 0 (length smaller)) smaller) =
            Z.to_nat (if Z.of_nat j <? r then q + 1 else q)).
  { intros j c Hc. eapply occurrences_groups; eauto.
    apply shares_lookup; [unfold len in Hr; lia|].
    by eapply lookup_lt_Some. }
  assert (Hq : 1 <= q).
  { unfold q. apply Z.div_le_lower_bound; lia. }
  split; [unfold len; by rewrite Hperm|]. split.
  { intros c Hc. rewrite (occurrences_Permutation _ _ _ Hperm).
    by apply occurrences_NoDup. }
  split.
  { intros c Hc. apply list_elem_of_lookup_1 in Hc as [j Hj].
    rewrite (Hocc j c Hj). destruct (Z.of_nat j <? r); lia. }
  rewrite <- (take_drop (Z.to_nat r) smaller) at 1.
  unfold with_multiplicity. rewrite filter_app.
  rewrite filter_all, filter_none.
  - rewrite app_nil_r. unfold len in *. rewrite length_take. lia.
  - intros c Hc. apply list_elem_of_lookup_1 in Hc as [j Hj].
    rewrite lookup_drop in Hj. rewrite (Hocc _ c Hj).
    replace (Z.of_nat (Z.to_nat r + j) <? r) with false
      by (symmetry; apply Z.ltb_ge; lia). lia.
  - intros c Hc. apply list_elem_of_lookup_1 in Hc as [j Hj].
    apply lookup_take_Some in Hj as [Hj Hlt]. rewrite (Hocc _ c Hj).
    replace (Z.of_nat j <? r) with true by (symmetry; apply Z.ltb_lt; lia).
    reflexivity.
Qed.

(** ** Results of the builder *)

Module BuilderFacts.
Import Builder.

Lemma many_to_one_result (ins outs : list coord) (g : rng) :
  0 < len outs <= len ins ->
  exists (p : list entry) (g' : rng),
    get_random_pixel_mappings ManyToOne (len ins) (len outs) ins outs g
      = Ok (p, g') /\
    map fst p ≡ₚ ins /\
    map snd p = groups (shares (len ins / len outs) (len ins mod len outs)
                          0 (length outs)) outs.
Proof.
  intros Hlen. unfold get_random_pixel_mappings, np_floordiv, np_mod.
  destruct (len outs =? 0) eqn:E; [apply Z.eqb_eq in E; lia|]. clear E.
  set (q := len ins / len outs). set (r := len ins mod len outs).
  assert (Hr : 0 <= r < len outs) by (apply Z.mod_pos_bound; lia).
  assert (Hq : 0 <= q) by (apply Z.div_pos; lia).
  assert (Hn : len ins = len outs * q + r) by (apply Z.div_mod; lia).
  assert (Htot : total (shares q r 0 (length outs)) = len ins).
  { rewrite total_shares by lia. unfold len in *. lia. }
  unfold for_range. rewrite Z.sub_0_r.
  replace (Z.to_nat (len outs)) with (length outs) by (unfold len; lia).
  fold q r.
  destruct (ManyToOneFacts.loop_steps q r outs Hq 0 (mkSt ins outs [] 0 g))
    as (new & s' & -> & Hp & Hperm & Hsnd); [reflexivity|simpl; lia|].
  mstep. simpl in Hp, Hperm, Hsnd. rewrite Hp.
  exists new, (gen s'). split; [reflexivity|]. split; [|exact Hsnd].
  assert (Hlen' : len (map snd new) = len ins).
  { rewrite Hsnd, length_groups_shares by lia. exact Htot. }
  apply Permutation_length in Hperm as Hl.
  unfold len in Hlen'. rewrite length_app, !length_map in *.
  destruct (in_pixels s'); [|simpl in Hl; lia].
  rewrite app_nil_r in Hperm. by symmetry.
Qed.

(** The one-to-many branch is the many-to-one branch on the exchanged
    images, its entries turned round. *)
Lemma one_to_many_mirror (c1 c2 : Z) (ins outs : list coord) (g : rng) :
  get_random_pixel_mappings OneToMany c1 c2 ins outs g =
  (λ pg, (map swap_entry (fst pg), snd pg)) <$>
    get_random_pixel_mappings ManyToOne c2 c1 outs ins g.
Proof.
  unfold get_random_pixel_mappings, for_range.
  rewrite OneToManyFacts.loop_flip. unfold flip at 2. simpl.
  destruct (for_loop _ 0 _ _) as [s|e]; reflexivity.
Qed.

Lemma one_to_many_result (ins outs : list coord) (g : rng) :
  0 < len ins <= len outs ->
  exists (p : list entry) (g' : rng),
    get_random_pixel_mappings OneToMany (len ins) (len outs) ins outs g
      = Ok (p, g') /\
    map snd p ≡ₚ outs /\
    map fst p = groups (shares (len outs / len ins) (len outs mod len ins)
                          0 (length ins)) ins.
Proof.
  intros Hlen. rewrite one_to_many_mirror.
  destruct (many_to_one_result outs ins g Hlen) as (p & g' & -> & Hfst & Hsnd).
  mstep. exists (map swap_entry p), g'.
  split; [reflexivity|]. rewrite !map_map. simpl. auto.
Qed.

(** What [build] returns, by the relationship of the two counts. *)
Lemma build_unequal (ins outs : list coord) (g : rng) :
  NoDup ins -> NoDup outs -> 0 < len ins -> 0 < len outs ->
  len ins <> len outs ->
  exists (p : list entry) (g' : rng),
    build ins outs g = Ok (p, g') /\
    len p = Z.max (len ins) (len outs) /\
    cardinality_invariant ins outs p.
Proof.
  intros Hi Ho Hin Hout Hne. unfold build, relationship_of, cardinality_invariant.
  destruct (len ins =? len outs) eqn:E; [apply Z.eqb_eq in E; lia|]. clear E.
  destruct (len ins >? len outs) eqn:E.
  - assert (len outs < len ins) by lia. clear E.
    destruct (many_to_one_result ins outs g) as (p & g' & -> & Hfst & Hsnd); [lia|].
    exists p, g'. split; [reflexivity|].
    replace (len outs <=? len ins) with true by (symmetry; apply Z.leb_le; lia).
    split.
    + apply Permutation_length in Hfst. rewrite length_map in Hfst.
      unfold len in *. lia.
    + rewrite Hsnd. apply distributed_groups; auto. lia.
  - assert (len ins < len outs) by lia. clear E.
    destruct (one_to_many_result ins outs g) as (p & g' & -> & Hsnd & Hfst); [lia|].
    exists p, g'. split; [reflexivity|].
    replace (len outs <=? len ins) with false by (symmetry; apply Z.leb_gt; lia).
    split.
    + apply Permutation_length in Hsnd. rewrite length_map in Hsnd.
      unfold len in *. lia.
    + rewrite Hfst. apply distributed_groups; auto. lia.
Qed.

Lemma build_equal (ins outs : list coord) (g : rng) (p : list entry) (g' : rng) :
  len ins = len outs -> 0 < len ins ->
  build ins outs g = Ok (p, g') ->
  len p = Z.max (len ins) (len outs) /\ cardinality_invariant ins outs p.
Proof.
  intros Heq Hpos Hb.
  destruct (le_lt_dec 2 (length ins)) as [H2|H1].
  { rewrite OneToOneFacts.build_index_error in Hb; [discriminate| |lia].
    unfold len in Heq. lia. }
  destruct ins as [|a [|? ?]]; [unfold len in Hpos; simpl in *; lia| |simpl in H1; lia].
  destruct outs as [|b [|? ?]]; try (unfold len in Heq; simpl in Heq; lia).
  rewrite OneToOneFacts.build_single in Hb. injection Hb as <- <-.
  split; [reflexivity|]. unfold cardinality_invariant.
  change (len [b] <=? len [a]) with true. cbv iota.
  apply (distributed_groups [a] [b] [a]).
  - apply NoDup_singleton.
  - apply NoDup_singleton.
  - unfold len; simpl; lia.
  - reflexivity.
Qed.

End BuilderFacts.

(** ** Classification *)

Lemma NoDup_cells (h w : nat) : NoDup (cells h w).
Proof.
  unfold cells. apply NoDup_bind.
  - intros r1 r2 rc _ _ H1 H2.
    apply list_elem_of_bind in H1 as (c1 & H1 & _).
    apply list_elem_of_bind in H2 as (c2 & H2 & _).
    apply list_elem_of_singleton in H1, H2. subst rc.
    injection H2 as H2 _. lia.
  - intros r _. apply NoDup_bind.
    + intros c1 c2 rc _ _ H1 H2.
      apply list_elem_of_singleton in H1, H2. subst rc.
      injection H2 as H2. lia.
    + intros c _. apply NoDup_singleton.
    + apply NoDup_seq.
  - apply NoDup_seq.
Qed.

Lemma NoDup_argwhere (h w : nat) (mask : Z -> Z -> bool) :
  NoDup (argwhere h w mask).
Proof. apply NoDup_filter, NoDup_cells. Qed.

(** [np.sum] counts what [np.argwhere] lists. *)
Lemma len_argwhere (h w : nat) (mask : Z -> Z -> bool) :
  len (argwhere h w mask) = np_sum h w mask.
Proof.
  unfold argwhere, np_sum, len. generalize (cells h w).
  induction l as [|rc l IH]; [reflexivity|].
  rewrite filter_cons, fmap_cons. cbn [foldr].
  destruct (mask (fst rc) (snd rc)) eqn:E.
  - rewrite decide_True by reflexivity. cbn [length].
    rewrite Nat2Z.inj_succ, IH. lia.
  - rewrite decide_False by discriminate. rewrite IH. lia.
Qed.

Lemma open_images_mismatch (im1 im2 : image) :
  size im1 <> size im2 -> open_images im1 im2 = Raise AssertionError.
Proof. intros H. unfold open_images. by rewrite decide_False. Qed.

Lemma open_images_same_size (im1 im2 : image) :
  size im1 = size im2 -> open_images im1 im2 = Ok (im1, im2).
Proof. intros H. unfold open_images. by rewrite decide_True. Qed.

(** With images of one size, [run] reaches the builder with the
    coordinate lists of the two masks. *)
Lemma run_to_mappings_build (white_threshold : Z) (im1 im2 : image) (g : rng) :
  size im1 = size im2 ->
  run_to_mappings white_threshold im1 im2 g =
  Builder.build
    (argwhere (height im1) (width im1) (wherecolored white_threshold im1))
    (argwhere (height im2) (width im2) (wherecolored white_threshold im2)) g.
Proof.
  intros H. unfold run_to_mappings. rewrite open_images_same_size by done.
  mstep. unfold Builder.build. rewrite !len_argwhere. reflexivity.
Qed.

(** ** The store: exchanges and copies *)

Module StoreFacts.

(** The references [0 .. n-1] denote the first [n] inner lists. *)
Lemma deref_seq (h : store) (n : nat) :
  (n <= length h)%nat -> deref h (seq 0 n) = take n h.
Proof.
  intros Hn. unfold deref. apply list_eq. intros i.
  rewrite list_lookup_fmap.
  destruct (decide (i < n)%nat) as [Hi|Hi].
  - rewrite lookup_seq_lt, lookup_take_lt by done. simpl.
    symmetry. apply list_lookup_lookup_total_lt. lia.
  - rewrite lookup_seq_ge, lookup_take_ge by lia. reflexivity.
Qed.

Lemma length_deref (h : store) (l : list ref) : length (deref h l) = length l.
Proof. unfold deref. apply length_fmap. Qed.

(** Writing an element over position [i] is, up to order, removing the
    old one and adding the new one. *)
Lemma insert_Permutation {A : Type} (l : list A) (i : nat) (y : A) :
  (i < length l)%nat -> <[i := y]> l ≡ₚ y :: delete i l.
Proof.
  intros Hi. rewrite insert_take_drop, delete_take_drop by done.
  by rewrite Permutation_middle.
Qed.

(** Exchanging the elements at [i] and [j] permutes the list. *)
Lemma exchange_Permutation {A : Type} `{!Inhabited A} (l : list A) (i j : nat) :
  (i < length l)%nat -> (j < length l)%nat ->
  <[j := l !!! i]> (<[i := l !!! j]> l) ≡ₚ l.
Proof.
  intros Hi Hj. destruct (decide (i = j)) as [->|Hne].
  - rewrite list_insert_insert_eq.
    by rewrite list_insert_id by (by apply list_lookup_lookup_total_lt).
  - set (l1 := <[i := l !!! j]> l).
    assert (Hl1 : l1 !! j = Some (l !!! j)).
    { unfold l1. rewrite list_lookup_insert_ne by done.
      by apply list_lookup_lookup_total_lt. }
    assert (Hd : delete j l1 ≡ₚ delete i l).
    { apply (inj (cons (l !!! j))).
      rewrite <- (delete_Permutation l1 j) by done.
      unfold l1. by apply insert_Permutation. }
    rewrite insert_Permutation by (unfold l1; by rewrite length_insert).
    rewrite Hd. symmetry. apply delete_Permutation.
    by apply list_lookup_lookup_total_lt.
Qed.

Lemma fst_set_target (h : store) (r : ref) (v : coord) :
  map fst (set_target h r v) = map fst h.
Proof.
  unfold set_target. change (map fst) with (fmap (M:=list) (@fst (Z*Z) (Z*Z))).
  rewrite list_fmap_insert. simpl. apply list_insert_id'.
  intros Hr. rewrite list_lookup_fmap.
  rewrite length_fmap in Hr.
  by rewrite (list_lookup_lookup_total_lt h r).
Qed.

Lemma snd_set_target (h : store) (r : ref) (v : coord) :
  map snd (set_target h r v) = <[r := v]> (map snd h).
Proof.
  unfold set_target. change (map snd) with (fmap (M:=list) (@snd (Z*Z) (Z*Z))).
  by rewrite list_fmap_insert.
Qed.

Lemma snd_lookup_total (h : store) (r : ref) :
  (r < length h)%nat -> snd (h !!! r) = map snd h !!! r.
Proof.
  intros Hr. symmetry. apply list_lookup_total_correct.
  change (map snd) with (fmap (M:=list) (@snd (Z*Z) (Z*Z))).
  rewrite list_lookup_fmap. by rewrite (list_lookup_lookup_total_lt h r).
Qed.

(** Lines 157-159 leave the source column alone and permute the target
    column. *)
Lemma swap_targets_fst (h : store) (tp me : ref) :
  map fst (swap_targets h tp me) = map fst h.
Proof. unfold swap_targets. by rewrite !fst_set_target. Qed.

Lemma swap_targets_snd (h : store) (tp me : ref) :
  (tp < length h)%nat -> (me < length h)%nat ->
  map snd (swap_targets h tp me) ≡ₚ map snd h.
Proof.
  intros Htp Hme. unfold swap_targets. rewrite !snd_set_target.
  rewrite !snd_lookup_total by done.
  apply exchange_Permutation; by rewrite length_map.
Qed.

Lemma swap_targets_self (h : store) (r : ref) : swap_targets h r r = h.
Proof.
  unfold swap_targets, set_target.
  destruct (decide (r < length h)%nat) as [Hr|Hr].
  - rewrite list_lookup_total_insert_eq by done. simpl.
    rewrite list_insert_insert_eq. apply list_insert_id.
    rewrite (list_lookup_lookup_total_lt h r) by done.
    by destruct (h !!! r).
  - rewrite (list_insert_ge h) by lia. rewrite (list_insert_ge h) by lia.
    reflexivity.
Qed.

Lemma swap_targets_length (h : store) (tp me : ref) :
  length (swap_targets h tp me) = length h.
Proof. unfold swap_targets, set_target. by rewrite !length_insert. Qed.

Lemma swap_targets_other (h : store) (tp me r : ref) :
  r <> tp -> r <> me -> swap_targets h tp me !! r = h !! r.
Proof.
  intros H1 H2. unfold swap_targets, set_target.
  by rewrite !list_lookup_insert_ne by done.
Qed.

Lemma snd_set_source (h : store) (r : ref) (v : coord) :
  map snd (set_source h r v) = map snd h.
Proof.
  unfold set_source. change (map snd) with (fmap (M:=list) (@snd (Z*Z) (Z*Z))).
  rewrite list_fmap_insert. simpl. apply list_insert_id'.
  intros Hr. rewrite list_lookup_fmap.
  rewrite length_fmap in Hr.
  by rewrite (list_lookup_lookup_total_lt h r).
Qed.

Lemma fst_set_source (h : store) (r : ref) (v : coord) :
  map fst (set_source h r v) = <[r := v]> (map fst h).
Proof.
  unfold set_source. change (map fst) with (fmap (M:=list) (@fst (Z*Z) (Z*Z))).
  by rewrite list_fmap_insert.
Qed.

Lemma fst_lookup_total (h : store) (r : ref) :
  (r < length h)%nat -> fst (h !!! r) = map fst h !!! r.
Proof.
  intros Hr. symmetry. apply list_lookup_total_correct.
  change (map fst) with (fmap (M:=list) (@fst (Z*Z) (Z*Z))).
  rewrite list_lookup_fmap. by rewrite (list_lookup_lookup_total_lt h r).
Qed.

(** Lines 161-163 leave the target column alone and permute the source
    column. *)
Lemma swap_sources_snd (h : store) (tp me : ref) :
  map snd (swap_sources h tp me) = map snd h.
Proof. unfold swap_sources. by rewrite !snd_set_source. Qed.

Lemma swap_sources_fst (h : store) (tp me : ref) :
  (tp < length h)%nat -> (me < length h)%nat ->
  map fst (swap_sources h tp me) ≡ₚ map fst h.
Proof.
  intros Htp Hme. unfold swap_sources. rewrite !fst_set_source.
  rewrite !fst_lookup_total by done.
  apply exchange_Permutation; by rewrite length_map.
Qed.

Lemma swap_sources_self (h : store) (r : ref) : swap_sources h r r = h.
Proof.
  unfold swap_sources, set_source.
  destruct (decide (r < length h)%nat) as [Hr|Hr].
  - rewrite list_lookup_total_insert_eq by done. simpl.
    rewrite list_insert_insert_eq. apply list_insert_id.
    rewrite (list_lookup_lookup_total_lt h r) by done.
    by destruct (h !!! r).
  - rewrite (list_insert_ge h) by lia. rewrite (list_insert_ge h) by lia.
    reflexivity.
Qed.

Lemma swap_movable_length (rel : relationship) (h : store) (tp me : ref) :
  length (swap_movable rel h tp me) = length h.
Proof.
  destruct rel; unfold swap_movable, swap_targets, swap_sources,
    set_target, set_source; by rewrite !length_insert.
Qed.

Lemma swap_movable_self (rel : relationship) (h : store) (r : ref) :
  swap_movable rel h r r = h.
Proof.
  destruct rel; simpl; auto using swap_targets_self, swap_sources_self.
Qed.

Lemma swap_movable_other (rel : relationship) (h : store) (tp me r : ref) :
  r <> tp -> r <> me -> swap_movable rel h tp me !! r = h !! r.
Proof.
  intros H1 H2. destruct rel; unfold swap_movable, swap_targets, swap_sources,
    set_target, set_source; by rewrite !list_lookup_insert_ne by done.
Qed.

(** An exchange among the first [n] inner lists stays among them. *)
Lemma swap_movable_take (rel : relationship) (h : store) (n tp me : nat) :
  (tp < n)%nat -> (me < n)%nat ->
  take n (swap_movable rel h tp me) = swap_movable rel (take n h) tp me.
Proof.
  intros Htp Hme.
  destruct rel; unfold swap_movable, swap_targets, swap_sources,
    set_target, set_source;
    rewrite !take_insert_lt by done;
    rewrite !lookup_total_take_lt by done;
    rewrite <- !take_insert_lt by done;
    rewrite !lookup_total_take_lt by done; reflexivity.
Qed.

Lemma swap_movable_drop (rel : relationship) (h : store) (n tp me : nat) :
  (tp < n)%nat -> (me < n)%nat ->
  drop n (swap_movable rel h tp me) = drop n h.
Proof.
  intros Htp Hme.
  destruct rel; unfold swap_movable, swap_targets, swap_sources,
    set_target, set_source; by rewrite !drop_insert_lt by done.
Qed.

End StoreFacts.

(** ** One clone of [mutate] *)

Module MutateFacts.
Import StoreFacts.

Lemma swap_movable_columns (rel : relationship) (h : store) (tp me : ref) :
  (tp < length h)%nat -> (me < length h)%nat ->
  fixed_column rel (swap_movable rel h tp me) = fixed_column rel h /\
  movable_column rel (swap_movable rel h tp me) ≡ₚ movable_column rel h.
Proof.
  intros Htp Hme. destruct rel; simpl;
    auto using swap_targets_fst, swap_targets_snd,
               swap_sources_fst, swap_sources_snd.
Qed.

Lemma reshuffled_refl (rel : relationship) (n : nat) (h : store) :
  reshuffled rel n h h.
Proof. by repeat split. Qed.

Lemma reshuffled_trans (rel : relationship) (n : nat) (h1 h2 h3 : store) :
  reshuffled rel n h1 h2 -> reshuffled rel n h2 h3 -> reshuffled rel n h1 h3.
Proof.
  intros (L1 & D1 & F1 & M1) (L2 & D2 & F2 & M2).
  repeat split; try congruence. by rewrite M2.
Qed.

Lemma reshuffled_swap (rel : relationship) (n : nat) (h : store) (tp me : ref) :
  (n <= length h)%nat -> (tp < n)%nat -> (me < n)%nat ->
  reshuffled rel n h (swap_movable rel h tp me).
Proof.
  intros Hn Htp Hme. split; [apply swap_movable_length|].
  split; [by apply swap_movable_drop|].
  rewrite swap_movable_take by done.
  apply swap_movable_columns; rewrite length_take; lia.
Qed.

Lemma getitem_seq (n : nat) (k : Z) :
  0 <= k < Z.of_nat n -> getitem (seq 0 n) k = Ok (Z.to_nat k).
Proof.
  intros Hk. unfold getitem, py_index, len. rewrite length_seq.
  replace ((0 <=? k) && (k <? Z.of_nat n)) with true
    by (symmetry; apply andb_true_iff; lia).
  rewrite lookup_seq_lt by lia. reflexivity.
Qed.

(** Lines 154-163 either leave the store alone or exchange the movable
    endpoint of entry [i] with that of an entry of the correspondence. *)
Lemma mutate_entry_step (rel : relationship) (rate : Float.float)
    (n : nat) (i : Z) (h : store) (g : rng) :
  0 <= i < Z.of_nat n ->
  exists (h' : store) (g' : rng),
    mutate_entry rel rate (seq 0 n) i (h, g) = Ok (h', g') /\
    (h' = h \/
     exists tp : ref, (tp < n)%nat /\ h' = swap_movable rel h tp (Z.to_nat i)).
Proof.
  intros Hi. unfold mutate_entry.
  destruct (random g) as [u g1]. destruct (Float.ltb u rate).
  - destruct (randint_in_range (len (seq 0 n) - 1) g1) as (k & -> & Hk).
    { unfold len. rewrite length_seq. lia. }
    mstep. unfold len in Hk. rewrite length_seq in Hk.
    rewrite !getitem_seq by lia. mstep.
    eexists _, _. split; [reflexivity|]. right.
    exists (Z.to_nat k). split; [lia|reflexivity].
  - exists h, g1. auto.
Qed.

(** Lines 153-163: the loop over the entries of one clone. *)
Lemma mutate_entries_loop (rel : relationship) (rate : Float.float) (n : nat)
    (k : nat) :
  forall (i : Z) (h : store) (g : rng),
    (n <= length h)%nat -> 0 <= i -> i + Z.of_nat k <= Z.of_nat n ->
    exists (h' : store) (g' : rng),
      for_loop (mutate_entry rel rate (seq 0 n)) i k (h, g) = Ok (h', g') /\
      reshuffled rel n h h'.
Proof.
  induction k as [|k IH]; intros i h g Hn Hi Hik.
  - exists h, g. split; [reflexivity|apply reshuffled_refl].
  - cbn [for_loop].
    destruct (mutate_entry_step rel rate n i h g) as (h1 & g1 & -> & Hstep); [lia|].
    mstep.
    assert (Hr : reshuffled rel n h h1).
    { destruct Hstep as [->|(tp & Htp & ->)]; [apply reshuffled_refl|].
      apply reshuffled_swap; lia. }
    destruct (IH (i + 1) h1 g1) as (h' & g' & -> & Hr'); [|lia|lia|].
    { destruct Hr as (-> & _). lia. }
    exists h', g'. split; [reflexivity|]. by eapply reshuffled_trans.
Qed.

End MutateFacts.

(** ** The population of one generation *)

Module PopulationFacts.
Import StoreFacts MutateFacts.

Lemma variant_refl (rel : relationship) (p : list entry) : variant rel p p.
Proof. by split. Qed.

Lemma variant_trans (rel : relationship) (p1 p2 p3 : list entry) :
  variant rel p1 p2 -> variant rel p2 p3 -> variant rel p1 p3.
Proof. intros [F1 M1] [F2 M2]. split; [congruence|by rewrite M2]. Qed.

Lemma reshuffled_variant (rel : relationship) (n : nat) (h h' : store) :
  reshuffled rel n h h' -> variant rel (take n h) (take n h').
Proof. intros (_ & _ & F & M). by split. Qed.

Lemma deref_stable (n : nat) (h h1 extra : store) (c : list ref) :
  above n h c -> length h1 = length h -> drop n h1 = drop n h ->
  deref (h1 ++ extra) c = deref h c.
Proof.
  intros Hc Hlen Hdrop. unfold deref. apply Forall_fmap_ext_1.
  eapply Forall_impl; [exact Hc|]. intros r Hr. simpl in Hr.
  rewrite lookup_total_app_l by lia.
  rewrite <- (take_drop n h1), <- (take_drop n h) at 1.
  rewrite !lookup_total_app_r by (rewrite length_take; lia).
  rewrite !length_take, Hlen, Hdrop. reflexivity.
Qed.

Lemma above_grow (n : nat) (h h' : store) (c : list ref) :
  above n h c -> (length h <= length h')%nat -> above n h' c.
Proof.
  intros Hc Hlen. eapply Forall_impl; [exact Hc|]. simpl. intros; lia.
Qed.

Lemma deref_copy (h : store) (n : nat) :
  (n <= length h)%nat ->
  deref (h ++ deref h (seq 0 n)) (seq (length h) n) = take n h.
Proof.
  intros Hn. rewrite deref_seq by done. unfold deref. apply list_eq. intros i.
  rewrite list_lookup_fmap.
  destruct (decide (i < n)%nat) as [Hi|Hi].
  - rewrite lookup_seq_lt by done. simpl.
    rewrite lookup_total_app_r by lia.
    replace (length h + i - length h)%nat with i by lia.
    symmetry. apply list_lookup_lookup_total_lt. rewrite length_take. lia.
  - rewrite lookup_seq_ge, lookup_take_ge by lia. reflexivity.
Qed.

(** Lines 152-164: one clone is what the shared inner lists hold after
    its mutations; the candidates stored before keep their contents. *)
Lemma clone_body_step (rel : relationship) (rate : Float.float) (n : nat)
    (i : Z) (h : store) (population : list (list ref)) (g : rng) :
  (n <= length h)%nat -> Forall (above n h) population ->
  exists (h' : store) (copy : list ref) (g' : rng),
    clone_body rel rate (seq 0 n) i (h, population, g)
      = Ok (h', population ++ [copy], g') /\
    (n <= length h')%nat /\
    Forall (above n h') (population ++ [copy]) /\
    map (deref h') population = map (deref h) population /\
    deref h' copy = take n h' /\
    variant rel (take n h) (take n h').
Proof.
  intros Hn Hpop. unfold clone_body, for_range.
  destruct (mutate_entries_loop rel rate n (Z.to_nat (len (seq 0 n) - 0)) 0 h g)
    as (h1 & g1 & -> & Hr); [done|lia| |].
  { unfold len. rewrite length_seq. lia. }
  mstep. unfold deepcopy. rewrite length_seq.
  destruct Hr as (Hlen & Hdrop & Hfix & Hmov).
  exists (h1 ++ deref h1 (seq 0 n)), (seq (length h1) n), g1.
  split; [reflexivity|].
  assert (Hlen' : length (h1 ++ deref h1 (seq 0 n)) = (length h + n)%nat).
  { rewrite length_app, length_deref, length_seq. lia. }
  split; [lia|]. split.
  { apply Forall_app. split.
    - eapply Forall_impl; [exact Hpop|]. intros c Hc.
      eapply above_grow; [exact Hc|lia].
    - apply Forall_singleton. apply Forall_forall. intros r Hr.
      apply elem_of_seq in Hr. lia. }
  split.
  { apply map_ext_Forall. eapply Forall_impl; [exact Hpop|]. intros c Hc.
    by apply (deref_stable n h). }
  split.
  { rewrite deref_copy by lia. rewrite take_app_le by lia. reflexivity. }
  rewrite take_app_le by lia. by split.
Qed.

(** Lines 151-164: the loop over the clones. *)
Lemma clone_loop (rel : relationship) (rate : Float.float) (n : nat) (k : nat) :
  forall (i : Z) (h : store) (population : list (list ref)) (g : rng),
    (n <= length h)%nat -> Forall (above n h) population ->
    exists (h' : store) (clones : list (list ref)) (g' : rng),
      for_loop (clone_body rel rate (seq 0 n)) i k (h, population, g)
        = Ok (h', population ++ clones, g') /\
      length clones = k /\
      (n <= length h')%nat /\
      map (deref h') population = map (deref h) population /\
      Forall (variant rel (take n h)) (map (deref h') clones) /\
      variant rel (take n h) (take n h').
Proof.
  induction k as [|k IH]; intros i h population g Hn Hpop.
  - exists h, [], g. rewrite app_nil_r.
    split; [reflexivity|]. split; [reflexivity|]. split; [done|].
    split; [reflexivity|]. split; [apply Forall_nil_2|apply variant_refl].
  - cbn [for_loop].
    destruct (clone_body_step rel rate n i h population g Hn Hpop)
      as (h1 & copy & g1 & -> & Hn1 & Hpop1 & Hold & Hcopy & Hvar).
    mstep.
    destruct (IH (i + 1) h1 (population ++ [copy]) g1 Hn1 Hpop1)
      as (h' & clones & g' & -> & Hlen & Hn' & Hold' & Hnew & Hvar').
    exists h', (copy :: clones), g'. rewrite <- app_assoc. simpl.
    split; [reflexivity|]. split; [lia|]. split; [done|].
    rewrite !map_app in Hold'. apply app_inj_1 in Hold' as [Ho1 Ho2];
      [|by rewrite !length_map].
    split; [congruence|]. split.
    + apply Forall_cons. split.
      * simpl in Ho2. injection Ho2 as ->. by rewrite Hcopy.
      * eapply Forall_impl; [exact Hnew|]. intros v Hv.
        by eapply variant_trans.
    + by eapply variant_trans.
Qed.

(** Lines 150-164.  The population is the unmutated correspondence
    followed by [population_size - 1] clones, each of which pairs the same
    coordinates. *)
Lemma build_population_result (rel : relationship) (rate : Float.float)
    (population_size : Z) (pairings : list entry) (g : rng) :
  exists (clones : list (list entry)) (current : list entry) (g' : rng),
    build_population rel rate population_size pairings g
      = Ok (pairings :: clones, current, g') /\
    length clones = Z.to_nat (population_size - 1) /\
    Forall (variant rel pairings) clones /\
    variant rel pairings current.
Proof.
  unfold build_population, for_range, deepcopy. cbn [fst snd].
  rewrite length_seq.
  set (n := length pairings).
  assert (Hcopy : deref pairings (seq 0 n) = pairings).
  { rewrite deref_seq by done. by apply take_ge. }
  rewrite Hcopy.
  destruct (clone_loop rel rate n (Z.to_nat (population_size - 1)) 1
              (pairings ++ pairings) [seq n n] g)
    as (h' & clones & g' & -> & Hlen & Hn' & Hold & Hnew & Hvar).
  { rewrite length_app. lia. }
  { apply Forall_singleton. apply Forall_forall. intros r Hr.
    apply elem_of_seq in Hr. rewrite length_app. fold n. lia. }
  mstep. unfold n in Hnew, Hvar. rewrite take_app_length in Hnew, Hvar.
  fold n in Hnew, Hvar.
  exists (map (deref h') clones), (deref h' (seq 0 n)), g'.
  split.
  { do 3 f_equal. simpl in *. injection Hold as ->.
    pose proof (deref_copy pairings n) as Hc. fold n in Hc.
    rewrite Hcopy in Hc. rewrite Hc by done. by rewrite take_ge. }
  split; [by rewrite length_map|]. split; [done|].
  by rewrite deref_seq.
Qed.

End PopulationFacts.

(** ** One generation of the optimizer *)

Section OptimizerFacts.
Context {score : Type}.
Variable score_zero : score.
Variable score_add : score -> score -> score.
Variable distance : Z -> score.
Variables score_ltb score_eqb : score -> score -> bool.

(** [sound] holds of the scores that arise, those that [get_score]
    returns; on them [==] is equality and [<] a strict total order. *)
Variable sound : score -> Prop.
Hypothesis sound_score :
  forall p, sound (get_score score_zero score_add distance p).
Hypothesis eqb_eq : forall a b,
  sound a -> sound b -> (score_eqb a b = true <-> a = b).
Hypothesis ltb_irrefl : forall a, sound a -> score_ltb a a = false.
Hypothesis ltb_trans : forall a b c,
  sound a -> sound b -> sound c ->
  score_ltb a b = true -> score_ltb b c = true -> score_ltb a c = true.
Hypothesis ltb_total : forall a b,
  sound a -> sound b ->
  score_ltb a b = false -> score_ltb b a = false -> a = b.

Local Abbreviation get_score := (get_score score_zero score_add distance).
Local Abbreviation mutate :=
  (mutate score_zero score_add distance score_ltb score_eqb).

Lemma sound_scores (l : list (list entry)) (y : score) :
  y ∈ map get_score l -> sound y.
Proof.
  induction l as [|c l IH]; simpl; intros H; [by apply elem_of_nil in H|].
  apply elem_of_cons in H as [->|H]; [apply sound_score|by apply IH].
Qed.

Lemma min_fold (l : list score) :
  forall (seen : list score) (m : score),
    (forall y, y ∈ seen ++ l -> sound y) ->
    m ∈ seen -> (forall y, y ∈ seen -> score_ltb y m = false) ->
    let m' := foldl (λ m y, if score_ltb y m then y else m) m l in
    m' ∈ seen ++ l /\ (forall y, y ∈ seen ++ l -> score_ltb y m' = false).
Proof.
  induction l as [|x l IH]; intros seen m Hs Hm Hlow; simpl.
  - rewrite app_nil_r. auto.
  - assert (Hre : seen ++ x :: l = (seen ++ [x]) ++ l)
      by (by rewrite <- app_assoc).
    rewrite Hre in *.
    assert (Hx : sound x).
    { apply Hs. apply elem_of_app. left. apply elem_of_app. right.
      by apply list_elem_of_singleton. }
    assert (Hseen : forall y, y ∈ seen -> sound y).
    { intros y Hy. apply Hs. apply elem_of_app. left. apply elem_of_app.
      by left. }
    destruct (score_ltb x m) eqn:E.
    + apply IH; [exact Hs| |].
      * apply elem_of_app. right. by apply list_elem_of_singleton.
      * intros y Hy. apply elem_of_app in Hy as [Hy|Hy].
        -- destruct (score_ltb y x) eqn:E'; [|reflexivity].
           rewrite <- (Hlow y Hy). symmetry.
           by apply (ltb_trans y x m); auto.
        -- apply list_elem_of_singleton in Hy as ->. by apply ltb_irrefl.
    + apply IH; [exact Hs| |].
      * apply elem_of_app. by left.
      * intros y Hy. apply elem_of_app in Hy as [Hy|Hy]; [by apply Hlow|].
        by apply list_elem_of_singleton in Hy as ->.
Qed.

(** [min] returns one of the items, and none is below it. *)
Lemma py_min_lowest (x : score) (l : list score) :
  (forall y, y ∈ x :: l -> sound y) ->
  exists m, py_min score_ltb (x :: l) = Ok m /\
    m ∈ x :: l /\ (forall y, y ∈ x :: l -> score_ltb y m = false).
Proof.
  intros Hs. eexists. split; [reflexivity|].
  apply (min_fold l [x] x).
  - exact Hs.
  - by apply list_elem_of_singleton.
  - intros y Hy. apply list_elem_of_singleton in Hy as ->.
    apply ltb_irrefl, Hs. by left.
Qed.

(** [index] finds an item of the list. *)
Lemma index_found (l : list score) (v : score) :
  (forall y, y ∈ l -> sound y) ->
  v ∈ l ->
  exists k, index score_eqb l v = Ok k /\ 0 <= k < len l /\
            l !! Z.to_nat k = Some v.
Proof.
  intros Hs Hv. assert (Hsv : sound v) by (by apply Hs). revert Hs Hv.
  induction l as [|x l IH]; intros Hs Hv; [by apply elem_of_nil in Hv|].
  assert (Hx : sound x) by (apply Hs; by left).
  simpl. destruct (score_eqb x v) eqn:E.
  - apply eqb_eq in E as ->; [|done|done]. exists 0. unfold len. simpl.
    split; [reflexivity|]. split; [lia|reflexivity].
  - apply elem_of_cons in Hv as [->|Hv].
    { assert (score_eqb x x = true) by (by apply eqb_eq). congruence. }
    destruct IH as (k & -> & Hk & Hkx);
      [intros y Hy; apply Hs; by right|exact Hv|]. mstep.
    exists (Z.succ k). unfold len in *. simpl length.
    split; [reflexivity|]. split; [lia|].
    replace (Z.to_nat (Z.succ k)) with (S (Z.to_nat k)) by lia. exact Hkx.
Qed.

(** [index] returns the first position that holds the item. *)
Lemma index_first (l : list score) (v : score) (k : Z) :
  (forall y, y ∈ l -> sound y) -> sound v ->
  index score_eqb l v = Ok k ->
  0 <= k /\ l !! Z.to_nat k = Some v /\
  forall j x, (j < Z.to_nat k)%nat -> l !! j = Some x -> x <> v.
Proof.
  intros Hs Hsv. revert k Hs.
  induction l as [|x l IH]; intros k Hs; simpl; [discriminate|].
  assert (Hx : sound x) by (apply Hs; by left).
  destruct (score_eqb x v) eqn:E.
  - intros [= <-]. apply eqb_eq in E as ->; [|done|done].
    split; [lia|]. split; [reflexivity|]. intros j y Hj. simpl in Hj. lia.
  - destruct (index score_eqb l v) as [k'|e] eqn:Hi; [|discriminate].
    mstep. intros [= <-].
    destruct (IH k') as (Hk & Hv & Hfirst);
      [intros y Hy; apply Hs; by right|reflexivity|].
    split; [lia|].
    replace (Z.to_nat (Z.succ k')) with (S (Z.to_nat k')) by lia.
    split; [exact Hv|]. intros [|j] y Hj Hy.
    + injection Hy as <-. intros ->.
      assert (score_eqb v v = true) by (by apply eqb_eq). congruence.
    + apply (Hfirst j y); [lia|exact Hy].
Qed.

Lemma getitem_in_range {A : Type} (l : list A) (k : Z) (x : A) :
  0 <= k < len l -> l !! Z.to_nat k = Some x -> getitem l k = Ok x.
Proof.
  intros Hk Hx. unfold getitem, py_index.
  replace ((0 <=? k) && (k <? len l)) with true
    by (symmetry; apply andb_true_iff; lia).
  by rewrite Hx.
Qed.

(** Lines 166-178.  Whatever the previous scores, [mutate] returns; the
    correspondence it adopts is a member of the population whose score no
    member is below, and the first such member in population order; the
    recorded best score is its score, and the counters follow the
    comparisons of lines 170-176. *)
Lemma mutate_selection (s : optimizer) (g : rng) :
  exists (clones : list (list entry)) (s' : optimizer) (g' : rng) (k : nat),
    mutate s g = Ok (s', g') /\
    (exists current,
       build_population (relationship_of_self s) (mutation_rate s)
         (population_size s) (pairings s) g
       = Ok (pairings s :: clones, current, g')) /\
    length clones = Z.to_nat (population_size s - 1) /\
    Forall (variant (relationship_of_self s) (pairings s)) clones /\
    (pairings s :: clones) !! k = Some (pairings s') /\
    best_score s' = get_score (pairings s') /\
    last_best_score s' = best_score s' /\
    (forall c, c ∈ pairings s :: clones ->
       score_ltb (get_score c) (best_score s') = false) /\
    (forall j c, (j < k)%nat -> (pairings s :: clones) !! j = Some c ->
       get_score c <> best_score s') /\
    generation_count s' = generation_count s + 1 /\
    same_score_count s' =
      (if score_eqb (best_score s') (last_best_score s)
       then same_score_count s + 1
       else if score_ltb (best_score s') (last_best_score s) then 0
       else same_score_count s) /\
    converged s' =
      (if score_eqb (best_score s') (last_best_score s) &&
          (same_score_count s + 1 =? convergence_threshold s)
       then true else converged s) /\
    relationship_of_self s' = relationship_of_self s /\
    population_size s' = population_size s /\
    mutation_rate s' = mutation_rate s /\
    convergence_threshold s' = convergence_threshold s.
Proof.
  unfold mutate.
  destruct (PopulationFacts.build_population_result (relationship_of_self s)
              (mutation_rate s) (population_size s) (pairings s) g)
    as (clones & current & g' & Hbuild & Hlen & Hclones & _).
  rewrite Hbuild. mstep. cbn [map].
  assert (Hs : forall y, y ∈ get_score (pairings s) :: map get_score clones ->
                         sound y)
    by (intros y Hy; by apply (sound_scores (pairings s :: clones))).
  destruct (py_min_lowest (get_score (pairings s)) (map get_score clones) Hs)
    as (m & -> & Hm & Hlow).
  mstep.
  destruct (index_found _ m Hs Hm) as (k & Hidx & Hk & _).
  rewrite Hidx. mstep.
  destruct (index_first _ _ _ Hs (Hs m Hm) Hidx) as (_ & Hx & Hfirst).
  change (get_score (pairings s) :: map get_score clones)
    with (map get_score (pairings s :: clones)) in Hx, Hk, Hfirst, Hlow.
  unfold len in Hk. rewrite length_map in Hk.
  change (map get_score) with (fmap (M:=list) get_score) in Hx, Hfirst, Hlow.
  rewrite list_lookup_fmap in Hx.
  destruct ((pairings s :: clones) !! Z.to_nat k) as [chosen|] eqn:Hchosen;
    [|discriminate].
  simpl in Hx. injection Hx as Hx.
  rewrite (getitem_in_range _ k chosen) by (unfold len; auto). mstep.
  assert (Hlow' : forall c, c ∈ pairings s :: clones ->
            score_ltb (get_score c) m = false).
  { intros c Hc. apply Hlow. by apply list_elem_of_fmap_2. }
  assert (Hfirst' : forall j c, (j < Z.to_nat k)%nat ->
            (pairings s :: clones) !! j = Some c -> get_score c <> m).
  { intros j c Hj Hc. apply (Hfirst j); [exact Hj|].
    by rewrite list_lookup_fmap, Hc. }
  destruct (score_eqb m (last_best_score s)) eqn:Eeq;
    [ destruct (same_score_count s + 1 =? convergence_threshold s) eqn:Et
    | destruct (score_ltb m (last_best_score s)) eqn:Elt ];
    (exists clones; eexists _, _, (Z.to_nat k);
     split; [reflexivity|]; cbn; rewrite ?Eeq, ?Et, ?Elt; cbn;
     split; [by exists current|];
     split; [exact Hlen|]; split; [exact Hclones|]; split; [exact Hchosen|];
     split; [symmetry; exact Hx|]; split; [reflexivity|];
     split; [exact Hlow'|]; split; [exact Hfirst'|];
     repeat split; reflexivity).
Qed.

(** Lines 148-178.  From a state whose recorded score is the score of its
    correspondence: the candidate that [mutate] adopts does not score
    above the previous best, and the bookkeeping follows the comparison
    of its score with the previous best. *)
Lemma mutate_result (s : optimizer) (g : rng) :
  last_best_score s = get_score (pairings s) ->
  exists (s' : optimizer) (g' : rng),
    mutate s g = Ok (s', g') /\
    (score_ltb (best_score s') (last_best_score s) = true \/
     best_score s' = last_best_score s) /\
    same_score_count s' =
      (if score_eqb (best_score s') (last_best_score s)
       then same_score_count s + 1 else 0) /\
    converged s' =
      (if score_eqb (best_score s') (last_best_score s) &&
          (same_score_count s + 1 =? convergence_threshold s)
       then true else converged s) /\
    generation_count s' = generation_count s + 1 /\
    best_score s' = get_score (pairings s') /\
    last_best_score s' = best_score s' /\
    variant (relationship_of_self s) (pairings s) (pairings s') /\
    relationship_of_self s' = relationship_of_self s /\
    population_size s' = population_size s /\
    mutation_rate s' = mutation_rate s /\
    convergence_threshold s' = convergence_threshold s.
Proof.
  intros Hinv.
  destruct (mutate_selection s g)
    as (clones & s' & g' & k & Hm & _ & _ & Hclones & Hk & Hbest & Hlast
        & Hlow & _ & Hgen & Hcount & Hconv & Hrel & Hps & Hrate & Hthr).
  assert (Hsb : sound (best_score s')) by (rewrite Hbest; apply sound_score).
  assert (Hsl : sound (last_best_score s)) by (rewrite Hinv; apply sound_score).
  assert (Hle : score_ltb (best_score s') (last_best_score s) = true \/
                best_score s' = last_best_score s).
  { destruct (score_ltb (best_score s') (last_best_score s)) eqn:E;
      [by left|right].
    apply ltb_total; [done|done|done|]. rewrite Hinv. apply Hlow. by left. }
  assert (Hvar : variant (relationship_of_self s) (pairings s) (pairings s')).
  { apply list_elem_of_lookup_2 in Hk.
    apply elem_of_cons in Hk as [->|Hc].
    - apply PopulationFacts.variant_refl.
    - by eapply Forall_forall in Hclones. }
  exists s', g'. split; [exact Hm|]. split; [exact Hle|]. split.
  { rewrite Hcount.
    destruct (score_eqb (best_score s') (last_best_score s)) eqn:Eeq;
      [reflexivity|].
    destruct Hle as [->|Heq]; [reflexivity|].
    apply eqb_eq in Heq; [congruence|done|done]. }
  auto 12.
Qed.

End OptimizerFacts.

(** ** The binary64 scores

    The scores that [get_score] returns are regular: sums of square roots
    of non-negative integers, never a NaN and never negative, provided
    that [distance] takes no such value on a non-negative integer.  On regular
    values [==] is equality and [<] a strict total order. *)

Module ScoreFacts.

Lemma shr_1_nonneg (mrs : shr_record) :
  0 <= shr_m mrs -> 0 <= shr_m (shr_1 mrs).
Proof.
  destruct mrs as [m r s]. simpl.
  destruct m as [|[p|p|]|p]; simpl; lia.
Qed.

Lemma iter_shr_1_nonneg (p : positive) :
  forall mrs, 0 <= shr_m mrs -> 0 <= shr_m (SpecFloat.iter_pos shr_1 p mrs).
Proof.
  induction p as [p IH|p IH|]; intros mrs H; simpl.
  - apply IH, IH, shr_1_nonneg, H.
  - apply IH, IH, H.
  - apply shr_1_nonneg, H.
Qed.

Lemma shr_fexp_nonneg (prec emax m e : Z) (l : SpecFloat.location) :
  0 <= m -> 0 <= shr_m (fst (shr_fexp prec emax m e l)).
Proof.
  intros H. unfold shr_fexp, shr.
  assert (H0 : 0 <= shr_m (shr_record_of_loc m l)).
  { destruct l as [|[]]; exact H. }
  destruct (fexp prec emax (Zdigits2 m + e) - e); simpl; auto.
  apply iter_shr_1_nonneg, H0.
Qed.

Lemma round_nearest_even_nonneg (m : Z) (l : SpecFloat.location) :
  0 <= m -> 0 <= round_nearest_even m l.
Proof.
  intros H. destruct l as [|[]]; simpl; try lia.
  destruct (Z.even m); lia.
Qed.

(** Rounding a non-negative mantissa never gives a NaN. *)
Lemma round_aux_regular (prec emax mx ex : Z) (lx : SpecFloat.location) :
  0 <= mx -> regular (binary_round_aux prec emax false mx ex lx) = true.
Proof.
  intros H. unfold binary_round_aux.
  pose proof (shr_fexp_nonneg prec emax mx ex lx H) as H1.
  destruct (shr_fexp prec emax mx ex lx) as [mrs' e']. simpl in H1.
  pose proof (shr_fexp_nonneg prec emax
                (round_nearest_even (shr_m mrs') (loc_of_shr_record mrs'))
                e' loc_Exact
                (round_nearest_even_nonneg _ _ H1)) as H2.
  destruct (shr_fexp prec emax _ e' loc_Exact) as [mrs'' e'']. simpl in H2.
  destruct (shr_m mrs'') as [|m|m]; [reflexivity| |lia].
  destruct (e'' <=? emax - prec); reflexivity.
Qed.

Lemma round_regular (prec emax : Z) (m : positive) (e : Z) :
  regular (binary_round prec emax false m e) = true.
Proof.
  unfold binary_round.
  destruct (shl_align _ _ _) as [mz ez]. apply round_aux_regular. lia.
Qed.

Lemma normalize_regular (prec emax m e : Z) :
  0 <= m -> regular (binary_normalize prec emax m e false) = true.
Proof.
  intros H. destruct m as [|m|m]; [reflexivity| |lia].
  apply round_regular.
Qed.

Lemma add_regular (x y : Float.float) :
  regular x = true -> regular y = true -> regular (Score.add x y) = true.
Proof.
  unfold Score.add, Float.f64_add.
  destruct x as [sx|sx| |sx mx ex], y as [sy|sy| |sy my ey];
    try destruct sx; try destruct sy; simpl; try discriminate; auto.
  intros _ _. apply round_regular.
Qed.

Lemma sqrtrem_nonneg (n : Z) : 0 <= fst (Z.sqrtrem n).
Proof.
  destruct n as [|p|p]; simpl; try lia.
  destruct (Pos.sqrtrem p) as [s [|r|]]; simpl; lia.
Qed.

Lemma sqrt_regular (prec emax : Z) (x : Float.float) :
  regular x = true -> regular (SFsqrt prec emax x) = true.
Proof.
  destruct x as [sx|sx| |sx mx ex]; try destruct sx; simpl;
    try discriminate; auto.
  intros _.
  destruct (SFsqrt_core_binary prec emax (Z.pos mx) ex) as [[mz ez] lz] eqn:E.
  apply round_aux_regular.
  unfold SFsqrt_core_binary in E.
  set (m' := match _ with 0 => _ | Z.pos _ => _ | Z.neg _ => _ end) in E.
  pose proof (sqrtrem_nonneg m') as Hq.
  change Z.sqrtrem with IntDef.Z.sqrtrem in Hq.
  destruct (IntDef.Z.sqrtrem m') as [q r]. injection E as <- _ _. exact Hq.
Qed.

(** The correctly rounded square root of a non-negative integer is
    regular. *)
Lemma sqrt_distance_regular (z : Z) :
  0 <= z -> regular (Score.sqrt_distance z) = true.
Proof.
  intros H. unfold Score.sqrt_distance. apply sqrt_regular.
  by apply normalize_regular.
Qed.

(** Every score is regular when [distance] takes regular values:
    [delta_x**2 + delta_y**2] is not negative. *)
Lemma regular_score (distance : Z -> Float.float)
    (Hd : forall z, 0 <= z -> regular (distance z) = true) (p : list entry) :
  regular (Score.get_score distance p) = true.
Proof.
  unfold Score.get_score, get_score.
  assert (H : regular Score.zero = true) by reflexivity.
  revert H. generalize Score.zero.
  induction p as [|pair p IH]; intros acc Hacc; simpl; [exact Hacc|].
  apply IH. apply add_regular; [exact Hacc|].
  apply Hd. rewrite !Z.pow_2_r.
  pose proof (Z.square_nonneg (fst (snd pair) - fst (fst pair))).
  pose proof (Z.square_nonneg (snd (snd pair) - snd (fst pair))). lia.
Qed.

Lemma compare_cases (a b : Float.float) :
  regular a = true -> regular b = true ->
  (SFcompare a b = Some Lt /\ SFcompare b a = Some Gt) \/
  (SFcompare a b = Some Gt /\ SFcompare b a = Some Lt) \/
  (SFcompare a b = Some Eq /\ a = b).
Proof.
  destruct a as [sa|sa| |sa ma ea], b as [sb|sb| |sb mb eb];
    try destruct sa; try destruct sb; simpl; try discriminate;
    intros _ _; auto.
  change (PosDef.Pos.compare_cont Eq ma mb) with (Pos.compare ma mb).
  change (PosDef.Pos.compare_cont Eq mb ma) with (Pos.compare mb ma).
  rewrite (Z.compare_antisym ea eb), (Pos.compare_antisym ma mb).
  destruct (Z.compare_spec ea eb) as [->|H|H]; simpl; auto.
  destruct (Pos.compare_spec ma mb) as [->|H|H]; simpl; auto.
Qed.

(** On regular values [==] is equality. *)
Lemma regular_eqb_eq (a b : Float.float) :
  regular a = true -> regular b = true ->
  (Score.eqb a b = true <-> a = b).
Proof.
  intros Ha Hb. unfold Score.eqb, SFeqb.
  destruct (compare_cases a b Ha Hb) as [[H1 H2]|[[H1 H2]|[H1 H]]];
    rewrite H1; [| |tauto];
    (split; [discriminate|]; intros ->; rewrite H1 in H2; discriminate).
Qed.

(** On regular values [<] is a strict total order. *)
Lemma regular_ltb_irrefl (a : Float.float) :
  regular a = true -> Score.ltb a a = false.
Proof.
  intros Ha. unfold Score.ltb, SFltb.
  destruct (compare_cases a a Ha Ha) as [[H1 H2]|[[H1 H2]|[H1 _]]];
    rewrite H1 in *; try discriminate; reflexivity.
Qed.

Lemma regular_ltb_total (a b : Float.float) :
  regular a = true -> regular b = true ->
  Score.ltb a b = false -> Score.ltb b a = false -> a = b.
Proof.
  intros Ha Hb. unfold Score.ltb, SFltb.
  destruct (compare_cases a b Ha Hb) as [[H1 H2]|[[H1 H2]|[H1 H]]];
    rewrite ?H1, ?H2; try discriminate; auto.
Qed.

Lemma regular_ltb_trans (a b c : Float.float) :
  regular a = true -> regular b = true -> regular c = true ->
  Score.ltb a b = true -> Score.ltb b c = true -> Score.ltb a c = true.
Proof.
  unfold Score.ltb, SFltb.
  destruct a as [sa|sa| |sa ma ea], b as [sb|sb| |sb mb eb],
           c as [sc|sc| |sc mc ec];
    try destruct sa; try destruct sb; try destruct sc; simpl;
    try discriminate; intros _ _ _; auto;
    repeat match goal with
    | |- context [PosDef.Pos.compare_cont Eq ?x ?y] =>
        change (PosDef.Pos.compare_cont Eq x y) with (Pos.compare x y)
    end;
    repeat match goal with
    | |- context [Z.compare ?x ?y] => destruct (Z.compare_spec x y)
    end;
    repeat match goal with
    | |- context [Pos.compare ?x ?y] => destruct (Pos.compare_spec x y)
    end;
    try discriminate; auto; lia.
Qed.

(** [<] and [==] exclude each other on regular values. *)
Lemma regular_ltb_eqb (a b : Float.float) :
  regular a = true -> regular b = true ->
  Score.ltb a b = true -> Score.eqb a b = false.
Proof.
  intros Ha Hb. unfold Score.ltb, Score.eqb, SFltb, SFeqb.
  destruct (SFcompare a b) as [[]|]; try discriminate; reflexivity.
Qed.

End ScoreFacts.

(** One generation on the scores of the code. *)
Lemma score_mutate_selection (distance : Z -> Float.float)
    (Hd : forall z, 0 <= z -> regular (distance z) = true)
    (s : optimizer) (g : rng) :
  exists (clones : list (list entry)) (s' : optimizer) (g' : rng) (k : nat),
    Score.mutate distance s g = Ok (s', g') /\
    (exists current,
       build_population (relationship_of_self s) (mutation_rate s)
         (population_size s) (pairings s) g
       = Ok (pairings s :: clones, current, g')) /\
    length clones = Z.to_nat (population_size s - 1) /\
    Forall (variant (relationship_of_self s) (pairings s)) clones /\
    (pairings s :: clones) !! k = Some (pairings s') /\
    best_score s' = Score.get_score distance (pairings s') /\
    last_best_score s' = best_score s' /\
    (forall c, c ∈ pairings s :: clones ->
       Score.ltb (Score.get_score distance c) (best_score s') = false) /\
    (forall j c, (j < k)%nat -> (pairings s :: clones) !! j = Some c ->
       Score.get_score distance c <> best_score s') /\
    generation_count s' = generation_count s + 1 /\
    same_score_count s' =
      (if Score.eqb (best_score s') (last_best_score s)
       then same_score_count s + 1
       else if Score.ltb (best_score s') (last_best_score s) then 0
       else same_score_count s) /\
    converged s' =
      (if Score.eqb (best_score s') (last_best_score s) &&
          (same_score_count s + 1 =? convergence_threshold s)
       then true else converged s) /\
    relationship_of_self s' = relationship_of_self s /\
    population_size s' = population_size s /\
    mutation_rate s' = mutation_rate s /\
    convergence_threshold s' = convergence_threshold s.
Proof.
  exact (mutate_selection Score.zero Score.add distance Score.ltb
           Score.eqb (λ x, regular x = true) (ScoreFacts.regular_score distance Hd)
           ScoreFacts.regular_eqb_eq ScoreFacts.regular_ltb_irrefl
           ScoreFacts.regular_ltb_trans s g).
Qed.

Lemma score_mutate_result (distance : Z -> Float.float)
    (Hd : forall z, 0 <= z -> regular (distance z) = true)
    (s : optimizer) (g : rng) :
  last_best_score s = Score.get_score distance (pairings s) ->
  exists (s' : optimizer) (g' : rng),
    Score.mutate distance s g = Ok (s', g') /\
    (Score.ltb (best_score s') (last_best_score s) = true \/
     best_score s' = last_best_score s) /\
    same_score_count s' =
      (if Score.eqb (best_score s') (last_best_score s)
       then same_score_count s + 1 else 0) /\
    converged s' =
      (if Score.eqb (best_score s') (last_best_score s) &&
          (same_score_count s + 1 =? convergence_threshold s)
       then true else converged s) /\
    generation_count s' = generation_count s + 1 /\
    best_score s' = Score.get_score distance (pairings s') /\
    last_best_score s' = best_score s' /\
    variant (relationship_of_self s) (pairings s) (pairings s') /\
    relationship_of_self s' = relationship_of_self s /\
    population_size s' = population_size s /\
    mutation_rate s' = mutation_rate s /\
    convergence_threshold s' = convergence_threshold s.
Proof.
  exact (mutate_result Score.zero Score.add distance Score.ltb
           Score.eqb (λ x, regular x = true) (ScoreFacts.regular_score distance Hd)
           ScoreFacts.regular_eqb_eq ScoreFacts.regular_ltb_irrefl
           ScoreFacts.regular_ltb_trans ScoreFacts.regular_ltb_total s g).
Qed.

(** ** Frames *)

Module FrameFacts.

(** Line 224 reads the entries [0 .. len - 2]. *)
Lemma omap_prefix {A B : Type} (f : A -> B) (l : list A) (m : nat) :
  (m <= length l)%nat ->
  omap (λ j, f <$> l !! Z.to_nat j) (seqZ 0 (Z.of_nat m)) = f <$> take m l.
Proof.
  induction m as [|m IH]; intros Hm; [reflexivity|].
  rewrite seqZ_S, omap_app, IH by lia.
  destruct (lookup_lt_is_Some_2 l m) as [x Hx]; [lia|].
  rewrite (take_S_r l m x Hx), fmap_app. f_equal.
  cbn [omap list_omap]. rewrite Z.add_0_l, Nat2Z.id, Hx. reflexivity.
Qed.

Lemma drawn_points_prefix (ratio : Float.float) (im1 im2 : image)
    (pairings : list entry) :
  drawn_points ratio im1 im2 pairings =
  frame_point ratio im1 im2 <$> take (length pairings - 1) pairings.
Proof.
  unfold drawn_points, range, len.
  destruct pairings as [|e l]; [reflexivity|].
  replace (Z.of_nat (length (e :: l)) - 1 - 0)
    with (Z.of_nat (length (e :: l) - 1)) by (simpl; lia).
  apply omap_prefix. lia.
Qed.

Lemma length_drawn_points (ratio : Float.float) (im1 im2 : image)
    (pairings : list entry) :
  length (drawn_points ratio im1 im2 pairings) = (length pairings - 1)%nat.
Proof.
  rewrite drawn_points_prefix, length_fmap, length_take. lia.
Qed.

(** *** File names *)

Lemma spelled_zero_pad (n : nat) (s : string) :
  spelled (zero_pad n s) = spelled s.
Proof.
  revert s. induction n as [|n IH]; intros s; [reflexivity|].
  simpl. rewrite IH. unfold spelled. simpl.
  destruct (NilEmpty.uint_of_string s); reflexivity.
Qed.

Lemma spelled_str (k : Z) : 0 <= k -> spelled (str k) = Some k.
Proof.
  intros Hk. unfold spelled, str.
  pose proof (DecimalZ.of_to k) as Hof.
  destruct k as [|p|p]; [reflexivity| |lia].
  cbn [Z.to_int NilZero.string_of_int Z.of_int] in *.
  pose proof (DecimalPos.Unsigned.to_uint_nonnil p) as Hnil.
  replace (NilZero.string_of_uint (Pos.to_uint p))
    with (NilEmpty.string_of_uint (Pos.to_uint p))
    by (by destruct (Pos.to_uint p)).
  rewrite NilEmpty.usu. simpl. congruence.
Qed.

Lemma spelled_pad_to (n : nat) (k : Z) :
  0 <= k -> spelled (pad_to n (str k)) = Some k.
Proof. intros Hk. unfold pad_to. by rewrite spelled_zero_pad, spelled_str. Qed.

Lemma length_append (s t : string) :
  String.length (s ++ t) = (String.length s + String.length t)%nat.
Proof. induction s as [|c s IH]; simpl; [reflexivity|]. by rewrite IH. Qed.

Lemma append_cancel_r (s1 s2 t : string) :
  (s1 ++ t = s2 ++ t)%string -> s1 = s2.
Proof.
  intros H.
  assert (Hlen : String.length s1 = String.length s2).
  { apply (f_equal String.length) in H.
    rewrite !length_append in H. lia. }
  revert s2 H Hlen. induction s1 as [|c s1 IH]; intros [|c' s2] H Hlen;
    simpl in *; try discriminate; [reflexivity|].
  injection H as -> H. f_equal. apply IH; [done|lia].
Qed.

Lemma frame_file_inj (s1 s2 : string) :
  frame_file s1 = frame_file s2 -> s1 = s2.
Proof.
  unfold frame_file. intros H. simpl in H.
  injection H as H. by apply append_cancel_r in H.
Qed.

(** Frames with different numbers go to different files. *)
Lemma frame_name_inj (n k1 k2 : Z) :
  0 <= k1 -> 0 <= k2 -> frame_name n k1 = frame_name n k2 -> k1 = k2.
Proof.
  intros H1 H2 H. apply frame_file_inj in H.
  apply (f_equal spelled) in H. rewrite !spelled_pad_to in H by done.
  congruence.
Qed.

Lemma pad_to_own_length (s : string) : pad_to (String.length s) s = s.
Proof. unfold pad_to. by rewrite Nat.sub_diag. Qed.

(** *** The sequence of saved files *)

Lemma all_frames_names (n : Z) (im1 im2 : image) (ps : list entry) :
  1 <= n ->
  fst <$> all_frames n im1 im2 ps = frame_name n <$> range 0 (n + 1).
Proof.
  intros Hn. unfold all_frames, range.
  rewrite (seqZ_cons 0) by lia.
  replace (Z.pred (n + 1 - 0)) with (Z.of_nat (S (Z.to_nat (n - 1)))) by lia.
  rewrite seqZ_S.
  replace (Z.of_nat (Z.to_nat (n - 1))) with (n - 1) by lia.
  replace (Z.succ 0 + (n - 1)) with n by lia.
  rewrite !fmap_cons, !fmap_app, <- !list_fmap_compose. simpl.
  f_equal. f_equal. unfold frame_name. by rewrite pad_to_own_length.
Qed.

Lemma all_frames_length (n : Z) (im1 im2 : image) (ps : list entry) :
  length (all_frames n im1 im2 ps) = S (S (Z.to_nat (n - 1))).
Proof.
  unfold all_frames, range.
  rewrite !length_app, length_fmap, length_seqZ. simpl. lia.
Qed.

Lemma all_frames_first (n : Z) (im1 im2 : image) (ps : list entry) :
  all_frames n im1 im2 ps !! 0%nat = Some (frame_name n 0, Photo im1).
Proof. reflexivity. Qed.

Lemma all_frames_last (n : Z) (im1 im2 : image) (ps : list entry) :
  1 <= n ->
  all_frames n im1 im2 ps !! Z.to_nat n
  = Some (frame_file (str n), Photo im2).
Proof.
  intros Hn. unfold all_frames, range.
  rewrite lookup_app_r by (simpl; lia). simpl length.
  rewrite lookup_app_r by (rewrite length_fmap, length_seqZ; lia).
  rewrite length_fmap, length_seqZ.
  replace (Z.to_nat n - 1 - Z.to_nat (n - 1))%nat with 0%nat by lia.
  reflexivity.
Qed.

(** *** Indexing the images *)

Lemma np_valid_spec (n : nat) (i : Z) :
  np_valid n i = true <-> - Z.of_nat n <= i < Z.of_nat n.
Proof. unfold np_valid. rewrite andb_true_iff, Z.leb_le, Z.ltb_lt. tauto. Qed.

Lemma inside_indexable (im : image) (rc : coord) :
  inside im rc -> indexable im rc.
Proof. unfold inside, indexable. lia. Qed.

(** Line 209 (and 212) returns when every index is in bounds and raises
    [IndexError] otherwise. *)
Lemma getcolors_cases (im : image) (points : list coord) :
  (Forall (indexable im) points /\
   getcolors im points = Ok (map (λ rc, pixel im (fst rc) (snd rc)) points)) \/
  (Exists (λ rc, ~ indexable im rc) points /\
   getcolors im points = Raise IndexError).
Proof.
  unfold getcolors.
  destruct (forallb _ points) eqn:E.
  - left. split; [|reflexivity]. apply Forall_forall. intros rc Hrc.
    rewrite forallb_forall in E. apply list_elem_of_In in Hrc.
    specialize (E rc Hrc). apply andb_true_iff in E as [E1 E2].
    apply np_valid_spec in E1, E2. by split.
  - right. split; [|reflexivity].
    induction points as [|rc points IH]; [discriminate|].
    simpl in E. apply andb_false_iff in E as [E|E].
    + apply Exists_cons_hd. intros [H1 H2].
      apply andb_false_iff in E as [E|E];
        [assert (np_valid (height im) (fst rc) = true)
           by (by apply np_valid_spec)
        |assert (np_valid (width im) (snd rc) = true)
           by (by apply np_valid_spec)]; congruence.
    + apply Exists_cons_tl. by apply IH.
Qed.

Lemma getcolors_ok (im : image) (points : list coord) :
  Forall (indexable im) points ->
  getcolors im points = Ok (map (λ rc, pixel im (fst rc) (snd rc)) points).
Proof.
  intros H. destruct (getcolors_cases im points) as [[_ E]|[Hex _]]; [exact E|].
  apply Exists_exists in Hex as (rc & Hrc & Hn).
  rewrite Forall_forall in H. destruct Hn. by apply H.
Qed.

(** *** The loop over the frames *)

Lemma save_frames_ok (frame : Z -> result (string * picture))
    (f : Z -> string * picture) (numbers : list Z) :
  (forall i, frame i = Ok (f i)) ->
  forall saved, save_frames frame numbers saved
                = (saved ++ (f <$> numbers), Ok tt).
Proof.
  intros Hf. induction numbers as [|i numbers IH]; intros saved; simpl.
  - by rewrite app_nil_r.
  - rewrite Hf, IH, <- app_assoc. reflexivity.
Qed.

(** Frame [i] does not depend on [i] for what it raises. *)
Lemma intermediate_frame_cases (n : Z) (im1 im2 : image) (ps : list entry) :
  (Forall (λ e, indexable im1 (fst e) /\ indexable im2 (snd e)) ps /\
   color_deltas im1 im2 ps = Ok tt /\
   forall i, intermediate_frame n im1 im2 ps i
             = Ok (canvas_frame n im1 im2 ps i)) \/
  (Exists (λ e, ~ (indexable im1 (fst e) /\ indexable im2 (snd e))) ps /\
   forall i, intermediate_frame n im1 im2 ps i = Raise IndexError) \/
  (ps = [] /\
   (broadcasts (height im1) (height im2)
    && broadcasts (width im1) (width im2) = false) /\
   forall i, intermediate_frame n im1 im2 ps i = Raise ValueError).
Proof.
  unfold intermediate_frame.
  destruct (getcolors_cases im1 (map fst ps)) as [[H1 ->]|[H1 ->]]; mstep.
  - destruct (getcolors_cases im2 (map snd ps)) as [[H2 ->]|[H2 ->]]; mstep.
    + assert (Hall : Forall (λ e, indexable im1 (fst e) /\ indexable im2 (snd e))
                       ps).
      { apply Forall_forall. intros e He. split.
        - rewrite Forall_forall in H1. apply H1.
          apply list_elem_of_fmap. by exists e.
        - rewrite Forall_forall in H2. apply H2.
          apply list_elem_of_fmap. by exists e. }
      destruct ps as [|e ps]; simpl.
      * destruct (broadcasts (height im1) (height im2)
                  && broadcasts (width im1) (width im2)) eqn:E; mstep.
        -- left. repeat split; auto.
        -- right. right. auto.
      * left. repeat split; auto.
    + right. left. split; [|reflexivity].
      apply Exists_exists in H2 as (rc & Hrc & Hn).
      apply list_elem_of_fmap in Hrc as (e & -> & He).
      apply Exists_exists. exists e. split; [exact He|]. tauto.
  - right. left. split; [|reflexivity].
    apply Exists_exists in H1 as (rc & Hrc & Hn).
    apply list_elem_of_fmap in Hrc as (e & -> & He).
    apply Exists_exists. exists e. split; [exact He|]. tauto.
Qed.

Lemma generate_frames_all (n : Z) (im1 im2 : image) (ps : list entry) :
  (forall i, intermediate_frame n im1 im2 ps i
             = Ok (canvas_frame n im1 im2 ps i)) ->
  generate_frames n im1 im2 ps = (all_frames n im1 im2 ps, Ok tt).
Proof.
  intros Hf. unfold generate_frames.
  rewrite (save_frames_ok _ (canvas_frame n im1 im2 ps)) by exact Hf.
  unfold all_frames. by rewrite <- app_assoc.
Qed.

Lemma generate_frames_short (n : Z) (im1 im2 : image) (ps : list entry) :
  n <= 1 -> generate_frames n im1 im2 ps = (all_frames n im1 im2 ps, Ok tt).
Proof.
  intros Hn. unfold generate_frames, all_frames, range.
  replace (n - 1) with (Z.neg 1 + n) by lia.
  destruct (Z.neg 1 + n) as [|q|q] eqn:E; try lia; reflexivity.
Qed.

Lemma generate_frames_raises (n : Z) (im1 im2 : image) (ps : list entry)
    (e : exn) :
  2 <= n ->
  (forall i, intermediate_frame n im1 im2 ps i = Raise e) ->
  generate_frames n im1 im2 ps = ([(frame_name n 0, Photo im1)], Raise e).
Proof.
  intros Hn Hf. unfold generate_frames, range.
  rewrite (seqZ_cons 1) by lia. simpl. by rewrite Hf.
Qed.

End FrameFacts.

(** * The claims *)

(** ** Cardinalities of the builder's result *)

Lemma cardinality_invariant_sides (ins outs : list coord) (p : list entry) :
  cardinality_invariant ins outs p <->
  distributed (larger_set ins outs) (smaller_set ins outs)
    (larger_column ins outs p) (smaller_column ins outs p).
Proof.
  unfold cardinality_invariant, larger_set, smaller_set, larger_column,
    smaller_column. by destruct (len outs <=? len ins).
Qed.

(** C1.  The claim says that the builder succeeds for all positive counts,
    the one-to-one case included.  On two images with two foreground
    pixels each, [run] reaches the one-to-one loop, whose second iteration
    evaluates [in_pixels.pop(1)] on a one-element list: whatever the random
    draws, the builder raises [IndexError]. *)
Theorem one_to_one_two_pixels_index_error :
  forall g : rng,
    run_to_mappings 224 two_dots_top two_dots_bottom g = Raise IndexError.
Proof.
  intros g. rewrite run_to_mappings_build by reflexivity.
  replace (argwhere _ _ (wherecolored 224 two_dots_top))
    with [(0, 0); (0, 1)] by (vm_compute; reflexivity).
  replace (argwhere _ _ (wherecolored 224 two_dots_bottom))
    with [(3, 0); (3, 3)] by (vm_compute; reflexivity).
  apply OneToOneFacts.build_index_error; simpl; lia.
Qed.

(** C2.  Every correspondence that the builder returns for two duplicate-free
    foreground lists of positive length has the length of the larger list;
    every coordinate of the larger list occurs once in its column; every
    coordinate of the smaller list occurs [q] or [q + 1] times in its
    column, [q = larger div smaller], and exactly [larger mod smaller] of
    them occur [q + 1] times.  With unequal counts the builder does return a
    correspondence. *)
Theorem correspondence_cardinality (ins outs : list coord) (g : rng) :
  NoDup ins -> NoDup outs -> 0 < len ins -> 0 < len outs ->
  (len ins <> len outs ->
   exists p g', Builder.build ins outs g = Ok (p, g')) /\
  (forall p g', Builder.build ins outs g = Ok (p, g') ->
     let q := len (larger_set ins outs) / len (smaller_set ins outs) in
     let r := len (larger_set ins outs) mod len (smaller_set ins outs) in
     len p = Z.max (len ins) (len outs) /\
     (forall c, c ∈ larger_set ins outs ->
        occurrences c (larger_column ins outs p) = 1%nat) /\
     (forall c, c ∈ smaller_set ins outs ->
        Z.of_nat (occurrences c (smaller_column ins outs p)) = q \/
        Z.of_nat (occurrences c (smaller_column ins outs p)) = q + 1) /\
     len (with_multiplicity (Z.to_nat (q + 1)) (smaller_set ins outs)
            (smaller_column ins outs p)) = r).
Proof.
  intros Hi Ho Hin Hout. split.
  - intros Hne.
    destruct (BuilderFacts.build_unequal ins outs g Hi Ho Hin Hout Hne)
      as (p & g' & Hb & _). eauto.
  - intros p g' Hb.
    assert (H : len p = Z.max (len ins) (len outs) /\
                cardinality_invariant ins outs p).
    { destruct (decide (len ins = len outs)) as [Heq|Hne].
      - by eapply BuilderFacts.build_equal.
      - destruct (BuilderFacts.build_unequal ins outs g Hi Ho Hin Hout Hne)
          as (p0 & g0 & Hb0 & Hlen & Hinv).
        rewrite Hb in Hb0. injection Hb0 as <- <-. auto. }
    destruct H as [Hlen Hinv]. apply cardinality_invariant_sides in Hinv.
    destruct Hinv as (_ & H1 & H2 & H3). auto.
Qed.

Lemma correspondence_cardinality_witness :
  NoDup scenario_a_source /\ NoDup scenario_a_target /\
  0 < len scenario_a_source /\ 0 < len scenario_a_target /\
  ((len scenario_a_source <> len scenario_a_target ->
    exists p g',
      Builder.build scenario_a_source scenario_a_target (const_rng 1)
        = Ok (p, g')) /\
   (forall p g',
      Builder.build scenario_a_source scenario_a_target (const_rng 1)
        = Ok (p, g') ->
      let q := len (larger_set scenario_a_source scenario_a_target)
               / len (smaller_set scenario_a_source scenario_a_target) in
      let r := len (larger_set scenario_a_source scenario_a_target)
               mod len (smaller_set scenario_a_source scenario_a_target) in
      len p = Z.max (len scenario_a_source) (len scenario_a_target) /\
      (forall c, c ∈ larger_set scenario_a_source scenario_a_target ->
         occurrences c (larger_column scenario_a_source scenario_a_target p)
           = 1%nat) /\
      (forall c, c ∈ smaller_set scenario_a_source scenario_a_target ->
         Z.of_nat (occurrences c
           (smaller_column scenario_a_source scenario_a_target p)) = q \/
         Z.of_nat (occurrences c
           (smaller_column scenario_a_source scenario_a_target p)) = q + 1) /\
      len (with_multiplicity (Z.to_nat (q + 1))
             (smaller_set scenario_a_source scenario_a_target)
             (smaller_column scenario_a_source scenario_a_target p)) = r)).
Proof.
  assert (H1 : NoDup scenario_a_source) by compute_done.
  assert (H2 : NoDup scenario_a_target) by compute_done.
  assert (H3 : 0 < len scenario_a_source) by reflexivity.
  assert (H4 : 0 < len scenario_a_target) by reflexivity.
  repeat (split; [assumption|]).
  exact (correspondence_cardinality scenario_a_source scenario_a_target
           (const_rng 1) H1 H2 H3 H4).
Defined.

(** C10.  With positive, unequal counts the floor multiplicity that the
    taken branch computes, [higher_number - 1], is at least 1, and in the
    correspondence that the builder returns every coordinate of the
    smaller set has at least one entry. *)
Theorem floor_multiplicity_at_least_one (ins outs : list coord) (g : rng) :
  NoDup ins -> NoDup outs -> 0 < len ins -> 0 < len outs ->
  len ins <> len outs ->
  match relationship_of (len ins) (len outs) with
  | ManyToOne => 1 <= np_floordiv (len ins) (len outs) + 1 - 1
  | OneToMany => 1 <= np_floordiv (len outs) (len ins) + 1 - 1
  | OneToOne => False
  end /\
  exists p g',
    Builder.build ins outs g = Ok (p, g') /\
    forall c, c ∈ smaller_set ins outs ->
      (1 <= occurrences c (smaller_column ins outs p))%nat.
Proof.
  intros Hi Ho Hin Hout Hne. split.
  - unfold relationship_of, np_floordiv.
    destruct (len ins =? len outs) eqn:E; [apply Z.eqb_eq in E; lia|].
    destruct (len ins >? len outs) eqn:E'.
    + destruct (len outs =? 0) eqn:E0; [apply Z.eqb_eq in E0; lia|].
      assert (1 <= len ins / len outs) by (apply Z.div_le_lower_bound; lia).
      lia.
    + destruct (len ins =? 0) eqn:E0; [apply Z.eqb_eq in E0; lia|].
      apply Z.eqb_neq in E.
      assert (1 <= len outs / len ins) by (apply Z.div_le_lower_bound; lia).
      lia.
  - destruct (BuilderFacts.build_unequal ins outs g Hi Ho Hin Hout Hne)
      as (p & g' & Hb & _ & Hinv).
    exists p, g'. split; [exact Hb|].
    apply cardinality_invariant_sides in Hinv.
    destruct Hinv as (_ & _ & Hocc & _).
    intros c Hc. specialize (Hocc c Hc).
    assert (1 <= len (larger_set ins outs) / len (smaller_set ins outs)).
    { apply Z.div_le_lower_bound; unfold larger_set, smaller_set;
        destruct (len outs <=? len ins) eqn:E; lia. }
    lia.
Qed.

Lemma floor_multiplicity_at_least_one_witness :
  NoDup scenario_a_source /\ NoDup scenario_a_target /\
  0 < len scenario_a_source /\ 0 < len scenario_a_target /\
  len scenario_a_source <> len scenario_a_target /\
  (match relationship_of (len scenario_a_source) (len scenario_a_target) with
   | ManyToOne =>
       1 <= np_floordiv (len scenario_a_source) (len scenario_a_target) + 1 - 1
   | OneToMany =>
       1 <= np_floordiv (len scenario_a_target) (len scenario_a_source) + 1 - 1
   | OneToOne => False
   end /\
   exists p g',
     Builder.build scenario_a_source scenario_a_target (const_rng 0)
       = Ok (p, g') /\
     forall c, c ∈ smaller_set scenario_a_source scenario_a_target ->
       (1 <= occurrences c
               (smaller_column scenario_a_source scenario_a_target p))%nat).
Proof.
  assert (H1 : NoDup scenario_a_source) by compute_done.
  assert (H2 : NoDup scenario_a_target) by compute_done.
  assert (H3 : 0 < len scenario_a_source) by reflexivity.
  assert (H4 : 0 < len scenario_a_target) by reflexivity.
  assert (H5 : len scenario_a_source <> len scenario_a_target) by discriminate.
  repeat (split; [assumption|]).
  exact (floor_multiplicity_at_least_one scenario_a_source scenario_a_target
           (const_rng 0) H1 H2 H3 H4 H5).
Defined.

(** ** Preconditions *)

(** C6, as stated, fails: two images without any foreground pixel pass
    [open_images] and [classify_pixels], and the builder runs and returns
    the empty correspondence. *)
Lemma zero_foreground_reaches_builder :
  im1_colored_pixel_count (classify_pixels 224 blank blank) = 0 /\
  im2_colored_pixel_count (classify_pixels 224 blank blank) = 0 /\
  run_to_mappings 224 blank blank (const_rng 0) = Ok ([], const_rng 0).
Proof. repeat split; vm_compute; reflexivity. Qed.

(** C6, amended.  Images of different sizes stop [run] with the assertion
    of [open_images], before classification.  With images of one size
    nothing is checked: [classify_pixels] assigns a relationship whatever
    the counts and the builder is entered on the two coordinate lists; when
    neither image has a foreground pixel it returns the empty
    correspondence. *)
Theorem precondition_checks (white_threshold : Z) (im1 im2 : image) (g : rng) :
  (size im1 <> size im2 ->
   run_to_mappings white_threshold im1 im2 g = Raise AssertionError) /\
  (size im1 = size im2 ->
   run_to_mappings white_threshold im1 im2 g =
   Builder.build
     (argwhere (height im1) (width im1) (wherecolored white_threshold im1))
     (argwhere (height im2) (width im2) (wherecolored white_threshold im2)) g) /\
  (size im1 = size im2 ->
   im1_colored_pixel_count (classify_pixels white_threshold im1 im2) = 0 ->
   im2_colored_pixel_count (classify_pixels white_threshold im1 im2) = 0 ->
   run_to_mappings white_threshold im1 im2 g = Ok ([], g)).
Proof.
  split; [|split].
  - intros H. unfold run_to_mappings. by rewrite open_images_mismatch.
  - apply run_to_mappings_build.
  - intros H H1 H2. rewrite run_to_mappings_build by done.
    cbn in H1, H2. rewrite <- len_argwhere in H1, H2.
    destruct (argwhere _ _ (wherecolored white_threshold im1));
      [|unfold len in H1; simpl in H1; lia].
    destruct (argwhere _ _ (wherecolored white_threshold im2));
      [|unfold len in H2; simpl in H2; lia].
    destruct g. reflexivity.
Qed.

Lemma precondition_checks_witness :
  size blank <> size wide /\
  size blank = size blank /\
  im1_colored_pixel_count (classify_pixels 224 blank blank) = 0 /\
  im2_colored_pixel_count (classify_pixels 224 blank blank) = 0 /\
  run_to_mappings 224 blank wide (const_rng 0) = Raise AssertionError /\
  run_to_mappings 224 blank blank (const_rng 0) = Ok ([], const_rng 0).
Proof.
  assert (H1 : size blank <> size wide) by discriminate.
  assert (H2 : size blank = size blank) by reflexivity.
  assert (H3 : im1_colored_pixel_count (classify_pixels 224 blank blank) = 0)
    by (vm_compute; reflexivity).
  assert (H4 : im2_colored_pixel_count (classify_pixels 224 blank blank) = 0)
    by (vm_compute; reflexivity).
  repeat (split; [assumption|]). split.
  - exact (proj1 (precondition_checks 224 blank wide (const_rng 0)) H1).
  - exact (proj2 (proj2 (precondition_checks 224 blank blank (const_rng 0)))
             H2 H3 H4).
Defined.

(** ** Mutation *)

Lemma distributed_Permutation (larger smaller lcol lcol' scol scol' : list coord) :
  lcol ≡ₚ lcol' -> scol ≡ₚ scol' ->
  distributed larger smaller lcol scol -> distributed larger smaller lcol' scol'.
Proof.
  intros Hl Hs (H1 & H2 & H3 & H4). unfold distributed.
  split; [unfold len in *; by rewrite <- Hl|].
  split; [intros c Hc; rewrite <- (occurrences_Permutation c _ _ Hl); auto|].
  split; [intros c Hc; rewrite <- (occurrences_Permutation c _ _ Hs); auto|].
  rewrite <- H4. unfold with_multiplicity. f_equal. f_equal.
  apply list_filter_iff. intros c.
  by rewrite (occurrences_Permutation c _ _ Hs).
Qed.

Lemma cardinality_invariant_Permutation (ins outs : list coord)
    (p p' : list entry) :
  map fst p ≡ₚ map fst p' -> map snd p ≡ₚ map snd p' ->
  cardinality_invariant ins outs p -> cardinality_invariant ins outs p'.
Proof.
  intros Hf Hs. unfold cardinality_invariant.
  destruct (len outs <=? len ins); by apply distributed_Permutation.
Qed.

(** A variant of a correspondence satisfies the cardinality invariant as
    the correspondence does. *)
Lemma variant_cardinality_invariant (rel : relationship) (ins outs : list coord)
    (p v : list entry) :
  variant rel p v ->
  cardinality_invariant ins outs p -> cardinality_invariant ins outs v.
Proof.
  intros [Hf Hm]. apply cardinality_invariant_Permutation;
    destruct rel; simpl in *; by rewrite ?Hf, ?Hm.
Qed.

Lemma swap_movable_lookup_partner (rel : relationship) (h : store) (tp me : ref) :
  (tp < length h)%nat -> (me < length h)%nat ->
  swap_movable rel h tp me !! tp
  = Some (with_movable rel (h !!! tp) (movable rel (h !!! me))).
Proof.
  intros Htp Hme.
  destruct rel; unfold swap_movable, swap_targets, swap_sources, set_target,
    set_source, with_movable, movable;
    (destruct (decide (tp = me)) as [->|Hne];
     [ rewrite list_lookup_insert_eq by (by rewrite length_insert);
       by rewrite list_lookup_total_insert_eq by done
     | rewrite list_lookup_insert_ne by done;
       by rewrite list_lookup_insert_eq by done ]).
Qed.

Lemma swap_movable_lookup_self (rel : relationship) (h : store) (tp me : ref) :
  (tp < length h)%nat -> (me < length h)%nat ->
  swap_movable rel h tp me !! me
  = Some (with_movable rel (h !!! me) (movable rel (h !!! tp))).
Proof.
  intros Htp Hme.
  destruct rel; unfold swap_movable, swap_targets, swap_sources, set_target,
    set_source, with_movable, movable;
    rewrite list_lookup_insert_eq by (by rewrite length_insert);
    (destruct (decide (tp = me)) as [->|Hne];
     [ by rewrite list_lookup_total_insert_eq by done
     | by rewrite list_lookup_total_insert_ne by done ]).
Qed.

(** C7.  A mutation swap between the entries at [tp] (the trade partner)
    and [me] exchanges their movable endpoints -- the target under
    one-to-one and one-to-many, the source under many-to-one -- and
    changes nothing else: the other entries and the fixed column are
    unchanged, the movable column is permuted, the length and the
    cardinality invariant are kept; with [tp = me] the correspondence is
    unchanged. *)
Theorem mutation_swap_preserves_invariant (rel : relationship)
    (ins outs : list coord) (h : list entry) (tp me : nat) :
  (tp < length h)%nat -> (me < length h)%nat ->
  let h' := swap_movable rel h tp me in
  h' !! tp = Some (with_movable rel (h !!! tp) (movable rel (h !!! me))) /\
  h' !! me = Some (with_movable rel (h !!! me) (movable rel (h !!! tp))) /\
  (forall r, r <> tp -> r <> me -> h' !! r = h !! r) /\
  fixed_column rel h' = fixed_column rel h /\
  movable_column rel h' ≡ₚ movable_column rel h /\
  length h' = length h /\
  (cardinality_invariant ins outs h -> cardinality_invariant ins outs h') /\
  (tp = me -> h' = h).
Proof.
  intros Htp Hme h'. unfold h'.
  destruct (MutateFacts.swap_movable_columns rel h tp me Htp Hme) as [Hf Hm].
  split; [by apply swap_movable_lookup_partner|].
  split; [by apply swap_movable_lookup_self|].
  split; [intros r H1 H2; by apply StoreFacts.swap_movable_other|].
  split; [exact Hf|]. split; [exact Hm|].
  split; [apply StoreFacts.swap_movable_length|].
  split.
  - apply (variant_cardinality_invariant rel). by split.
  - intros ->. apply StoreFacts.swap_movable_self.
Qed.

Lemma mutation_swap_preserves_invariant_witness :
  (0 < length two_pairs)%nat /\ (1 < length two_pairs)%nat /\
  let h' := swap_movable OneToOne two_pairs 0 1 in
  h' !! 0%nat
    = Some (with_movable OneToOne (two_pairs !!! 0%nat)
              (movable OneToOne (two_pairs !!! 1%nat))) /\
  h' !! 1%nat
    = Some (with_movable OneToOne (two_pairs !!! 1%nat)
              (movable OneToOne (two_pairs !!! 0%nat))) /\
  (forall r, r <> 0%nat -> r <> 1%nat -> h' !! r = two_pairs !! r) /\
  fixed_column OneToOne h' = fixed_column OneToOne two_pairs /\
  movable_column OneToOne h' ≡ₚ movable_column OneToOne two_pairs /\
  length h' = length two_pairs /\
  (cardinality_invariant [(0, 0); (1, 1)] [(5, 5); (7, 7)] two_pairs ->
   cardinality_invariant [(0, 0); (1, 1)] [(5, 5); (7, 7)] h') /\
  (0%nat = 1%nat -> h' = two_pairs).
Proof.
  assert (H0 : (0 < length two_pairs)%nat) by (simpl; lia).
  assert (H1 : (1 < length two_pairs)%nat) by (simpl; lia).
  repeat (split; [assumption|]).
  exact (mutation_swap_preserves_invariant OneToOne [(0, 0); (1, 1)]
           [(5, 5); (7, 7)] two_pairs 0 1 H0 H1).
Defined.

(** ** The optimizer *)

(** C3.  From a state whose recorded best score is the score of its
    correspondence and that has not converged, one generation returns;
    the new best score is lower than or equal to the previous one ([==]
    holding exactly of equal scores); the stagnation counter is 0 after a
    strictly lower score and one more than before after an equal score;
    and the state is converged exactly when the counter has reached
    [convergence_threshold].  The scores are binary64, with
    [+], [<] and [==] as in the code; [distance] is any function whose
    values on non-negative integers are neither a NaN nor negative, as
    those of [x ** .5] are. *)
Theorem mutate_generation (distance : Z -> Float.float)
    (s : optimizer) (g : rng) :
  (forall z, 0 <= z -> regular (distance z) = true) ->
  last_best_score s = Score.get_score distance (pairings s) ->
  converged s = false ->
  convergence_threshold s <> 0 ->
  exists (s' : optimizer) (g' : rng),
    Score.mutate distance s g = Ok (s', g') /\
    (Score.ltb (best_score s') (last_best_score s) = true \/
     best_score s' = last_best_score s) /\
    (Score.eqb (best_score s') (last_best_score s) = true <->
     best_score s' = last_best_score s) /\
    (Score.ltb (best_score s') (last_best_score s) = true ->
     same_score_count s' = 0) /\
    (best_score s' = last_best_score s ->
     same_score_count s' = same_score_count s + 1) /\
    (converged s' = true <-> same_score_count s' = convergence_threshold s) /\
    last_best_score s' = Score.get_score distance (pairings s').
Proof.
  intros Hd Hinv Hconv Hthr.
  destruct (score_mutate_result distance Hd s g Hinv)
    as (s' & g' & Hm & Hle & Hcount & Hconv' & _ & Hbest & Hlast & _).
  assert (Hsb : regular (best_score s') = true)
    by (rewrite Hbest; apply (ScoreFacts.regular_score distance Hd)).
  assert (Hsl : regular (last_best_score s) = true)
    by (rewrite Hinv; apply (ScoreFacts.regular_score distance Hd)).
  pose proof (ScoreFacts.regular_eqb_eq _ _ Hsb Hsl) as Heq.
  exists s', g'. split; [exact Hm|]. split; [exact Hle|]. split; [exact Heq|].
  destruct (Score.eqb (best_score s') (last_best_score s)) eqn:E.
  - assert (E' : best_score s' = last_best_score s) by (by apply Heq).
    split.
    { intros Hlt. rewrite E', ScoreFacts.regular_ltb_irrefl in Hlt by done.
      discriminate. }
    split; [auto|]. split; [|congruence].
    rewrite Hconv', Hcount, Hconv. simpl.
    destruct (same_score_count s + 1 =? convergence_threshold s) eqn:E2.
    + apply Z.eqb_eq in E2. tauto.
    + apply Z.eqb_neq in E2. split; [discriminate|tauto].
  - split; [auto|]. split.
    { intros E'. apply Heq in E'. congruence. }
    split; [|congruence].
    rewrite Hconv', Hcount, Hconv. simpl. split; [discriminate|].
    intros H. congruence.
Qed.

(** The generation of the witness below, computed: the first clone
    exchanges two sources, scores strictly lower than the correspondence
    and is adopted, and the stagnation counter is reset. *)
Lemma scenario_a_generation :
  (λ sg : optimizer * rng,
     (pairings (fst sg), same_score_count (fst sg), converged (fst sg),
      Score.ltb (best_score (fst sg)) (last_best_score scenario_a)))
    <$> Score.mutate Score.sqrt_distance scenario_a improving_draws
  = Ok (three_to_two_improved, 0, false, true).
Proof. vm_compute. reflexivity. Qed.

Lemma mutate_generation_witness :
  exists (s' : optimizer) (g' : rng),
    Score.mutate Score.sqrt_distance scenario_a improving_draws = Ok (s', g') /\
    (Score.ltb (best_score s') (last_best_score scenario_a) = true \/
     best_score s' = last_best_score scenario_a) /\
    (Score.eqb (best_score s') (last_best_score scenario_a) = true <->
     best_score s' = last_best_score scenario_a) /\
    (Score.ltb (best_score s') (last_best_score scenario_a) = true ->
     same_score_count s' = 0) /\
    (best_score s' = last_best_score scenario_a ->
     same_score_count s' = same_score_count scenario_a + 1) /\
    (converged s' = true <->
     same_score_count s' = convergence_threshold scenario_a) /\
    last_best_score s' = Score.get_score Score.sqrt_distance (pairings s').
Proof.
  apply (mutate_generation Score.sqrt_distance scenario_a improving_draws).
  - exact ScoreFacts.sqrt_distance_regular.
  - reflexivity.
  - reflexivity.
  - discriminate.
Defined.

(** ** Clones *)

(** C4.  The claim says that each clone is the pre-generation best with
    only its own swaps.  With a population of three and draws under which
    only the first clone swaps (its entries 0 and 1), the second clone,
    which sampled no swap, carries the first clone's swap as well, and so
    does [self.pairings]: [list(self.pairings)] shares the inner lists.
    With copies of their own the second clone and [self.pairings] would be
    the unmutated correspondence. *)
Theorem clones_share_inner_lists :
  fst <$> build_population OneToOne default_rate 3 two_pairs swap_once
    = Ok ([two_pairs; two_pairs_swapped; two_pairs_swapped], two_pairs_swapped) /\
  fst <$> independent_population OneToOne default_rate 3 two_pairs swap_once
    = Ok ([two_pairs; two_pairs_swapped; two_pairs], two_pairs).
Proof. split; vm_compute; reflexivity. Qed.

(** ** Frames *)

(** C5.  The claim says that an intermediate frame has one point per
    entry.  The loop of line 224 runs over [range(len(start_points) - 1)]:
    the points drawn are those of all entries but the last, one fewer than
    the entries of a non-empty correspondence. *)
Theorem last_entry_is_not_drawn (ratio : Float.float) (im1 im2 : image)
    (pairings : list entry) :
  drawn_points ratio im1 im2 pairings
    = frame_point ratio im1 im2 <$> take (length pairings - 1) pairings /\
  length (drawn_points ratio im1 im2 pairings) = (length pairings - 1)%nat.
Proof.
  split; [apply FrameFacts.drawn_points_prefix|apply FrameFacts.length_drawn_points].
Qed.

(** C8.  For [number_of_frames >= 1], two images of one size and a
    correspondence between coordinates inside them (what [run] hands to
    [generate_frames]), [generate_frames] returns and has saved
    [number_of_frames + 1] files, frame [k] under the name of [k] for
    [k = 0 .. number_of_frames], all names different; the first is the
    source image as opened and the last the target image as opened. *)
Theorem frames_sequence (number_of_frames : Z) (im1 im2 : image)
    (pairings : list entry) :
  1 <= number_of_frames ->
  size im1 = size im2 ->
  Forall (λ e, inside im1 (fst e) /\ inside im2 (snd e)) pairings ->
  exists frames : list (string * picture),
    generate_frames number_of_frames im1 im2 pairings = (frames, Ok tt) /\
    length frames = Z.to_nat (number_of_frames + 1) /\
    fst <$> frames
      = frame_name number_of_frames <$> range 0 (number_of_frames + 1) /\
    NoDup (fst <$> frames) /\
    frames !! 0%nat = Some (frame_name number_of_frames 0, Photo im1) /\
    frames !! Z.to_nat number_of_frames
      = Some (frame_name number_of_frames number_of_frames, Photo im2).
Proof.
  intros Hn Hsize Hin.
  exists (all_frames number_of_frames im1 im2 pairings). split.
  { apply FrameFacts.generate_frames_all.
    destruct (FrameFacts.intermediate_frame_cases number_of_frames im1 im2
                pairings) as [(_ & _ & H)|[(Hex & _)|(_ & Hb & _)]]; [exact H| |].
    - apply Exists_exists in Hex as (e & He & Hne).
      rewrite Forall_forall in Hin. destruct (Hin e He) as [H1 H2].
      destruct Hne. split; by apply FrameFacts.inside_indexable.
    - injection Hsize as Hw Hh. rewrite Hw, Hh in Hb. unfold broadcasts in Hb.
      rewrite !Nat.eqb_refl in Hb. discriminate. }
  split; [rewrite FrameFacts.all_frames_length; lia|].
  split; [by apply FrameFacts.all_frames_names|].
  split.
  { rewrite FrameFacts.all_frames_names by done.
    apply NoDup_fmap_2_strong; [|apply NoDup_seqZ].
    intros k1 k2 H1 H2. unfold range in *.
    apply elem_of_seqZ in H1, H2. apply FrameFacts.frame_name_inj; lia. }
  split; [apply FrameFacts.all_frames_first|].
  rewrite FrameFacts.all_frames_last by done.
  unfold frame_name. by rewrite FrameFacts.pad_to_own_length.
Qed.

Lemma frames_sequence_witness :
  exists frames : list (string * picture),
    generate_frames 60 two_dots_top two_dots_bottom dots_pairs
      = (frames, Ok tt) /\
    length frames = Z.to_nat (60 + 1) /\
    fst <$> frames = frame_name 60 <$> range 0 (60 + 1) /\
    NoDup (fst <$> frames) /\
    frames !! 0%nat = Some (frame_name 60 0, Photo two_dots_top) /\
    frames !! Z.to_nat 60 = Some (frame_name 60 60, Photo two_dots_bottom).
Proof.
  apply (frames_sequence 60 two_dots_top two_dots_bottom dots_pairs).
  - lia.
  - reflexivity.
  - repeat constructor; simpl; lia.
Defined.

(** ** Colours *)

(** C9, as stated, fails.  In frame 32 of 60 a channel going from 45 to 0
    has the exact value 45 - 24 = 21; the frame draws it with 20, because
    the single-precision product [-45 * float32(32/60)] rounds to a value
    just below -24. *)
Lemma colour_below_exact_value :
  snd (generate_frames 60 grey_pair black_dot grey_to_black) = Ok tt /\
  snd <$> fst (generate_frames 60 grey_pair black_dot grey_to_black) !! 32%nat
    = Some (Canvas (2%nat, 1%nat)
              [((S754_zero false, S754_zero false), (20, 20, 20))]) /\
  exact_color 60 32 45 0 = 21.
Proof. repeat split; vm_compute; reflexivity. Qed.

(** C9, amended.  In an intermediate frame, point [j] is drawn for entry
    [j]; each of its channels is computed from that channel of the source
    pixel in the first image and of the target pixel in the second image
    alone, as the single-precision value of
    [start + (end - start) * float32(i / number_of_frames)] with the
    fraction dropped. *)
Theorem drawn_point_colour (number_of_frames i : Z) (im1 im2 : image)
    (pairings : list entry) (j : nat) (point : location * colour) :
  drawn_points (frame_ratio number_of_frames i) im1 im2 pairings !! j
    = Some point ->
  exists (start_point end_point : coord),
    pairings !! j = Some (start_point, end_point) /\
    let w := Float.f32_of_f64 (frame_ratio number_of_frames i) in
    let channel (start_color end_color : Z) : Z :=
      Float.truncate
        (SFadd 24 128 (Float.f32_of_Z start_color)
           (SFmul 24 128
              (SFsub 24 128 (Float.f32_of_Z end_color)
                            (Float.f32_of_Z start_color)) w)) in
    let start_color := pixel im1 (fst start_point) (snd start_point) in
    let end_color := pixel im2 (fst end_point) (snd end_point) in
    snd point = (channel (red start_color) (red end_color),
                 channel (green start_color) (green end_color),
                 channel (blue start_color) (blue end_color)).
Proof.
  intros H. rewrite FrameFacts.drawn_points_prefix in H.
  rewrite list_lookup_fmap in H.
  destruct (take (length pairings - 1) pairings !! j) as [[sp ep]|] eqn:E;
    [|discriminate].
  injection H as <-. apply lookup_take_Some in E as [E _].
  exists sp, ep. split; [exact E|]. reflexivity.
Qed.

Lemma drawn_point_colour_witness :
  drawn_points (frame_ratio 60 32) grey_pair black_dot grey_to_black !! 0%nat
    = Some ((S754_zero false, S754_zero false), (20, 20, 20)) /\
  exists (start_point end_point : coord),
    grey_to_black !! 0%nat = Some (start_point, end_point) /\
    let w := Float.f32_of_f64 (frame_ratio 60 32) in
    let channel (start_color end_color : Z) : Z :=
      Float.truncate
        (SFadd 24 128 (Float.f32_of_Z start_color)
           (SFmul 24 128
              (SFsub 24 128 (Float.f32_of_Z end_color)
                            (Float.f32_of_Z start_color)) w)) in
    let start_color := pixel grey_pair (fst start_point) (snd start_point) in
    let end_color := pixel black_dot (fst end_point) (snd end_point) in
    snd ((S754_zero false, S754_zero false), (20, 20, 20))
      = (channel (red start_color) (red end_color),
         channel (green start_color) (green end_color),
         channel (blue start_color) (blue end_color)).
Proof.
  assert (H : drawn_points (frame_ratio 60 32) grey_pair black_dot grey_to_black
                !! 0%nat
              = Some ((S754_zero false, S754_zero false), (20, 20, 20)))
    by (vm_compute; reflexivity).
  split; [exact H|].
  exact (drawn_point_colour 60 32 grey_pair black_dot grey_to_black 0
           ((S754_zero false, S754_zero false), (20, 20, 20)) H).
Defined.

(** * Further properties *)

(** ** Swaps *)

Lemma with_movable_twice (rel : relationship) (e : entry) (c c' : coord) :
  with_movable rel (with_movable rel e c) c' = with_movable rel e c'.
Proof. by destruct rel. Qed.

Lemma movable_with_movable (rel : relationship) (e : entry) (c : coord) :
  movable rel (with_movable rel e c) = c.
Proof. by destruct rel. Qed.

Lemma with_movable_same (rel : relationship) (e : entry) :
  with_movable rel e (movable rel e) = e.
Proof. by destruct rel, e. Qed.

(** The exchange of lines 157-159 / 161-163 does not depend on which of the
    two entries is called the trade partner, and doing it a second time
    gives the correspondence back. *)
Theorem swap_symmetric_and_involutive (rel : relationship) (h : list entry)
    (tp me : nat) :
  (tp < length h)%nat -> (me < length h)%nat ->
  swap_movable rel h tp me = swap_movable rel h me tp /\
  swap_movable rel (swap_movable rel h tp me) tp me = h.
Proof.
  intros Htp Hme.
  assert (Hp : forall a b, (a < length h)%nat -> (b < length h)%nat ->
            swap_movable rel h a b !!! a
            = with_movable rel (h !!! a) (movable rel (h !!! b))).
  { intros a b Ha Hb. apply list_lookup_total_correct.
    by apply swap_movable_lookup_partner. }
  assert (Hs : forall a b, (a < length h)%nat -> (b < length h)%nat ->
            swap_movable rel h a b !!! b
            = with_movable rel (h !!! b) (movable rel (h !!! a))).
  { intros a b Ha Hb. apply list_lookup_total_correct.
    by apply swap_movable_lookup_self. }
  split; apply list_eq; intros r.
  - destruct (decide (r = tp)) as [->|H1].
    { rewrite swap_movable_lookup_partner, swap_movable_lookup_self by done.
      reflexivity. }
    destruct (decide (r = me)) as [->|H2].
    { rewrite swap_movable_lookup_partner, swap_movable_lookup_self by done.
      reflexivity. }
    by rewrite !StoreFacts.swap_movable_other by done.
  - pose proof (StoreFacts.swap_movable_length rel h tp me) as Hlen.
    destruct (decide (r = tp)) as [->|H1].
    { rewrite swap_movable_lookup_partner by (by rewrite Hlen).
      rewrite Hp, Hs by done.
      rewrite with_movable_twice, movable_with_movable, with_movable_same.
      symmetry. by apply list_lookup_lookup_total_lt. }
    destruct (decide (r = me)) as [->|H2].
    { rewrite swap_movable_lookup_self by (by rewrite Hlen).
      rewrite Hp, Hs by done.
      rewrite with_movable_twice, movable_with_movable, with_movable_same.
      symmetry. by apply list_lookup_lookup_total_lt. }
    by rewrite !StoreFacts.swap_movable_other by done.
Qed.

Lemma swap_symmetric_and_involutive_witness :
  (0 < length two_pairs)%nat /\ (1 < length two_pairs)%nat /\
  swap_movable ManyToOne two_pairs 0 1 = swap_movable ManyToOne two_pairs 1 0 /\
  swap_movable ManyToOne (swap_movable ManyToOne two_pairs 0 1) 0 1 = two_pairs.
Proof.
  assert (H0 : (0 < length two_pairs)%nat) by (simpl; lia).
  assert (H1 : (1 < length two_pairs)%nat) by (simpl; lia).
  repeat (split; [assumption|]).
  exact (swap_symmetric_and_involutive ManyToOne two_pairs 0 1 H0 H1).
Defined.

(** ** The population *)

(** Lines 150-164 never fail.  The population has the unmutated
    correspondence first, followed by [population_size - 1] clones (none
    when [population_size <= 1]); every clone has the entries of the
    correspondence with the movable endpoints permuted among them. *)
Theorem population_members (rel : relationship) (rate : Float.float)
    (population_size : Z) (pairings : list entry) (g : rng) :
  exists (clones : list (list entry)) (current : list entry) (g' : rng),
    build_population rel rate population_size pairings g
      = Ok (pairings :: clones, current, g') /\
    length clones = Z.to_nat (population_size - 1) /\
    Forall (λ v, length v = length pairings /\
                 fixed_column rel v = fixed_column rel pairings /\
                 movable_column rel v ≡ₚ movable_column rel pairings) clones.
Proof.
  destruct (PopulationFacts.build_population_result rel rate population_size
              pairings g) as (clones & current & g' & Hb & Hlen & Hcl & _).
  exists clones, current, g'. split; [exact Hb|]. split; [exact Hlen|].
  eapply Forall_impl; [exact Hcl|]. intros v [Hf Hm]. split; [|by split].
  apply (f_equal length) in Hf.
  destruct rel; simpl in Hf; by rewrite !length_map in Hf.
Qed.

(** ** Selection *)

(** Lines 166-169.  Whatever the previous scores, [mutate] returns and
    adopts a member of the population of lines 150-164: no member scores
    below it, and among the members with its score it is the first in
    population order (the unmutated correspondence first); the recorded
    best score is the score of the adopted correspondence.  The scores are binary64, with
    [+], [<] and [==] as in the code; [distance] is any function whose
    values on non-negative integers are neither a NaN nor negative, as
    those of [x ** .5] are. *)
Theorem mutate_adopts_first_minimum (distance : Z -> Float.float)
    (s : optimizer) (g : rng) :
  (forall z, 0 <= z -> regular (distance z) = true) ->
  exists (population : list (list entry)) (current : list entry)
         (s' : optimizer) (g' : rng) (k : nat),
    build_population (relationship_of_self s) (mutation_rate s)
      (population_size s) (pairings s) g = Ok (population, current, g') /\
    Score.mutate distance s g = Ok (s', g') /\
    population !! k = Some (pairings s') /\
    best_score s' = Score.get_score distance (pairings s') /\
    (forall c, c ∈ population ->
       Score.ltb (Score.get_score distance c) (best_score s') = false) /\
    (forall j c, (j < k)%nat -> population !! j = Some c ->
       Score.get_score distance c <> best_score s' /\
       Score.eqb (Score.get_score distance c) (best_score s') = false).
Proof.
  intros Hd.
  destruct (score_mutate_selection distance Hd s g)
    as (clones & s' & g' & k & Hm & (current & Hb) & _ & _ & Hk & Hbest & _
        & Hlow & Hfirst & _).
  exists (pairings s :: clones), current, s', g', k.
  split; [exact Hb|]. split; [exact Hm|]. split; [exact Hk|].
  split; [exact Hbest|]. split; [exact Hlow|].
  intros j c Hj Hc. pose proof (Hfirst j c Hj Hc) as Hne. split; [exact Hne|].
  destruct (Score.eqb (Score.get_score distance c) (best_score s')) eqn:E; [|done].
  apply ScoreFacts.regular_eqb_eq in E; [done|apply (ScoreFacts.regular_score distance Hd)|].
  rewrite Hbest. apply (ScoreFacts.regular_score distance Hd).
Qed.

Lemma mutate_adopts_first_minimum_witness :
  exists (population : list (list entry)) (current : list entry)
         (s' : optimizer) (g' : rng) (k : nat),
    build_population (relationship_of_self scenario_a)
      (mutation_rate scenario_a) (population_size scenario_a)
      (pairings scenario_a) improving_draws = Ok (population, current, g') /\
    Score.mutate Score.sqrt_distance scenario_a improving_draws = Ok (s', g') /\
    population !! k = Some (pairings s') /\
    best_score s' = Score.get_score Score.sqrt_distance (pairings s') /\
    (forall c, c ∈ population ->
       Score.ltb (Score.get_score Score.sqrt_distance c) (best_score s')
       = false) /\
    (forall j c, (j < k)%nat -> population !! j = Some c ->
       Score.get_score Score.sqrt_distance c <> best_score s' /\
       Score.eqb (Score.get_score Score.sqrt_distance c) (best_score s')
       = false).
Proof.
  apply (mutate_adopts_first_minimum Score.sqrt_distance scenario_a
           improving_draws).
  exact ScoreFacts.sqrt_distance_regular.
Defined.

(** Lines 148-178.  A generation keeps the shape of the correspondence:
    the adopted correspondence has the same length, the same fixed column
    and a permutation of the movable column, hence satisfies the
    cardinality invariant if the previous one did; the generation counter
    grows by one and the settings are unchanged.  The scores are binary64, with
    [+], [<] and [==] as in the code; [distance] is any function whose
    values on non-negative integers are neither a NaN nor negative, as
    those of [x ** .5] are. *)
Theorem mutate_keeps_cardinalities (distance : Z -> Float.float)
    (s : optimizer) (g : rng) :
  (forall z, 0 <= z -> regular (distance z) = true) ->
  exists (s' : optimizer) (g' : rng),
    Score.mutate distance s g = Ok (s', g') /\
    length (pairings s') = length (pairings s) /\
    fixed_column (relationship_of_self s) (pairings s')
      = fixed_column (relationship_of_self s) (pairings s) /\
    movable_column (relationship_of_self s) (pairings s')
      ≡ₚ movable_column (relationship_of_self s) (pairings s) /\
    (forall ins outs, cardinality_invariant ins outs (pairings s) ->
                      cardinality_invariant ins outs (pairings s')) /\
    generation_count s' = generation_count s + 1 /\
    relationship_of_self s' = relationship_of_self s /\
    population_size s' = population_size s /\
    mutation_rate s' = mutation_rate s /\
    convergence_threshold s' = convergence_threshold s.
Proof.
  intros Hd.
  destruct (score_mutate_selection distance Hd s g)
    as (clones & s' & g' & k & Hm & _ & _ & Hclones & Hk & _ & _ & _ & _
        & Hgen & _ & _ & Hrel & Hps & Hrate & Hthr).
  assert (Hvar : variant (relationship_of_self s) (pairings s) (pairings s')).
  { apply list_elem_of_lookup_2 in Hk.
    apply elem_of_cons in Hk as [->|Hc].
    - apply PopulationFacts.variant_refl.
    - by eapply Forall_forall in Hclones. }
  exists s', g'. split; [exact Hm|].
  destruct Hvar as [Hf Hmv]. split.
  { apply (f_equal length) in Hf.
    destruct (relationship_of_self s); simpl in Hf; by rewrite !length_map in Hf. }
  split; [exact Hf|]. split; [exact Hmv|]. split.
  { intros ins outs. apply (variant_cardinality_invariant (relationship_of_self s)).
    by split. }
  auto 10.
Qed.

Lemma mutate_keeps_cardinalities_witness :
  exists (s' : optimizer) (g' : rng),
    Score.mutate Score.sqrt_distance scenario_a improving_draws = Ok (s', g') /\
    length (pairings s') = length (pairings scenario_a) /\
    fixed_column (relationship_of_self scenario_a) (pairings s')
      = fixed_column (relationship_of_self scenario_a) (pairings scenario_a) /\
    movable_column (relationship_of_self scenario_a) (pairings s')
      ≡ₚ movable_column (relationship_of_self scenario_a)
           (pairings scenario_a) /\
    (forall ins outs,
       cardinality_invariant ins outs (pairings scenario_a) ->
       cardinality_invariant ins outs (pairings s')) /\
    generation_count s' = generation_count scenario_a + 1 /\
    relationship_of_self s' = relationship_of_self scenario_a /\
    population_size s' = population_size scenario_a /\
    mutation_rate s' = mutation_rate scenario_a /\
    convergence_threshold s' = convergence_threshold scenario_a.
Proof.
  apply (mutate_keeps_cardinalities Score.sqrt_distance scenario_a
           improving_draws).
  exact ScoreFacts.sqrt_distance_regular.
Defined.

(** ** Searches that cannot move *)

Module InertFacts.
Import StoreFacts MutateFacts PopulationFacts.

(** [random()] is never below zero. *)
Lemma round_aux_not_below_zero (prec emax mx ex : Z) (lx : SpecFloat.location)
    (sz : bool) :
  SFltb (binary_round_aux prec emax false mx ex lx) (S754_zero sz) = false.
Proof.
  unfold binary_round_aux.
  destruct (shr_fexp prec emax mx ex lx) as [mrs' e'].
  destruct (shr_fexp prec emax _ e' loc_Exact) as [mrs'' e''].
  destruct (shr_m mrs'') as [|m|m]; [reflexivity| |reflexivity].
  destruct (e'' <=? emax - prec); reflexivity.
Qed.

Lemma random_not_below_zero (g : rng) (sz : bool) :
  Float.ltb (fst (random g)) (S754_zero sz) = false.
Proof.
  unfold random, draw. simpl.
  pose proof (Z.mod_pos_bound (tape g (cursor g)) (2 ^ 53)) as Hb.
  destruct (tape g (cursor g) mod 2 ^ 53) as [|m|m]; [reflexivity| |lia].
  unfold binary_normalize, binary_round.
  destruct (shl_align _ _ _) as [mz ez]. apply round_aux_not_below_zero.
Qed.

(** With [mutation_rate = 0] no entry is ever mutated. *)
Lemma inert_zero_rate (rel : relationship) (sz : bool) (n : nat) :
  inert rel (S754_zero sz) n.
Proof.
  intros i h g Hi. unfold mutate_entry.
  pose proof (random_not_below_zero g sz) as Hr.
  destruct (random g) as [u g1]. simpl in Hr. rewrite Hr. by exists g1.
Qed.

(** With at most one entry every swap is a swap of the entry with itself. *)
Lemma inert_single (rel : relationship) (rate : Float.float) (n : nat) :
  (n <= 1)%nat -> inert rel rate n.
Proof.
  intros Hn i h g Hi.
  destruct (mutate_entry_step rel rate n i h g Hi) as (h' & g' & Hm & Hh).
  exists g'. rewrite Hm. do 2 f_equal.
  destruct Hh as [->|(tp & Htp & ->)]; [reflexivity|].
  replace tp with 0%nat by lia. replace (Z.to_nat i) with 0%nat by lia.
  apply swap_movable_self.
Qed.

Section Inert.
Variables (rel : relationship) (rate : Float.float) (n : nat).
Hypothesis Hinert : inert rel rate n.

Lemma entries_loop_inert (k : nat) :
  forall (i : Z) (h : store) (g : rng),
    0 <= i -> i + Z.of_nat k <= Z.of_nat n ->
    exists g', for_loop (mutate_entry rel rate (seq 0 n)) i k (h, g) = Ok (h, g').
Proof.
  induction k as [|k IH]; intros i h g Hi Hik; [by exists g|].
  cbn [for_loop]. destruct (Hinert i h g) as (g1 & ->); [lia|]. mstep.
  apply IH; lia.
Qed.

Lemma clone_loop_inert (k : nat) :
  forall (i : Z) (h : store) (population : list (list ref)) (g : rng),
    (n <= length h)%nat -> Forall (above n h) population ->
    exists (h' : store) (clones : list (list ref)) (g' : rng),
      for_loop (clone_body rel rate (seq 0 n)) i k (h, population, g)
        = Ok (h', population ++ clones, g') /\
      take n h' = take n h /\
      (n <= length h')%nat /\
      map (deref h') population = map (deref h) population /\
      Forall (λ v, v = take n h) (map (deref h') clones).
Proof.
  induction k as [|k IH]; intros i h population g Hn Hpop.
  - exists h, [], g. rewrite app_nil_r. repeat split; auto.
  - cbn [for_loop].
    destruct (clone_body_step rel rate n i h population g Hn Hpop)
      as (h1 & copy & g1 & Hstep & Hn1 & Hpop1 & Hold & Hcopy & _).
    assert (Hh1 : take n h1 = take n h).
    { unfold clone_body, for_range in Hstep.
      destruct (entries_loop_inert (Z.to_nat (len (seq 0 n) - 0)) 0 h g)
        as (g2 & Hl); [lia| |].
      { unfold len. rewrite length_seq. lia. }
      rewrite Hl in Hstep. mstep. unfold deepcopy in Hstep.
      injection Hstep as <- _ _. by rewrite take_app_le. }
    rewrite Hstep. mstep.
    destruct (IH (i + 1) h1 (population ++ [copy]) g1 Hn1 Hpop1)
      as (h' & clones & g' & -> & Htake & Hn' & Hold' & Hnew).
    exists h', (copy :: clones), g'. rewrite <- app_assoc. simpl.
    split; [reflexivity|]. split; [congruence|]. split; [done|].
    rewrite !map_app in Hold'. apply app_inj_1 in Hold' as [Ho1 Ho2];
      [|by rewrite !length_map].
    split; [congruence|].
    apply Forall_cons. split.
    + simpl in Ho2. injection Ho2 as ->. congruence.
    + eapply Forall_impl; [exact Hnew|]. intros v ->. exact Hh1.
Qed.

End Inert.

(** Under inert mutations every clone is the correspondence itself. *)
Lemma build_population_inert (rel : relationship) (rate : Float.float)
    (population_size : Z) (pairings : list entry) (g : rng) :
  inert rel rate (length pairings) ->
  exists (clones : list (list entry)) (g' : rng),
    build_population rel rate population_size pairings g
      = Ok (pairings :: clones, pairings, g') /\
    Forall (λ v, v = pairings) clones.
Proof.
  intros Hinert. unfold build_population, for_range, deepcopy. cbn [fst snd].
  rewrite length_seq. set (n := length pairings).
  assert (Hcopy : deref pairings (seq 0 n) = pairings).
  { rewrite deref_seq by done. by apply take_ge. }
  rewrite Hcopy.
  destruct (clone_loop_inert rel rate n Hinert (Z.to_nat (population_size - 1)) 1
              (pairings ++ pairings) [seq n n] g)
    as (h' & clones & g' & -> & Htake & Hn' & Hold & Hnew).
  { rewrite length_app. lia. }
  { apply Forall_singleton. apply Forall_forall. intros r Hr.
    apply elem_of_seq in Hr. rewrite length_app. fold n. lia. }
  mstep. unfold n in Htake, Hnew. rewrite take_app_length in Htake, Hnew.
  fold n in Htake, Hnew.
  exists (map (deref h') clones), g'. split; [|exact Hnew].
  do 2 f_equal. f_equal.
  - simpl in *. injection Hold as ->.
    pose proof (deref_copy pairings n) as Hc. fold n in Hc.
    rewrite Hcopy in Hc. rewrite Hc by done. by rewrite take_ge.
  - rewrite deref_seq by done. exact Htake.
Qed.

End InertFacts.

(** ** The search loop of [run] *)

Lemma score_generations_step (distance : Z -> Float.float)
    (fuel : nat) (s : optimizer) (g : rng) :
  Score.generations distance (S fuel) s g
  = if converged s then Ok (s, g)
    else '(s', g') ← Score.mutate distance s g; Score.generations distance fuel s' g'.
Proof. reflexivity. Qed.

Lemma score_generations_converged (distance : Z -> Float.float)
    (fuel : nat) (s : optimizer) (g : rng) :
  converged s = true -> Score.generations distance fuel s g = Ok (s, g).
Proof.
  intros H. destruct fuel; [reflexivity|].
  by rewrite score_generations_step, H.
Qed.

(** One generation under inert mutations: the population consists of
    copies of the correspondence, so the best score ties with the last. *)
Lemma inert_generation (distance : Z -> Float.float)
    (Hd : forall z, 0 <= z -> regular (distance z) = true)
    (s : optimizer) (g : rng) :
  inert (relationship_of_self s) (mutation_rate s) (length (pairings s)) ->
  last_best_score s = Score.get_score distance (pairings s) ->
  exists (s' : optimizer) (g' : rng),
    Score.mutate distance s g = Ok (s', g') /\
    pairings s' = pairings s /\
    best_score s' = last_best_score s /\
    last_best_score s' = last_best_score s /\
    generation_count s' = generation_count s + 1 /\
    same_score_count s' = same_score_count s + 1 /\
    converged s' =
      (if same_score_count s + 1 =? convergence_threshold s then true
       else converged s) /\
    relationship_of_self s' = relationship_of_self s /\
    mutation_rate s' = mutation_rate s /\
    convergence_threshold s' = convergence_threshold s.
Proof.
  intros Hinert Hinv.
  destruct (score_mutate_selection distance Hd s g)
    as (clones & s' & g' & k & Hm & (current & Hb) & _ & _ & Hk & Hbest & Hlast
        & _ & _ & Hgen & Hcount & Hconv & Hrel & _ & Hrate & Hthr).
  destruct (InertFacts.build_population_inert (relationship_of_self s)
              (mutation_rate s) (population_size s) (pairings s) g Hinert)
    as (clones' & g'' & Hb' & Hall).
  rewrite Hb in Hb'. injection Hb' as -> _ _.
  assert (Hp : pairings s' = pairings s).
  { apply list_elem_of_lookup_2 in Hk.
    apply elem_of_cons in Hk as [Hk|Hk]; [exact Hk|].
    by eapply Forall_forall in Hall. }
  assert (Hscore : best_score s' = last_best_score s) by congruence.
  assert (Htie : Score.eqb (best_score s') (last_best_score s) = true).
  { apply ScoreFacts.regular_eqb_eq; [| |exact Hscore].
    - rewrite Hbest. apply (ScoreFacts.regular_score distance Hd).
    - rewrite Hinv. apply (ScoreFacts.regular_score distance Hd). }
  rewrite Htie in Hcount, Hconv. simpl in Hconv.
  exists s', g'. repeat split; try done. congruence.
Qed.

(** A search whose mutations are inert runs for exactly the number of
    generations that the tie counter lacks, and changes nothing. *)
Lemma inert_generations (distance : Z -> Float.float)
    (Hd : forall z, 0 <= z -> regular (distance z) = true) (d : nat) :
  forall (fuel : nat) (s : optimizer) (g : rng),
    inert (relationship_of_self s) (mutation_rate s) (length (pairings s)) ->
    last_best_score s = Score.get_score distance (pairings s) ->
    converged s = false ->
    convergence_threshold s - same_score_count s = Z.of_nat (S d) ->
    (S d <= fuel)%nat ->
    exists (s' : optimizer) (g' : rng),
      Score.generations distance fuel s g = Ok (s', g') /\
      converged s' = true /\
      pairings s' = pairings s /\
      best_score s' = last_best_score s /\
      generation_count s' = generation_count s + Z.of_nat (S d).
Proof.
  induction d as [|d IH]; intros fuel s g Hinert Hinv Hconv Hgap Hfuel;
    (destruct fuel as [|fuel]; [lia|]); rewrite score_generations_step;
    rewrite Hconv;
    destruct (inert_generation distance Hd s g Hinert Hinv)
      as (s1 & g1 & -> & Hp & Hb & Hl & Hgen & Hc & Hcv & Hrel & Hrate & Hthr);
    mstep.
  - assert (Hcv1 : converged s1 = true).
    { rewrite Hcv. destruct (Z.eqb_spec (same_score_count s + 1)
                               (convergence_threshold s)); [done|lia]. }
    exists s1, g1. split; [by apply score_generations_converged|].
    repeat split; first [done|lia].
  - assert (Hcv1 : converged s1 = false).
    { rewrite Hcv. destruct (Z.eqb_spec (same_score_count s + 1)
                               (convergence_threshold s)); [lia|done]. }
    destruct (IH fuel s1 g1) as (s' & g' & -> & Hc' & Hp' & Hb' & Hg');
      [by rewrite Hrel, Hrate, Hp|congruence|done|lia|lia|].
    exists s', g'. repeat split; try done; try congruence. lia.
Qed.

Lemma not_below_trans (a b c : Float.float) :
  regular a = true -> regular b = true -> regular c = true ->
  Score.ltb b a = false -> Score.ltb c b = false -> Score.ltb c a = false.
Proof.
  intros Ha Hb Hc Hba Hcb. destruct (Score.ltb c a) eqn:Hca; [|done].
  destruct (Score.ltb b c) eqn:Hbc.
  - rewrite (ScoreFacts.regular_ltb_trans _ _ _ Hb Hc Ha Hbc Hca) in Hba.
    discriminate.
  - rewrite (ScoreFacts.regular_ltb_total _ _ Hb Hc Hbc Hcb) in Hba.
    congruence.
Qed.

(** One generation of a search whose recorded score is the score of its
    correspondence. *)
Lemma generation_step (distance : Z -> Float.float)
    (Hd : forall z, 0 <= z -> regular (distance z) = true)
    (s : optimizer) (g : rng) :
  last_best_score s = Score.get_score distance (pairings s) ->
  exists (s' : optimizer) (g' : rng),
    Score.mutate distance s g = Ok (s', g') /\
    last_best_score s' = Score.get_score distance (pairings s') /\
    best_score s' = last_best_score s' /\
    Score.ltb (last_best_score s) (last_best_score s') = false /\
    variant (relationship_of_self s) (pairings s) (pairings s') /\
    generation_count s' = generation_count s + 1 /\
    (same_score_count s' = same_score_count s + 1 \/ same_score_count s' = 0) /\
    (converged s' = converged s \/
     converged s' = true /\
     same_score_count s' = convergence_threshold s /\
     same_score_count s' = same_score_count s + 1) /\
    relationship_of_self s' = relationship_of_self s /\
    convergence_threshold s' = convergence_threshold s.
Proof.
  intros Hinv.
  destruct (score_mutate_selection distance Hd s g)
    as (clones & s' & g' & k & Hm & _ & _ & Hclones & Hk & Hbest & Hlast
        & Hlow & _ & Hgen & Hcount & Hconv & Hrel & _ & _ & Hthr).
  assert (Hsb : regular (best_score s') = true)
    by (rewrite Hbest; apply (ScoreFacts.regular_score distance Hd)).
  assert (Hsl : regular (last_best_score s) = true)
    by (rewrite Hinv; apply (ScoreFacts.regular_score distance Hd)).
  assert (Hle : Score.ltb (last_best_score s) (best_score s') = false).
  { rewrite Hinv. apply Hlow. apply elem_of_cons. by left. }
  exists s', g'. split; [exact Hm|]. split; [congruence|]. split; [congruence|].
  split; [by rewrite Hlast|]. split.
  { apply list_elem_of_lookup_2 in Hk.
    apply elem_of_cons in Hk as [->|Hc].
    - apply PopulationFacts.variant_refl.
    - by eapply Forall_forall in Hclones. }
  split; [exact Hgen|].
  destruct (Score.eqb (best_score s') (last_best_score s)) eqn:Htie.
  - split; [by left|]. split; [|done]. simpl in Hconv.
    destruct (Z.eqb_spec (same_score_count s + 1) (convergence_threshold s));
      [right; split; [done|lia]|by left].
  - simpl in Hconv.
    destruct (Score.ltb (best_score s') (last_best_score s)) eqn:Hlt.
    + split; [by right|]. split; [by left|done].
    + assert (best_score s' = last_best_score s) as Habs
        by (by apply ScoreFacts.regular_ltb_total).
      apply ScoreFacts.regular_eqb_eq in Habs; [congruence|done|done].
Qed.

(** The invariants of the search loop, by induction on the number of
    generations. *)
Lemma generations_loop (distance : Z -> Float.float)
    (Hd : forall z, 0 <= z -> regular (distance z) = true)
    (fuel : nat) (s : optimizer) (g : rng) :
  last_best_score s = Score.get_score distance (pairings s) ->
  0 <= same_score_count s ->
  exists (s' : optimizer) (g' : rng),
    Score.generations distance fuel s g = Ok (s', g') /\
    last_best_score s' = Score.get_score distance (pairings s') /\
    Score.ltb (last_best_score s) (last_best_score s') = false /\
    variant (relationship_of_self s) (pairings s) (pairings s') /\
    (forall ins outs, cardinality_invariant ins outs (pairings s) ->
                      cardinality_invariant ins outs (pairings s')) /\
    generation_count s <= generation_count s'
      <= generation_count s + Z.of_nat fuel /\
    (converged s' = true \/
     generation_count s' = generation_count s + Z.of_nat fuel) /\
    (converged s = false -> converged s' = true ->
     same_score_count s' = convergence_threshold s /\
     convergence_threshold s - same_score_count s
       <= generation_count s' - generation_count s) /\
    0 <= same_score_count s' /\
    relationship_of_self s' = relationship_of_self s /\
    convergence_threshold s' = convergence_threshold s.
Proof.
  revert s g.
  assert (Hstay : forall s : optimizer,
    last_best_score s = Score.get_score distance (pairings s) ->
    Score.ltb (last_best_score s) (last_best_score s) = false /\
    variant (relationship_of_self s) (pairings s) (pairings s) /\
    (converged s = false -> converged s = true ->
     same_score_count s = convergence_threshold s /\
     convergence_threshold s - same_score_count s
       <= generation_count s - generation_count s)).
  { intros s Hinv. split.
    { apply ScoreFacts.regular_ltb_irrefl. rewrite Hinv.
      apply (ScoreFacts.regular_score distance Hd). }
    split; [apply PopulationFacts.variant_refl|congruence]. }
  induction fuel as [|fuel IH]; intros s g Hinv Hc.
  { destruct (Hstay s Hinv) as (H1 & H2 & H3). exists s, g.
    split; [done|]. split; [done|]. split; [done|]. split; [done|].
    split; [done|]. split; [lia|]. split; [right; lia|]. by split. }
  rewrite score_generations_step. destruct (converged s) eqn:Hcv.
  { destruct (Hstay s Hinv) as (H1 & H2 & H3). exists s, g.
    split; [done|]. split; [done|]. split; [done|]. split; [done|].
    split; [done|]. split; [lia|]. split; [by left|]. split; [|done].
    congruence. }
  destruct (generation_step distance Hd s g Hinv)
    as (s1 & g1 & -> & Hinv1 & _ & Hle1 & Hvar1 & Hgen1 & Hcount1 & Hconv1
        & Hrel1 & Hthr1).
  mstep.
  assert (Hc1 : 0 <= same_score_count s1) by lia.
  destruct (IH s1 g1 Hinv1 Hc1)
    as (s' & g' & Hrun & Hinv' & Hle' & Hvar' & _ & Hgen' & Hend' & Hconv'
        & Hc' & Hrel' & Hthr').
  assert (Hvar : variant (relationship_of_self s) (pairings s) (pairings s')).
  { eapply PopulationFacts.variant_trans; [exact Hvar1|]. by rewrite <- Hrel1. }
  exists s', g'. split; [exact Hrun|]. split; [exact Hinv'|].
  split.
  { apply (not_below_trans _ (last_best_score s1)); [| | |exact Hle'|exact Hle1].
    - rewrite Hinv'. apply (ScoreFacts.regular_score distance Hd).
    - rewrite Hinv1. apply (ScoreFacts.regular_score distance Hd).
    - rewrite Hinv. apply (ScoreFacts.regular_score distance Hd). }
  split; [exact Hvar|].
  split; [intros ins outs; by apply (variant_cardinality_invariant
                                       (relationship_of_self s))|].
  split; [lia|]. split; [destruct Hend'; [by left|right; lia]|].
  split; [|split; [done|split; congruence]].
  intros _ Hfin. destruct (converged s1) eqn:Hcv1.
  - assert (s' = s1) as ->.
    { rewrite score_generations_converged in Hrun by done. congruence. }
    destruct Hconv1 as [?|(_ & Ht & Hs)]; [congruence|]. lia.
  - destruct (Hconv' eq_refl Hfin) as [Ht Hs]. lia.
Qed.

(** Lines 64-65 with 148-178.  The loop [while not self.converged:
    self.mutate()] never raises.  Started where the recorded score is the
    score of the correspondence (as [get_random_pixel_mappings] leaves it)
    and cut off after [fuel] generations, it has run at most [fuel]
    generations, and exactly [fuel] unless it converged; the recorded
    score is still the score of the correspondence and is not above the
    one at the start; the correspondence has the same fixed column and a
    permutation of the movable column, so the cardinality invariant is
    kept; and convergence takes at least [convergence_threshold -
    same_score_count] generations and leaves the tie counter at the
    threshold.  The scores are binary64, with
    [+], [<] and [==] as in the code; [distance] is any function whose
    values on non-negative integers are neither a NaN nor negative, as
    those of [x ** .5] are. *)
Theorem search_progress (distance : Z -> Float.float)
    (fuel : nat) (s : optimizer) (g : rng) :
  (forall z, 0 <= z -> regular (distance z) = true) ->
  last_best_score s = Score.get_score distance (pairings s) ->
  0 <= same_score_count s ->
  exists (s' : optimizer) (g' : rng),
    Score.generations distance fuel s g = Ok (s', g') /\
    last_best_score s' = Score.get_score distance (pairings s') /\
    Score.ltb (last_best_score s) (last_best_score s') = false /\
    variant (relationship_of_self s) (pairings s) (pairings s') /\
    (forall ins outs, cardinality_invariant ins outs (pairings s) ->
                      cardinality_invariant ins outs (pairings s')) /\
    generation_count s <= generation_count s'
      <= generation_count s + Z.of_nat fuel /\
    (converged s' = true \/
     generation_count s' = generation_count s + Z.of_nat fuel) /\
    (converged s = false -> converged s' = true ->
     same_score_count s' = convergence_threshold s /\
     convergence_threshold s - same_score_count s
       <= generation_count s' - generation_count s) /\
    0 <= same_score_count s' /\
    relationship_of_self s' = relationship_of_self s /\
    convergence_threshold s' = convergence_threshold s.
Proof.
  intros Hd. by apply generations_loop.
Qed.

(** The search of the witness below, computed: in three generations the
    correspondence is replaced by a strictly shorter one. *)
Lemma scenario_a_search :
  (λ sg : optimizer * rng,
     (pairings (fst sg), generation_count (fst sg), same_score_count (fst sg),
      Score.ltb (last_best_score (fst sg)) (last_best_score scenario_a)))
    <$> Score.generations Score.sqrt_distance 3 scenario_a improving_draws
  = Ok (three_to_two_improved, 3, 2, true).
Proof. vm_compute. reflexivity. Qed.

Lemma search_progress_witness :
  exists (s' : optimizer) (g' : rng),
    Score.generations Score.sqrt_distance 3 scenario_a improving_draws = Ok (s', g') /\
    last_best_score s' = Score.get_score Score.sqrt_distance (pairings s') /\
    Score.ltb (last_best_score scenario_a) (last_best_score s') = false /\
    variant (relationship_of_self scenario_a)
      (pairings scenario_a) (pairings s') /\
    (forall ins outs,
       cardinality_invariant ins outs (pairings scenario_a) ->
       cardinality_invariant ins outs (pairings s')) /\
    generation_count scenario_a <= generation_count s'
      <= generation_count scenario_a + Z.of_nat 3 /\
    (converged s' = true \/
     generation_count s' = generation_count scenario_a + Z.of_nat 3) /\
    (converged scenario_a = false -> converged s' = true ->
     same_score_count s' = convergence_threshold scenario_a /\
     convergence_threshold scenario_a - same_score_count scenario_a
       <= generation_count s' - generation_count scenario_a) /\
    0 <= same_score_count s' /\
    relationship_of_self s' = relationship_of_self scenario_a /\
    convergence_threshold s' = convergence_threshold scenario_a.
Proof.
  apply (search_progress Score.sqrt_distance 3 scenario_a improving_draws).
  - exact ScoreFacts.sqrt_distance_regular.
  - reflexivity.
  - simpl. lia.
Defined.

(** Lines 64-65 with 148-178.  When no mutation can change the
    correspondence -- it has at most one entry, every swap being a swap with
    itself, or [mutation_rate] is zero, [random() < 0] never holding -- the
    search is a fixed delay: from a state that has not converged and whose
    tie counter is below the threshold the loop ends after exactly
    [convergence_threshold - same_score_count] generations (200 from the
    initial state) with the correspondence and the score unchanged.  The scores are binary64, with
    [+], [<] and [==] as in the code; [distance] is any function whose
    values on non-negative integers are neither a NaN nor negative, as
    those of [x ** .5] are. *)
Theorem inert_search_converges (distance : Z -> Float.float)
    (fuel : nat) (s : optimizer) (g : rng) :
  (forall z, 0 <= z -> regular (distance z) = true) ->
  ((length (pairings s) <= 1)%nat \/
   exists sign, mutation_rate s = S754_zero sign) ->
  last_best_score s = Score.get_score distance (pairings s) ->
  converged s = false ->
  same_score_count s < convergence_threshold s ->
  convergence_threshold s - same_score_count s <= Z.of_nat fuel ->
  exists (s' : optimizer) (g' : rng),
    Score.generations distance fuel s g = Ok (s', g') /\
    converged s' = true /\
    pairings s' = pairings s /\
    best_score s' = last_best_score s /\
    generation_count s'
      = generation_count s + (convergence_threshold s - same_score_count s).
Proof.
  intros Hd Hcase Hinv Hcv Hlt Hfuel.
  assert (Hinert : inert (relationship_of_self s) (mutation_rate s)
                     (length (pairings s))).
  { destruct Hcase as [Hone|[sign ->]].
    - by apply InertFacts.inert_single.
    - apply InertFacts.inert_zero_rate. }
  destruct (inert_generations distance Hd
              (Nat.pred (Z.to_nat (convergence_threshold s - same_score_count s)))
              fuel s g Hinert Hinv Hcv)
    as (s' & g' & Hrun & Hc & Hp & Hb & Hg); [lia|lia|].
  exists s', g'. repeat split; try done. lia.
Qed.

Lemma inert_search_converges_witness :
  exists (s' : optimizer) (g' : rng),
    Score.generations Score.sqrt_distance 200 scenario_b (const_rng 0) = Ok (s', g') /\
    converged s' = true /\
    pairings s' = pairings scenario_b /\
    best_score s' = last_best_score scenario_b /\
    generation_count s'
      = generation_count scenario_b
        + (convergence_threshold scenario_b - same_score_count scenario_b).
Proof.
  apply (inert_search_converges Score.sqrt_distance 200 scenario_b
           (const_rng 0)).
  - exact ScoreFacts.sqrt_distance_regular.
  - left. simpl. lia.
  - reflexivity.
  - reflexivity.
  - simpl. lia.
  - simpl. lia.
Defined.

(** ** The builder on any two coordinate lists *)

Module OutcomeFacts.
Import Builder.

(** Without foreground pixels on one side no loop body runs. *)
Lemma build_nil_l (outs : list coord) (g : rng) : build [] outs g = Ok ([], g).
Proof.
  unfold build, get_random_pixel_mappings, relationship_of, for_range.
  pose proof (len_nonneg outs) as Ho. change (len []) with 0.
  destruct (0 =? len outs); [reflexivity|].
  destruct (0 >? len outs) eqn:E; [lia|reflexivity].
Qed.

Lemma build_nil_r (ins : list coord) (g : rng) : build ins [] g = Ok ([], g).
Proof.
  unfold build, get_random_pixel_mappings, relationship_of, for_range.
  pose proof (len_nonneg ins) as Hi. change (len []) with 0.
  destruct (Z.eqb_spec (len ins) 0) as [E|E].
  - rewrite E. reflexivity.
  - destruct (len ins >? 0) eqn:E'; [reflexivity|lia].
Qed.

Lemma groups_elem_of (ks : list Z) (cs : list coord) (c : coord) :
  c ∈ groups ks cs -> c ∈ cs.
Proof.
  revert ks. induction cs as [|x cs IH]; intros [|k ks]; simpl;
    try (intros H; by apply elem_of_nil in H).
  intros H. apply elem_of_app in H as [H|H].
  - apply elem_of_replicate in H as [-> _]. by left.
  - right. by eapply IH.
Qed.

(** Every entry pairs a coordinate of the first list with one of the
    second. *)
Lemma build_entries (ins outs : list coord) (g : rng) (p : list entry)
    (g' : rng) :
  build ins outs g = Ok (p, g') ->
  Forall (λ e, fst e ∈ ins /\ snd e ∈ outs) p.
Proof.
  intros Hb.
  destruct ins as [|a ins'] eqn:Ei.
  { rewrite build_nil_l in Hb. injection Hb as <- _. apply Forall_nil_2. }
  destruct outs as [|b outs'] eqn:Eo.
  { rewrite build_nil_r in Hb. injection Hb as <- _. apply Forall_nil_2. }
  rewrite <- Ei, <- Eo in *.
  assert (Hi : 0 < len ins) by (rewrite Ei; unfold len; simpl; lia).
  assert (Ho : 0 < len outs) by (rewrite Eo; unfold len; simpl; lia).
  clear Ei Eo. apply Forall_forall. intros e He.
  assert (Hcols : (forall c, c ∈ map fst p -> c ∈ ins) /\
                  (forall c, c ∈ map snd p -> c ∈ outs)).
  { destruct (Z.eqb_spec (len ins) (len outs)) as [Heq|Hne].
    - destruct (le_lt_dec 2 (length ins)) as [H2|H1].
      { unfold len in Heq.
        rewrite OneToOneFacts.build_index_error in Hb by lia. discriminate. }
      destruct ins as [|a1 [|? ?]]; [unfold len in Hi; simpl in Hi; lia|
                                     |simpl in H1; lia].
      destruct outs as [|b1 [|? ?]]; try (unfold len in Heq; simpl in Heq; lia).
      rewrite OneToOneFacts.build_single in Hb. injection Hb as <- _.
      split; intros c Hc; exact Hc.
    - unfold build, relationship_of in Hb.
      replace (len ins =? len outs) with false in Hb
        by (symmetry; apply Z.eqb_neq; lia).
      destruct (len ins >? len outs) eqn:E.
      + destruct (BuilderFacts.many_to_one_result ins outs g)
          as (p0 & g0 & Hr & Hfst & Hsnd); [lia|].
        rewrite Hr in Hb. injection Hb as -> ->. split; intros c Hc.
        * by rewrite <- Hfst.
        * rewrite Hsnd in Hc. by eapply groups_elem_of.
      + destruct (BuilderFacts.one_to_many_result ins outs g)
          as (p0 & g0 & Hr & Hsnd & Hfst); [lia|].
        rewrite Hr in Hb. injection Hb as -> ->. split; intros c Hc.
        * rewrite Hfst in Hc. by eapply groups_elem_of.
        * by rewrite <- Hsnd. }
  destruct Hcols as [Hf Hs]. split.
  - apply Hf. apply list_elem_of_fmap. by exists e.
  - apply Hs. apply list_elem_of_fmap. by exists e.
Qed.

Lemma swap_entries_twice (p : list entry) : map swap_entry (map swap_entry p) = p.
Proof.
  rewrite map_map. rewrite <- (map_id p) at 2. apply map_ext.
  intros [a b]. reflexivity.
Qed.

(** The builder on the exchanged lists returns the entries turned round,
    from the same draws. *)
Lemma build_mirror (ins outs : list coord) (g : rng) :
  build outs ins g
  = (λ pg, (map swap_entry (fst pg), snd pg)) <$> build ins outs g.
Proof.
  destruct (Z.eqb_spec (len ins) (len outs)) as [Heq|Hne].
  - destruct (le_lt_dec 2 (length ins)) as [H2|H1].
    { unfold len in Heq.
      rewrite (OneToOneFacts.build_index_error ins outs g) by lia.
      rewrite (OneToOneFacts.build_index_error outs ins g) by lia.
      reflexivity. }
    destruct ins as [|a [|? ?]]; [| |simpl in H1; lia].
    + destruct outs; [|unfold len in Heq; simpl in Heq; lia].
      rewrite build_nil_l. reflexivity.
    + destruct outs as [|b [|? ?]]; try (unfold len in Heq; simpl in Heq; lia).
      rewrite !OneToOneFacts.build_single. reflexivity.
  - unfold build, relationship_of.
    replace (len ins =? len outs) with false by (symmetry; apply Z.eqb_neq; lia).
    replace (len outs =? len ins) with false by (symmetry; apply Z.eqb_neq; lia).
    destruct (len ins >? len outs) eqn:E.
    + replace (len outs >? len ins) with false by lia.
      apply BuilderFacts.one_to_many_mirror.
    + replace (len outs >? len ins) with true by lia.
      rewrite BuilderFacts.one_to_many_mirror.
      destruct (get_random_pixel_mappings ManyToOne _ _ _ _ _) as [[p g']|e];
        [|reflexivity].
      mstep. simpl. by rewrite swap_entries_twice.
Qed.

(** The smaller-side column, coordinate by coordinate. *)
Lemma groups_shares_layout (q r : Z) (cs : list coord) :
  forall (p : Z) (k0 : nat),
    0 <= r -> p = Z.min (Z.of_nat k0) r ->
    groups (shares q r p (length cs)) cs
    = mjoin (imap (λ k c, replicate
                            (Z.to_nat (if Z.of_nat (k0 + k) <? r then q + 1 else q))
                            c) cs).
Proof.
  induction cs as [|c cs IH]; intros p k0 Hr Hp; [reflexivity|].
  cbn [length shares groups imap mjoin list_join]. f_equal.
  - unfold share. rewrite Nat.add_0_r.
    replace (p <? r) with (Z.of_nat k0 <? r); [reflexivity|].
    destruct (Z.ltb_spec (Z.of_nat k0) r), (Z.ltb_spec p r); lia.
  - rewrite (IH (placed_after r p) (S k0) Hr).
    + f_equal. apply imap_ext. intros k x _. simpl.
      by replace (k0 + S k)%nat with (S (k0 + k)) by lia.
    + unfold placed_after. destruct (Z.ltb_spec p r); lia.
Qed.

End OutcomeFacts.

Lemma build_outcome (ins outs : list coord) (g : rng) :
  (len ins = len outs /\ 2 <= len ins /\
   Builder.build ins outs g = Raise IndexError) \/
  (~ (len ins = len outs /\ 2 <= len ins) /\
   exists p g', Builder.build ins outs g = Ok (p, g') /\
     len p = if (len ins =? 0) || (len outs =? 0) then 0
             else Z.max (len ins) (len outs)).
Proof.
  destruct ins as [|a ins'] eqn:Ei.
  { right. split; [unfold len; simpl; lia|].
    exists [], g. by rewrite OutcomeFacts.build_nil_l. }
  destruct outs as [|b outs'] eqn:Eo.
  { right. split; [unfold len; simpl; lia|].
    exists [], g. rewrite OutcomeFacts.build_nil_r. split; [done|].
    by rewrite orb_true_r. }
  rewrite <- Ei, <- Eo.
  assert (Hi : 0 < len ins) by (rewrite Ei; unfold len; simpl; lia).
  assert (Ho : 0 < len outs) by (rewrite Eo; unfold len; simpl; lia).
  clear Ei Eo.
  replace (len ins =? 0) with false by (symmetry; apply Z.eqb_neq; lia).
  replace (len outs =? 0) with false by (symmetry; apply Z.eqb_neq; lia).
  simpl orb. cbv iota.
  destruct (Z.eq_dec (len ins) (len outs)) as [Heq|Hne].
  - destruct (le_lt_dec 2 (length ins)) as [H2|H1].
    { left. split; [done|]. split; [unfold len; lia|].
      apply OneToOneFacts.build_index_error; unfold len in Heq; lia. }
    right. split; [unfold len; lia|].
    destruct ins as [|a1 [|? ?]]; [unfold len in Hi; simpl in Hi; lia|
                                   |simpl in H1; lia].
    destruct outs as [|b1 [|? ?]]; try (unfold len in Heq; simpl in Heq; lia).
    rewrite OneToOneFacts.build_single. by eexists _, _.
  - right. split; [tauto|]. unfold Builder.build, relationship_of.
    replace (len ins =? len outs) with false by (symmetry; apply Z.eqb_neq; lia).
    destruct (len ins >? len outs) eqn:E.
    + destruct (BuilderFacts.many_to_one_result ins outs g)
        as (p & g' & -> & Hfst & _); [lia|].
      exists p, g'. split; [done|].
      apply Permutation_length in Hfst. rewrite length_map in Hfst.
      unfold len in *. lia.
    + destruct (BuilderFacts.one_to_many_result ins outs g)
        as (p & g' & -> & Hsnd & _); [lia|].
      exists p, g'. split; [done|].
      apply Permutation_length in Hsnd. rewrite length_map in Hsnd.
      unfold len in *. lia.
Qed.

Lemma elem_of_cells (h w : nat) (c : coord) :
  c ∈ cells h w ->
  0 <= fst c < Z.of_nat h /\ 0 <= snd c < Z.of_nat w.
Proof.
  unfold cells. intros H.
  apply list_elem_of_bind in H as (r & H & Hr).
  apply list_elem_of_bind in H as (k & H & Hk).
  apply list_elem_of_singleton in H as ->.
  apply elem_of_seq in Hr. apply elem_of_seq in Hk. simpl. lia.
Qed.

Lemma elem_of_argwhere (h w : nat) (mask : Z -> Z -> bool) (c : coord) :
  c ∈ argwhere h w mask ->
  0 <= fst c < Z.of_nat h /\ 0 <= snd c < Z.of_nat w /\
  mask (fst c) (snd c) = true.
Proof.
  unfold argwhere. intros H. apply list_elem_of_filter in H as [Hm Hc].
  apply elem_of_cells in Hc. tauto.
Qed.

(** Lines 56-62 with 70-137.  The front end of [run] -- [open_images],
    [classify_pixels], [get_random_pixel_mappings] -- on any two images and
    any draws: it fails with the assertion exactly when the sizes differ,
    with an [IndexError] exactly when the sizes agree and the two foreground
    counts are equal and at least 2, and returns a correspondence in every
    other case; the correspondence is empty when an image has no foreground
    pixel (no division error: the counts are [np.int64]) and has as many
    entries as the larger count otherwise. *)
Theorem front_end_outcome (white_threshold : Z) (im1 im2 : image) (g : rng) :
  (size im1 <> size im2 /\
   run_to_mappings white_threshold im1 im2 g = Raise AssertionError) \/
  (size im1 = size im2 /\
   im1_colored_pixel_count (classify_pixels white_threshold im1 im2)
     = im2_colored_pixel_count (classify_pixels white_threshold im1 im2) /\
   2 <= im1_colored_pixel_count (classify_pixels white_threshold im1 im2) /\
   run_to_mappings white_threshold im1 im2 g = Raise IndexError) \/
  (size im1 = size im2 /\
   ~ (im1_colored_pixel_count (classify_pixels white_threshold im1 im2)
        = im2_colored_pixel_count (classify_pixels white_threshold im1 im2) /\
      2 <= im1_colored_pixel_count (classify_pixels white_threshold im1 im2)) /\
   exists (p : list entry) (g' : rng),
     run_to_mappings white_threshold im1 im2 g = Ok (p, g') /\
     len p =
       if (im1_colored_pixel_count (classify_pixels white_threshold im1 im2) =? 0)
          || (im2_colored_pixel_count (classify_pixels white_threshold im1 im2) =? 0)
       then 0
       else Z.max
              (im1_colored_pixel_count (classify_pixels white_threshold im1 im2))
              (im2_colored_pixel_count (classify_pixels white_threshold im1 im2))).
Proof.
  destruct (decide (size im1 = size im2)) as [Hs|Hs].
  - right. rewrite run_to_mappings_build by done.
    unfold classify_pixels. cbn [im1_colored_pixel_count im2_colored_pixel_count].
    rewrite <- !len_argwhere.
    destruct (build_outcome
                (argwhere (height im1) (width im1) (wherecolored white_threshold im1))
                (argwhere (height im2) (width im2) (wherecolored white_threshold im2))
                g) as [(H1 & H2 & H3)|(H1 & H2)].
    + left. auto.
    + right. auto.
  - left. split; [done|]. unfold run_to_mappings.
    by rewrite open_images_mismatch.
Qed.

(** Lines 77-137.  Every entry of a correspondence that the front end
    returns joins a foreground pixel of the first image to a foreground
    pixel of the second, both inside the image. *)
Theorem correspondence_within_images (white_threshold : Z) (im1 im2 : image)
    (g : rng) (p : list entry) (g' : rng) :
  run_to_mappings white_threshold im1 im2 g = Ok (p, g') ->
  Forall (λ e,
            (0 <= fst (fst e) < Z.of_nat (height im1) /\
             0 <= snd (fst e) < Z.of_nat (width im1) /\
             wherecolored white_threshold im1 (fst (fst e)) (snd (fst e)) = true) /\
            (0 <= fst (snd e) < Z.of_nat (height im2) /\
             0 <= snd (snd e) < Z.of_nat (width im2) /\
             wherecolored white_threshold im2 (fst (snd e)) (snd (snd e)) = true))
         p.
Proof.
  intros Hrun.
  assert (Hs : size im1 = size im2).
  { destruct (decide (size im1 = size im2)) as [Hs|Hs]; [done|].
    unfold run_to_mappings in Hrun. rewrite open_images_mismatch in Hrun by done.
    discriminate. }
  rewrite run_to_mappings_build in Hrun by done.
  apply OutcomeFacts.build_entries in Hrun.
  eapply Forall_impl; [exact Hrun|]. intros e [H1 H2].
  split; by apply elem_of_argwhere.
Qed.

Lemma correspondence_within_images_witness :
  Forall (λ e : entry,
            (0 <= fst (fst e) < Z.of_nat (height (dotted 4 4 scenario_a_source)) /\
             0 <= snd (fst e) < Z.of_nat (width (dotted 4 4 scenario_a_source)) /\
             wherecolored 224 (dotted 4 4 scenario_a_source)
               (fst (fst e)) (snd (fst e)) = true) /\
            (0 <= fst (snd e) < Z.of_nat (height (dotted 4 4 scenario_a_target)) /\
             0 <= snd (snd e) < Z.of_nat (width (dotted 4 4 scenario_a_target)) /\
             wherecolored 224 (dotted 4 4 scenario_a_target)
               (fst (snd e)) (snd (snd e)) = true))
         [((0, 1), (3, 0)); ((0, 2), (3, 0)); ((0, 0), (3, 3))].
Proof.
  apply (correspondence_within_images 224 (dotted 4 4 scenario_a_source)
           (dotted 4 4 scenario_a_target) (const_rng 1) _
           (mkRng (fun _ => 1) 3)).
  vm_compute. reflexivity.
Defined.

(** Lines 92-139.  Exchanging the two images reverses the correspondence:
    from the same draws the front end returns the same entries turned
    round, or fails in the same way; and [get_score] gives a correspondence
    and its reverse the same score. *)
Theorem exchanged_images_reverse_correspondence {score : Type}
    (score_zero : score) (score_add : score -> score -> score)
    (distance : Z -> score)
    (white_threshold : Z) (im1 im2 : image) (g : rng) :
  run_to_mappings white_threshold im2 im1 g
    = (λ pg, (map swap_entry (fst pg), snd pg))
        <$> run_to_mappings white_threshold im1 im2 g /\
  forall p : list entry,
    get_score score_zero score_add distance (map swap_entry p)
    = get_score score_zero score_add distance p.
Proof.
  split.
  - destruct (decide (size im1 = size im2)) as [Hs|Hs].
    + rewrite !run_to_mappings_build by done. apply OutcomeFacts.build_mirror.
    + unfold run_to_mappings. rewrite !open_images_mismatch by congruence.
      reflexivity.
  - intros p. unfold get_score. generalize score_zero.
    induction p as [|[[a b] [c d]] p IH]; intros acc; [reflexivity|].
    cbn [map foldl swap_entry fst snd]. rewrite IH. do 3 f_equal. lia.
Qed.

(** Lines 104-137.  With unequal positive counts the builder lays the
    smaller side out in scan order: its column is the coordinates of the
    smaller set as [np.argwhere] lists them, each repeated consecutively,
    the first [larger mod smaller] of them [larger div smaller + 1] times
    and the others [larger div smaller] times; only the order of the
    larger side's column depends on the draws. *)
Theorem smaller_side_layout (ins outs : list coord) (g : rng) :
  0 < len ins -> 0 < len outs -> len ins <> len outs ->
  exists (p : list entry) (g' : rng),
    Builder.build ins outs g = Ok (p, g') /\
    smaller_column ins outs p
      = mjoin (imap (λ k c,
                 replicate
                   (Z.to_nat
                      (if Z.of_nat k
                            <? len (larger_set ins outs) mod len (smaller_set ins outs)
                       then len (larger_set ins outs) / len (smaller_set ins outs) + 1
                       else len (larger_set ins outs) / len (smaller_set ins outs)))
                   c)
               (smaller_set ins outs)) /\
    larger_column ins outs p ≡ₚ larger_set ins outs.
Proof.
  intros Hi Ho Hne.
  unfold Builder.build, relationship_of, smaller_column, larger_column,
    smaller_set, larger_set.
  replace (len ins =? len outs) with false by (symmetry; apply Z.eqb_neq; lia).
  destruct (len ins >? len outs) eqn:E.
  - replace (len outs <=? len ins) with true by (symmetry; apply Z.leb_le; lia).
    destruct (BuilderFacts.many_to_one_result ins outs g)
      as (p & g' & -> & Hfst & Hsnd); [lia|].
    exists p, g'. split; [done|]. split; [|done]. rewrite Hsnd.
    apply (OutcomeFacts.groups_shares_layout _ _ outs 0 0).
    + apply Z.mod_pos_bound. lia.
    + pose proof (Z.mod_pos_bound (len ins) (len outs)). lia.
  - replace (len outs <=? len ins) with false by (symmetry; apply Z.leb_gt; lia).
    destruct (BuilderFacts.one_to_many_result ins outs g)
      as (p & g' & -> & Hsnd & Hfst); [lia|].
    exists p, g'. split; [done|]. split; [|done]. rewrite Hfst.
    apply (OutcomeFacts.groups_shares_layout _ _ ins 0 0).
    + apply Z.mod_pos_bound. lia.
    + pose proof (Z.mod_pos_bound (len outs) (len ins)). lia.
Qed.

Lemma smaller_side_layout_witness :
  exists (p : list entry) (g' : rng),
    Builder.build scenario_a_source scenario_a_target (const_rng 1)
      = Ok (p, g') /\
    smaller_column scenario_a_source scenario_a_target p
      = mjoin (imap (λ k c,
                 replicate
                   (Z.to_nat
                      (if Z.of_nat k
                            <? len (larger_set scenario_a_source scenario_a_target)
                               mod len (smaller_set scenario_a_source scenario_a_target)
                       then len (larger_set scenario_a_source scenario_a_target)
                            / len (smaller_set scenario_a_source scenario_a_target) + 1
                       else len (larger_set scenario_a_source scenario_a_target)
                            / len (smaller_set scenario_a_source scenario_a_target)))
                   c)
               (smaller_set scenario_a_source scenario_a_target)) /\
    larger_column scenario_a_source scenario_a_target p
      ≡ₚ larger_set scenario_a_source scenario_a_target.
Proof.
  apply (smaller_side_layout scenario_a_source scenario_a_target (const_rng 1));
    unfold len; simpl; lia.
Defined.

(** ** Classification by integer sums *)

Lemma mean_below (s t : Z) :
  0 <= s <= 765 -> 0 <= t <= 256 ->
  Float.ltb (Float.f64_div (Float.f64_of_Z s) (Float.f64_of_Z 3))
            (Float.f64_of_Z t)
  = (s <? 3 * t).
Proof.
  intros Hs Ht.
  assert (H : forallb (λ s,
                let m := Float.f64_div (Float.f64_of_Z s) (Float.f64_of_Z 3) in
                forallb (λ t, Bool.eqb (Float.ltb m (Float.f64_of_Z t))
                                       (s <? 3 * t))
                        (seqZ 0 257))
              (seqZ 0 766) = true) by (vm_compute; reflexivity).
  rewrite forallb_forall in H.
  specialize (H s). cbv zeta in H. rewrite forallb_forall in H.
  apply eqb_prop, H.
  - apply list_elem_of_In, elem_of_seqZ. lia.
  - apply list_elem_of_In, elem_of_seqZ. lia.
Qed.

(** Lines 78-81.  For 8-bit channels and a threshold of 0..256 the
    comparison of the binary64 mean with the threshold is exact: a pixel is
    foreground if and only if the sum of its three channels is below three
    times the threshold (672 for the threshold 224 of the code). *)
Theorem foreground_criterion (white_threshold : Z) (im : image) (r c : Z) :
  0 <= white_threshold <= 256 ->
  0 <= red (pixel im r c) <= 255 ->
  0 <= green (pixel im r c) <= 255 ->
  0 <= blue (pixel im r c) <= 255 ->
  wherecolored white_threshold im r c
  = (red (pixel im r c) + green (pixel im r c) + blue (pixel im r c)
     <? 3 * white_threshold).
Proof.
  intros Ht Hr Hg Hb. unfold wherecolored. apply mean_below; lia.
Qed.

Lemma foreground_criterion_witness :
  wherecolored 224 two_dots_top 0 0
  = (red (pixel two_dots_top 0 0) + green (pixel two_dots_top 0 0)
     + blue (pixel two_dots_top 0 0) <? 3 * 224).
Proof.
  apply (foreground_criterion 224 two_dots_top 0 0); vm_compute; split; discriminate.
Defined.

(** ** When generate_frames raises *)

(** Lines 192-246.  What [generate_frames] saves and how it ends, for any
    frame count, images and correspondence.  It raises only in the loop
    over the intermediate frames, so not for [number_of_frames <= 1].
    Otherwise it raises [IndexError] exactly when some entry has a
    coordinate that is out of bounds as an index into its image (lines
    209 and 212; negative indexes down to minus the length count from the
    end), and [ValueError] exactly when the correspondence is empty and
    the shapes of the two images cannot be combined (line 216); in both
    cases only the first file has been saved.  In every other case it
    returns, with the first file, one file for each of the frames
    [1 .. number_of_frames - 1] and the last file saved. *)
Theorem generate_frames_outcome (number_of_frames : Z) (im1 im2 : image)
    (pairings : list entry) :
  ((number_of_frames <= 1 \/
    Forall (λ e, indexable im1 (fst e) /\ indexable im2 (snd e)) pairings /\
    (pairings = [] ->
     broadcasts (height im1) (height im2)
     && broadcasts (width im1) (width im2) = true)) /\
   exists frames : list (string * picture),
     generate_frames number_of_frames im1 im2 pairings = (frames, Ok tt) /\
     length frames = Z.to_nat (Z.max number_of_frames 1 + 1)) \/
  (2 <= number_of_frames /\
   Exists (λ e, ~ (indexable im1 (fst e) /\ indexable im2 (snd e))) pairings /\
   generate_frames number_of_frames im1 im2 pairings
     = ([(frame_name number_of_frames 0, Photo im1)], Raise IndexError)) \/
  (2 <= number_of_frames /\
   pairings = [] /\
   broadcasts (height im1) (height im2)
   && broadcasts (width im1) (width im2) = false /\
   generate_frames number_of_frames im1 im2 pairings
     = ([(frame_name number_of_frames 0, Photo im1)], Raise ValueError)).
Proof.
  assert (Hlen : length (all_frames number_of_frames im1 im2 pairings)
                 = Z.to_nat (Z.max number_of_frames 1 + 1))
    by (rewrite FrameFacts.all_frames_length; lia).
  destruct (Z_le_gt_dec number_of_frames 1) as [Hn|Hn].
  { left. split; [by left|].
    exists (all_frames number_of_frames im1 im2 pairings).
    split; [by apply FrameFacts.generate_frames_short|exact Hlen]. }
  destruct (FrameFacts.intermediate_frame_cases number_of_frames im1 im2
              pairings) as [(Hall & Hd & H)|[(Hex & H)|(Hnil & Hb & H)]].
  - left. split.
    { right. split; [exact Hall|]. intros ->. simpl in Hd.
      destruct (broadcasts (height im1) (height im2)
                && broadcasts (width im1) (width im2)); [done|discriminate]. }
    exists (all_frames number_of_frames im1 im2 pairings).
    split; [by apply FrameFacts.generate_frames_all|exact Hlen].
  - right. left. split; [lia|]. split; [exact Hex|].
    apply FrameFacts.generate_frames_raises; [lia|exact H].
  - right. right. split; [lia|]. split; [exact Hnil|]. split; [exact Hb|].
    apply FrameFacts.generate_frames_raises; [lia|exact H].
Qed.

(** Two cases of it, computed.  An entry outside 1 x 1 images: the first
    file is saved, then line 209 raises.  No entry and images of
    different sizes: line 216 raises. *)
Lemma generate_frames_index_error :
  generate_frames 60 blank blank two_pairs
  = ([(frame_name 60 0, Photo blank)], Raise IndexError).
Proof. vm_compute. reflexivity. Qed.

Lemma generate_frames_value_error :
  generate_frames 60 (dotted 2 2 []) (dotted 3 3 []) []
  = ([(frame_name 60 0, Photo (dotted 2 2 []))], Raise ValueError).
Proof. vm_compute. reflexivity. Qed.

(** ** From the images to the end of the search *)

(** Lines 56-65 with 70-178.  For two images of one size with unequal
    positive foreground counts, [run] gets through the front end and any
    number of generations without raising, and the correspondence it then
    holds still has as many entries as the larger count and still satisfies
    the cardinality invariant of the builder; the search has not converged
    before generation 200.  The scores are binary64, with
    [+], [<] and [==] as in the code; [distance] is any function whose
    values on non-negative integers are neither a NaN nor negative, as
    those of [x ** .5] are. *)
Theorem search_keeps_builder_invariant (distance : Z -> Float.float)
    (white_threshold : Z) (fuel : nat)
    (im1 im2 : image) (g : rng) :
  (forall z, 0 <= z -> regular (distance z) = true) ->
  size im1 = size im2 ->
  0 < im1_colored_pixel_count (classify_pixels white_threshold im1 im2) ->
  0 < im2_colored_pixel_count (classify_pixels white_threshold im1 im2) ->
  im1_colored_pixel_count (classify_pixels white_threshold im1 im2)
    <> im2_colored_pixel_count (classify_pixels white_threshold im1 im2) ->
  exists (s : optimizer) (g' : rng),
    Score.run_to_convergence distance white_threshold fuel im1 im2 g = Ok (s, g') /\
    len (pairings s)
      = Z.max (im1_colored_pixel_count (classify_pixels white_threshold im1 im2))
              (im2_colored_pixel_count (classify_pixels white_threshold im1 im2)) /\
    cardinality_invariant
      (argwhere (height im1) (width im1) (wherecolored white_threshold im1))
      (argwhere (height im2) (width im2) (wherecolored white_threshold im2))
      (pairings s) /\
    generation_count s <= Z.of_nat fuel /\
    (converged s = true -> 200 <= generation_count s).
Proof.
  intros Hd Hsize. unfold Score.run_to_convergence, run_to_convergence.
  rewrite run_to_mappings_build by done.
  unfold classify_pixels.
  cbn [im1_colored_pixel_count im2_colored_pixel_count relationship_].
  rewrite <- !len_argwhere.
  set (ins := argwhere (height im1) (width im1) (wherecolored white_threshold im1)).
  set (outs := argwhere (height im2) (width im2) (wherecolored white_threshold im2)).
  intros H1 H2 Hne.
  destruct (BuilderFacts.build_unequal ins outs g) as (p & g1 & -> & Hlen & Hinv);
    [apply NoDup_argwhere|apply NoDup_argwhere|done|done|done|].
  mstep.
  set (s0 := initial Score.zero Score.add distance
               (relationship_of (len ins) (len outs)) p).
  destruct (generations_loop distance Hd fuel s0 g1)
    as (s & g' & Hrun & _ & _ & Hvar & Hcard & Hgen & _ & Hconv & _);
    [reflexivity|simpl; lia|].
  exists s, g'. split; [exact Hrun|]. split.
  { destruct Hvar as [Hf _]. apply (f_equal length) in Hf.
    rewrite <- Hlen. unfold len. f_equal.
    destruct (relationship_of_self s0); simpl in Hf;
      rewrite !length_map in Hf; exact Hf. }
  split; [by apply Hcard|]. split; [simpl in Hgen; lia|].
  intros Hc. destruct (Hconv eq_refl Hc) as [_ Hgap]. simpl in Hgap. lia.
Qed.

(** The run of the witness below, computed: the builder's correspondence
    for the two images is the one of [scenario_a], and under the draws
    that follow the builder's the first generation adopts a strictly
    shorter correspondence. *)
Lemma scenario_a_run :
  (λ sg : optimizer * rng,
     (pairings (fst sg), generation_count (fst sg), same_score_count (fst sg)))
    <$> Score.run_to_convergence Score.sqrt_distance 224 3
          (dotted 4 4 scenario_a_source) (dotted 4 4 scenario_a_target)
          (mkRng (λ n, nth n [1; 1; 1; 2 ^ 52; 0; 2] (2 ^ 52)) 0)
  = Ok (three_to_two_improved, 3, 2).
Proof. vm_compute. reflexivity. Qed.

Lemma search_keeps_builder_invariant_witness :
  exists (s : optimizer) (g' : rng),
    Score.run_to_convergence Score.sqrt_distance 224 3
      (dotted 4 4 scenario_a_source) (dotted 4 4 scenario_a_target)
      (mkRng (λ n, nth n [1; 1; 1; 2 ^ 52; 0; 2] (2 ^ 52)) 0) = Ok (s, g') /\
    len (pairings s)
      = Z.max (im1_colored_pixel_count
                 (classify_pixels 224 (dotted 4 4 scenario_a_source)
                    (dotted 4 4 scenario_a_target)))
              (im2_colored_pixel_count
                 (classify_pixels 224 (dotted 4 4 scenario_a_source)
                    (dotted 4 4 scenario_a_target))) /\
    cardinality_invariant
      (argwhere (height (dotted 4 4 scenario_a_source))
         (width (dotted 4 4 scenario_a_source))
         (wherecolored 224 (dotted 4 4 scenario_a_source)))
      (argwhere (height (dotted 4 4 scenario_a_target))
         (width (dotted 4 4 scenario_a_target))
         (wherecolored 224 (dotted 4 4 scenario_a_target)))
      (pairings s) /\
    generation_count s <= Z.of_nat 3 /\
    (converged s = true -> 200 <= generation_count s).
Proof.
  apply (search_keeps_builder_invariant Score.sqrt_distance 224 3
           (dotted 4 4 scenario_a_source) (dotted 4 4 scenario_a_target)
           (mkRng (λ n, nth n [1; 1; 1; 2 ^ 52; 0; 2] (2 ^ 52)) 0)).
  - exact ScoreFacts.sqrt_distance_regular.
  - reflexivity.
  - vm_compute. reflexivity.
  - vm_compute. reflexivity.
  - vm_compute. discriminate.
Defined.

(** Lines 56-65 with 70-178.  When an image has no foreground pixel, or
    both images have exactly one, the search is idle: [run] builds a
    correspondence of at most one entry, spends exactly 200 generations on
    it and leaves the loop with the correspondence it built.  The scores are binary64, with
    [+], [<] and [==] as in the code; [distance] is any function whose
    values on non-negative integers are neither a NaN nor negative, as
    those of [x ** .5] are. *)
Theorem idle_search (distance : Z -> Float.float)
    (white_threshold : Z) (fuel : nat) (im1 im2 : image)
    (g : rng) :
  (forall z, 0 <= z -> regular (distance z) = true) ->
  size im1 = size im2 ->
  im1_colored_pixel_count (classify_pixels white_threshold im1 im2) = 0 \/
  im2_colored_pixel_count (classify_pixels white_threshold im1 im2) = 0 \/
  im1_colored_pixel_count (classify_pixels white_threshold im1 im2) = 1 /\
  im2_colored_pixel_count (classify_pixels white_threshold im1 im2) = 1 ->
  (200 <= fuel)%nat ->
  exists (p : list entry) (g1 : rng) (s : optimizer) (g' : rng),
    run_to_mappings white_threshold im1 im2 g = Ok (p, g1) /\
    Score.run_to_convergence distance white_threshold fuel im1 im2 g = Ok (s, g') /\
    len p <= 1 /\
    pairings s = p /\
    converged s = true /\
    generation_count s = 200.
Proof.
  intros Hd Hsize Hcounts Hfuel.
  unfold Score.run_to_convergence, run_to_convergence.
  rewrite run_to_mappings_build by done.
  unfold classify_pixels in *.
  cbn [im1_colored_pixel_count im2_colored_pixel_count relationship_] in *.
  rewrite <- !len_argwhere in *.
  set (ins := argwhere (height im1) (width im1) (wherecolored white_threshold im1)) in *.
  set (outs := argwhere (height im2) (width im2) (wherecolored white_threshold im2)) in *.
  destruct (build_outcome ins outs g) as [(H1 & H2 & _)|(_ & p & g1 & -> & Hlen)];
    [lia|].
  assert (Hp : len p <= 1).
  { rewrite Hlen. destruct (Z.eqb_spec (len ins) 0), (Z.eqb_spec (len outs) 0);
      simpl; lia. }
  mstep.
  set (s0 := initial Score.zero Score.add distance
               (relationship_of (len ins) (len outs)) p).
  destruct (inert_generations distance Hd 199 fuel s0 g1)
    as (s & g' & Hrun & Hc & Hpair & _ & Hgen);
    [apply InertFacts.inert_single; unfold len in Hp; simpl; lia
    |reflexivity|reflexivity|reflexivity|lia|].
  exists p, g1, s, g'. repeat split; try done.
Qed.

(** A single foreground pixel in each of two 1 x 2 images. *)
Lemma idle_search_witness :
  exists (p : list entry) (g1 : rng) (s : optimizer) (g' : rng),
    run_to_mappings 224 (dotted 2 1 [(0, 0)]) (dotted 2 1 [(0, 1)])
      (const_rng 0) = Ok (p, g1) /\
    Score.run_to_convergence Score.sqrt_distance 224 200 (dotted 2 1 [(0, 0)]) (dotted 2 1 [(0, 1)])
      (const_rng 0) = Ok (s, g') /\
    len p <= 1 /\
    pairings s = p /\
    converged s = true /\
    generation_count s = 200.
Proof.
  apply (idle_search Score.sqrt_distance 224 200 (dotted 2 1 [(0, 0)])
           (dotted 2 1 [(0, 1)]) (const_rng 0)).
  - exact ScoreFacts.sqrt_distance_regular.
  - reflexivity.
  - right. right. vm_compute. split; reflexivity.
  - lia.
Defined.
